(** * The workflow execution service of the WhiteWhale backend

    A shallow embedding of [backend/server.js] (the enhanced server with
    caching, retries and validation): the response cache, the cache key,
    the Gemini client with its retry loop, the acyclicity check of
    [/pipelines/parse], and the [/run-workflow] handler with its template
    substitution loop and its mapping of failures to status codes.  With
    it come the sanitiser of strings of [middleware/validation.js] and the
    callers of the service in the editor: [callWorkflowAPI] and [handleRun]
    of the workflow popup and [handleSubmit] of the submit button.

    Conventions of the embedding.
    - JavaScript strings are [string]; a string is falsy exactly when it is
      empty, [undefined] is [None].
    - [Date.now()] is the [clock] of the world, an integer of milliseconds;
      the clock moves in [setTimeout] and between requests; the time a
      [fetch] takes is left out.
    - The values of [inputs] are strings, and so is [data.inputName].
    - A [Map] is an association list in insertion order with unique keys.
      An object used as a dictionary ([adj], [outputs]) keeps its own keys
      in such a list, [Object.keys] enumerating array-index keys first,
      and has [Object.prototype] behind it: [__proto__] is the accessor of
      the prototype and the other names of [Object.prototype] answer with
      a function.  The messages of a [TypeError] are those of V8.
    - What [callGeminiAPI] returns is a [JsValue]: the text of the first
      part of the first candidate, [undefined] when that part has none.
    - A logical name with a character that has a meaning in a regular
      expression gives a pattern outside the embedded fragment: the
      handler is then [Unmodelled], [runWorkflow] gives no reply, and
      nothing is stated about such a request.
    - The Gemini backend is a script of outcomes, one consumed per [fetch];
      every request sent is recorded in the world.
    - The backend the popup talks to is a script of outcomes as well, and
      every body posted is recorded in the browser.
    - The logger only observes; its calls are left out.
    - The handler is embedded as it runs once [validateWithJoi(workflowSchema)]
      has accepted the body and passed it on: [nodes] is an array, so the
      first check of the handler ([Invalid nodes data]) cannot fire. *)

From Stdlib Require Import ZArith Lia Ascii String.
From stdpp Require Import base list strings pretty gmap.

Open Scope string_scope.
Open Scope list_scope.

#[local] Set Warnings "-clear-no-such-hyp".

(** ** JavaScript strings *)

(** A string is truthy when it is not empty. *)
Definition truthy (s : string) : bool :=
  match s with "" => false | String _ _ => true end.

(** [a || b] where [a] may be [undefined]. *)
Definition or_else (a : option string) (b : string) : string :=
  match a with
  | Some s => if truthy s then s else b
  | None => b
  end.

(** [s.includes(sub)]. *)
Fixpoint includes (s sub : string) : bool :=
  String.prefix sub s ||
  match s with
  | "" => false
  | String _ s' => includes s' sub
  end.

(** [s.slice(n)] for [0 <= n]. *)
Fixpoint string_drop (n : nat) (s : string) : string :=
  match n, s with
  | O, _ => s
  | S _, "" => ""
  | S n', String _ s' => string_drop n' s'
  end.

(** The replacement patterns of [String.prototype.replace] for a regular
    expression without capture groups: [$$], [$&], [$`] and [$']; every
    other [$] stands for itself. *)
Fixpoint getSubstitution (matched before after template : string) : string :=
  match template with
  | "" => ""
  | String c rest =>
      if decide (c = "$"%char) then
        match rest with
        | String d rest' =>
            if decide (d = "$"%char) then
              String "$" (getSubstitution matched before after rest')
            else if decide (d = "&"%char) then
              matched +:+ getSubstitution matched before after rest'
            else if decide (d = "`"%char) then
              before +:+ getSubstitution matched before after rest'
            else if decide (d = "'"%char) then
              after +:+ getSubstitution matched before after rest'
            else String c (getSubstitution matched before after rest)
        | "" => String c ""
        end
      else String c (getSubstitution matched before after rest)
  end.

(** [subject.replace(/pat/g, template)] for a pattern [pat] that denotes a
    literal, non-empty string: matches are found left to right and do not
    overlap.  [before] is the part of the subject already passed and [skip]
    the number of characters of the current match still to pass. *)
Fixpoint replaceAllFrom (pat template before : string) (skip : nat)
    (s : string) : string :=
  match s with
  | "" => ""
  | String c s' =>
      match skip with
      | S k => replaceAllFrom pat template (before +:+ String c "") k s'
      | O =>
          if String.prefix pat s then
            getSubstitution pat before (string_drop (String.length pat) s) template
            +:+ replaceAllFrom pat template (before +:+ String c "")
                  (String.length pat - 1) s'
          else
            String c (replaceAllFrom pat template (before +:+ String c "") 0 s')
      end
  end.

(** Characters that stand for themselves in a regular expression. *)
Definition plainChar (c : ascii) : bool :=
  let n := nat_of_ascii c in
  (((65 <=? n) && (n <=? 90)) || ((97 <=? n) && (n <=? 122)) ||
   ((48 <=? n) && (n <=? 57)) || (n =? 95) || (n =? 45) || (n =? 32))%nat.

Definition isDigit (c : ascii) : bool :=
  let n := nat_of_ascii c in ((48 <=? n) && (n <=? 57))%nat.

Fixpoint string_forallb (p : ascii -> bool) (s : string) : bool :=
  match s with
  | "" => true
  | String c s' => p c && string_forallb p s'
  end.

(** [new RegExp(`{{${name}}}`, 'g')] denotes the literal text [{{name}}]
    when [name] is made of plain characters and is not a run of digits (a
    run of digits would make [{digits}] a quantifier of the first brace).
    Other names yield patterns outside the fragment embedded here. *)
Definition literalName (name : string) : bool :=
  string_forallb plainChar name &&
  negb (truthy name && string_forallb isDigit name).

Definition placeholder (name : string) : string := "{{" +:+ name +:+ "}}".

(** [s.replace(new RegExp(`{{${name}}}`, 'g'), value)]; [None] when the
    pattern is outside the embedded fragment. *)
Definition replacePlaceholder (name value s : string) : option string :=
  if literalName name then
    Some (replaceAllFrom (placeholder name) value "" 0 s)
  else None.

(** ** [Map]: an association list in insertion order *)

Module JsMap.
Section ops.
Context {V : Type}.

Fixpoint get (m : list (string * V)) (k : string) : option V :=
  match m with
  | [] => None
  | (k', v) :: m' => if decide (k' = k) then Some v else get m' k
  end.

(** [set] keeps the position of a key that is already present and appends
    a new key. *)
Fixpoint set (m : list (string * V)) (k : string) (v : V) : list (string * V) :=
  match m with
  | [] => [(k, v)]
  | (k', v') :: m' =>
      if decide (k' = k) then (k, v) :: m' else (k', v') :: set m' k v
  end.

Fixpoint delete (m : list (string * V)) (k : string) : list (string * V) :=
  match m with
  | [] => []
  | (k', v') :: m' =>
      if decide (k' = k) then delete m' k else (k', v') :: delete m' k
  end.

Definition keys (m : list (string * V)) : list string := m.*1.

Definition size (m : list (string * V)) : nat := length m.
End ops.
End JsMap.

(** ** The response cache *)

(** What [callGeminiAPI] returns and the cache stores: a string, or
    [undefined] when the first part of the answer has no [text]. *)
Inductive JsValue :=
| Undefined
| Str (s : string).
Coercion Str : string >-> JsValue.

Record CacheEntry := { data : JsValue; timestamp : Z }.

Definition CACHE_TTL : Z := 5 * 60 * 1000.

(** [getFromCache]: the stored data while [Date.now() - timestamp < CACHE_TTL];
    otherwise the key is deleted and the answer is [null]. *)
Definition getFromCache (key : string) (now : Z)
    (cache : list (string * CacheEntry)) : option JsValue * list (string * CacheEntry) :=
  match JsMap.get cache key with
  | Some cached =>
      if (now - timestamp cached <? CACHE_TTL)%Z then (Some (data cached), cache)
      else (None, JsMap.delete cache key)
  | None => (None, JsMap.delete cache key)
  end.

(** [setCache]: store, then drop the first 500 keys once the size passes 1000. *)
Definition setCache (key : string) (d : JsValue) (now : Z)
    (cache : list (string * CacheEntry)) : list (string * CacheEntry) :=
  let cache1 := JsMap.set cache key {| data := d; timestamp := now |} in
  if (1000 <? JsMap.size cache1)%nat then
    let oldestKeys := take 500 (JsMap.keys cache1) in
    foldl (fun c k => JsMap.delete c k) cache1 oldestKeys
  else cache1.

(** ** The cache key: [JSON.stringify] of [{model, system, prompt}] *)

Definition newline : string := String (ascii_of_nat 10) "".
Definition dquote : ascii := ascii_of_nat 34.
Definition backslash : ascii := ascii_of_nat 92.

Definition hexDigit (n : nat) : ascii :=
  match n with
  | 0 => "0" | 1 => "1" | 2 => "2" | 3 => "3" | 4 => "4" | 5 => "5"
  | 6 => "6" | 7 => "7" | 8 => "8" | 9 => "9" | 10 => "a" | 11 => "b"
  | 12 => "c" | 13 => "d" | 14 => "e" | _ => "f"
  end%char.

(** One character of [QuoteJSONString]: the short escapes, [\u00xx] for the
    other control characters, and the character itself otherwise. *)
Definition quoteJSONChar (c : ascii) : string :=
  let n := nat_of_ascii c in
  if (n =? 8)%nat then String backslash "b"
  else if (n =? 9)%nat then String backslash "t"
  else if (n =? 10)%nat then String backslash "n"
  else if (n =? 12)%nat then String backslash "f"
  else if (n =? 13)%nat then String backslash "r"
  else if (n =? 34)%nat then String backslash (String dquote "")
  else if (n =? 92)%nat then String backslash (String backslash "")
  else if (n <? 32)%nat then
    String backslash
      (String "u" (String "0" (String "0"
         (String (hexDigit (n / 16)) (String (hexDigit (n mod 16)) "")))))
  else String c "".

Fixpoint quoteJSON (s : string) : string :=
  match s with
  | "" => ""
  | String c s' => quoteJSONChar c +:+ quoteJSON s'
  end.

Definition jsonString (s : string) : string :=
  String dquote (quoteJSON s +:+ String dquote "").

Record CacheKeyData := { ck_model : string; ck_system : string; ck_prompt : string }.

(** [getCacheKey(data)] is [JSON.stringify(data)]; the handler passes an
    object with the three properties [model], [system] and [prompt]. *)
Definition getCacheKey (d : CacheKeyData) : string :=
  "{" +:+ jsonString "model" +:+ ":" +:+ jsonString (ck_model d) +:+
  "," +:+ jsonString "system" +:+ ":" +:+ jsonString (ck_system d) +:+
  "," +:+ jsonString "prompt" +:+ ":" +:+ jsonString (ck_prompt d) +:+ "}".

(** Reading one quoted character back; used to show that the key
    determines the three strings it is made of. *)
Definition hexValue (c : ascii) : nat :=
  let n := nat_of_ascii c in
  if (n <? 58)%nat then n - 48 else n - 87.

Definition unquoteJSONChar (s : string) : option (ascii * string) :=
  match s with
  | "" => None
  | String c r =>
      if decide (c = dquote) then None
      else if decide (c = backslash) then
        match r with
        | "" => None
        | String e r' =>
            if decide (e = "b"%char) then Some (ascii_of_nat 8, r')
            else if decide (e = "t"%char) then Some (ascii_of_nat 9, r')
            else if decide (e = "n"%char) then Some (ascii_of_nat 10, r')
            else if decide (e = "f"%char) then Some (ascii_of_nat 12, r')
            else if decide (e = "r"%char) then Some (ascii_of_nat 13, r')
            else if decide (e = dquote) then Some (dquote, r')
            else if decide (e = backslash) then Some (backslash, r')
            else
              match r' with
              | String _ (String _ (String h (String l r''))) =>
                  Some (ascii_of_nat (16 * hexValue h + hexValue l), r'')
              | _ => None
              end
        end
      else Some (c, r)
  end.

(** ** The world: cache, clock and the Gemini backend *)

Record HttpResponse := {
  status : Z;
  statusText : string;
  errorMessage : option string;   (* [errorData.error?.message] *)
  candidateText : option JsValue
    (* [candidates[0].content.parts[0].text] when the answer has a first
       part, [Undefined] when that part has no [text]; [None] when there
       is no first part *)
}.

Inductive FetchOutcome :=
| Rejected (message : string)     (* [fetch] or [response.json()] rejects *)
| Responded (r : HttpResponse).

Record GeminiRequest := { url : string; text : string }.

Record World := {
  cache : list (string * CacheEntry);
  clock : Z;
  upstream : list FetchOutcome;
  sent : list GeminiRequest;
  slept : list Z
}.

(** How a computation ends: with a value, with a thrown [Error] carrying a
    message, or outside the embedded fragment of regular expressions. *)
Inductive Completion (A : Type) :=
| Return (a : A)
| Throw (message : string)
| Unmodelled.
Arguments Return {A} a.
Arguments Throw {A} message.
Arguments Unmodelled {A}.

Definition response_ok (r : HttpResponse) : bool :=
  ((200 <=? status r) && (status r <=? 299))%Z.


Definition geminiRequest (model system prompt apiKey : string) : GeminiRequest :=
  {| url := "https://generativelanguage.googleapis.com/v1beta/models/" +:+ model
            +:+ ":generateContent?key=" +:+ apiKey;
     text := system +:+ newline +:+ newline +:+ prompt |}.

(** [await fetch(API_URL, ...)]: the request is recorded and the next
    outcome of the script is consumed. *)
Definition fetch (rq : GeminiRequest) (w : World) : FetchOutcome * World :=
  let w' := {| cache := cache w; clock := clock w; upstream := tail (upstream w);
               sent := (sent w ++ [rq])%list; slept := slept w |} in
  match upstream w with
  | [] => (Rejected "fetch failed", w')
  | o :: _ => (o, w')
  end.

(** [await new Promise(resolve => setTimeout(resolve, ms))]. *)
Definition sleep (ms : Z) (w : World) : World :=
  {| cache := cache w; clock := (clock w + ms)%Z; upstream := upstream w;
     sent := sent w; slept := (slept w ++ [ms])%list |}.

(** [callGeminiAPI({model, system, prompt, apiKey, retries})]. *)
Fixpoint callGeminiAPI (retries : nat) (model system prompt apiKey : string)
    (w : World) : Completion JsValue * World :=
  let '(outcome, w1) := fetch (geminiRequest model system prompt apiKey) w in
  match outcome with
  | Rejected message => (Throw message, w1)
  | Responded response =>
      if negb (response_ok response) then
        let errorMessage := or_else (errorMessage response) (statusText response) in
        match retries with
        | S retries' =>
            if ((status response =? 429) || (500 <=? status response))%Z then
              callGeminiAPI retries' model system prompt apiKey (sleep 1000 w1)
            else (Throw ("Gemini API error: " +:+ errorMessage), w1)
        | O => (Throw ("Gemini API error: " +:+ errorMessage), w1)
        end
      else
        match candidateText response with
        | Some t => (Return t, w1)
        | None => (Throw "No response generated from Gemini API", w1)
        end
  end.

(** A response that [callGeminiAPI] answers with a retry while retries are
    left: not a success, and rate-limited or a server fault. *)
Definition retryable (r : HttpResponse) : Prop :=
  response_ok r = false /\ (status r = 429 \/ 500 <= status r)%Z.

(** ** Requests and replies *)

Record Node := {
  id : string;
  type : string;
  inputName : option string       (* [data?.inputName] *)
}.

Record Edge := { edge_id : option string; source : string; target : string }.

Record LLMConfig := {
  apiKey : option string;
  model : option string;
  system : option string;
  prompt : option string
}.

(** The body of an execution request as the handler receives it.  [inputs]
    is the list [Object.entries(inputs)] in enumeration order; the schema
    leaves [inputs] and [llmConfig] optional. *)
Record Request := {
  nodes : list Node;
  edges : list Edge;
  inputs : option (list (string * string));
  llmConfig : option LLMConfig
}.

(** [process.env]. *)
Record Env := { GOOGLE_API_KEY : option string }.

Record Metadata := { md_model : string; tokensUsed : nat }.

Inductive Reply :=
| Succeeded (outputs : list (string * string)) (metadata : Metadata)
| Failed (statusCode : Z) (error : string).

(** ** Template substitution: the [forEach] over [Object.entries(inputs)] *)

Fixpoint substituteInputs (inputNodes : list Node)
    (entries : list (string * string)) (systemPrompt userPrompt : string)
    : option (string * string) :=
  match entries with
  | [] => Some (systemPrompt, userPrompt)
  | (nodeId, value) :: rest =>
      match List.find (fun n => bool_decide (id n = nodeId)) inputNodes with
      | Some inputNode =>
          let name := or_else (inputName inputNode) nodeId in
          match replacePlaceholder name value systemPrompt,
                replacePlaceholder name value userPrompt with
          | Some systemPrompt', Some userPrompt' =>
              let userPrompt'' :=
                if negb (includes userPrompt' "{{") then value else userPrompt' in
              substituteInputs inputNodes rest systemPrompt' userPrompt''
          | _, _ => None
          end
      | None => substituteInputs inputNodes rest systemPrompt userPrompt
      end
  end.

(** ** The [/run-workflow] handler *)

Definition DEFAULT_MODEL : string := "gemini-2.0-flash-exp".
Definition DEFAULT_SYSTEM : string := "You are a helpful assistant.".

Definition ofType (t : string) (ns : list Node) : list Node :=
  List.filter (fun n => bool_decide (type n = t)) ns.

(** [llmConfig?.field]. *)
Definition cfg (f : LLMConfig -> option string) (req : Request) : option string :=
  match llmConfig req with Some c => f c | None => None end.

(** [llmConfig?.apiKey || process.env.GOOGLE_API_KEY], [None] when the
    result is falsy. *)
Definition resolveApiKey (env : Env) (req : Request) : option string :=
  match or_else (cfg apiKey req) (or_else (GOOGLE_API_KEY env) "") with
  | "" => None
  | k => Some k
  end.

Definition setWorldCache (c : list (string * CacheEntry)) (w : World) : World :=
  {| cache := c; clock := clock w; upstream := upstream w;
     sent := sent w; slept := slept w |}.

(** The world when the clock shows [t]. *)
Definition atTime (t : Z) (w : World) : World :=
  {| cache := cache w; clock := t; upstream := upstream w;
     sent := sent w; slept := slept w |}.

(** [outputs[outputNode.id] = geminiResponse] for every output node. *)
(** [outputs[key] = geminiResponse] on the plain object [outputs]: for the
    key [__proto__] the assignment goes to the setter of
    [Object.prototype], which does nothing with a string. *)
Definition setOutput (outputs : list (string * string)) (key geminiResponse : string)
    : list (string * string) :=
  if decide (key = "__proto__") then outputs
  else JsMap.set outputs key geminiResponse.

Definition broadcast (outputNodes : list Node) (geminiResponse : string)
    : list (string * string) :=
  foldl (fun outputs n => setOutput outputs (id n) geminiResponse) [] outputNodes.

Definition NO_API_KEY_MESSAGE : string :=
  "No API key provided. Please set GOOGLE_API_KEY in .env " +:+
  "file or provide a personal API key.".

(** The message of the [TypeError] of V8 for [geminiResponse.length] on
    [undefined]. *)
Definition NO_LENGTH_MESSAGE : string :=
  "Cannot read properties of undefined (reading 'length')".

(** What the handler has in hand when it reaches the cache. *)
Record Prepared := {
  p_model : string;
  p_system : string;
  p_prompt : string;
  p_apiKey : string
}.

(** The first part of the [try] block: the checks on the nodes, the
    substitution loop and the resolution of the API key. *)
Definition prepare (env : Env) (req : Request) : Completion Prepared :=
  let inputNodes := ofType "customInput" (nodes req) in
  let outputNodes := ofType "customOutput" (nodes req) in
  if bool_decide (length inputNodes = 0) then
    Throw "No input nodes found in workflow"
  else if bool_decide (length outputNodes = 0) then
    Throw "No output nodes found in workflow"
  else
    match inputs req with
    | None => Throw "Cannot convert undefined or null to object"
    | Some entries =>
        match substituteInputs inputNodes entries
                (or_else (cfg system req) DEFAULT_SYSTEM)
                (or_else (cfg prompt req) "") with
        | None => Unmodelled
        | Some (systemPrompt, userPrompt) =>
            match resolveApiKey env req with
            | None => Throw NO_API_KEY_MESSAGE
            | Some key =>
                Return {| p_model := or_else (cfg model req) DEFAULT_MODEL;
                          p_system := systemPrompt;
                          p_prompt := userPrompt;
                          p_apiKey := key |}
            end
        end
    end.

(** The key the handler probes the cache with. *)
Definition cacheKeyOf (p : Prepared) : string :=
  getCacheKey {| ck_model := p_model p; ck_system := p_system p;
                 ck_prompt := p_prompt p |}.

(** The second part: the cache probe, the call on a miss, the reply. *)
Definition respond (outputNodes : list Node) (p : Prepared) (w : World)
    : Completion Reply * World :=
  let cacheKey := cacheKeyOf p in
  let '(cached, c1) := getFromCache cacheKey (clock w) (cache w) in
  let w1 := setWorldCache c1 w in
  let '(result, w2) :=
    match cached with
    | Some (Str (String a r)) => (Return (String a r), w1)
    | _ =>
        match callGeminiAPI 2 (p_model p) (p_system p) (p_prompt p) (p_apiKey p) w1 with
        | (Return v, w') =>
            (* [setCache(cacheKey, geminiResponse)], then
               [geminiResponse.length] for the logger *)
            let w'' :=
              setWorldCache (setCache cacheKey v (clock w') (cache w')) w' in
            match v with
            | Str t => (Return t, w'')
            | Undefined => (Throw NO_LENGTH_MESSAGE, w'')
            end
        | (Throw m, w') => (Throw m, w')
        | (Unmodelled, w') => (Unmodelled, w')
        end
    end in
  match result with
  | Return geminiResponse =>
      (Return (Succeeded (broadcast outputNodes geminiResponse)
                 {| md_model := p_model p;
                    tokensUsed := String.length geminiResponse |}), w2)
  | Throw m => (Throw m, w2)
  | Unmodelled => (Unmodelled, w2)
  end.

(** The [try] block. *)
Definition runWorkflowBody (env : Env) (req : Request) (w : World)
    : Completion Reply * World :=
  match prepare env req with
  | Return p => respond (ofType "customOutput" (nodes req)) p w
  | Throw m => (Throw m, w)
  | Unmodelled => (Unmodelled, w)
  end.

(** The [catch] block: the status code is chosen from the message. *)
Definition statusCodeOf (message : string) : Z :=
  if includes message "API key" then 401
  else if includes message "Validation" then 400
  else if includes message "Gemini API" then 502
  else 500.

(** The handler; [None] when a placeholder pattern is outside the embedded
    fragment of regular expressions.  Such a request is not embedded: the
    world that comes with [None] says nothing about the server. *)
Definition runWorkflow (env : Env) (req : Request) (w : World)
    : option Reply * World :=
  match runWorkflowBody env req w with
  | (Return r, w') => (Some r, w')
  | (Throw m, w') => (Some (Failed (statusCodeOf m) m), w')
  | (Unmodelled, w') => (None, w')
  end.

(** ** The acyclicity check of [/pipelines/parse] *)

Record DfsState := { visited : gset string; recStack : gset string }.

(** *** The adjacency object, a plain object *)

(** The names [Object.prototype] answers to in V8.  All of them are
    functions but [__proto__], an accessor for the prototype. *)
Definition objectPrototypeNames : list string :=
  ["constructor"; "__defineGetter__"; "__defineSetter__"; "hasOwnProperty";
   "__lookupGetter__"; "__lookupSetter__"; "isPrototypeOf";
   "propertyIsEnumerable"; "toString"; "valueOf"; "__proto__";
   "toLocaleString"].

(** [adj]: its own properties in insertion order, each an array of
    identifiers, and the array that has become its prototype once
    [adj['__proto__'] = []] has run ([None] while the prototype is
    [Object.prototype]). *)
Record Adjacency := {
  own : list (string * list string);
  prototype : option (list string)
}.

(** What [adj[key]] gives. *)
Inductive Property :=
| OwnArray (targets : list string)        (* the array of an own property *)
| PrototypeArray (targets : list string)  (* the array that is the prototype *)
| Inherited       (* a function or [Object.prototype]: truthy, without
                     [push], not iterable *)
| Absent          (* [undefined] *)
| Unknown.        (* a name looked up in the array that is the prototype:
                     outside the embedded fragment *)

Definition getProperty (adj : Adjacency) (key : string) : Property :=
  if decide (key = "__proto__") then
    match prototype adj with
    | Some targets => PrototypeArray targets
    | None => Inherited
    end
  else
    match JsMap.get (own adj) key with
    | Some targets => OwnArray targets
    | None =>
        if decide (key ∈ objectPrototypeNames) then Inherited
        else match prototype adj with
             | None => Absent
             | Some _ => Unknown
             end
    end.

(** [adj[node.id] = []]: the key [__proto__] goes to the setter of
    [Object.prototype], which makes the array the prototype and creates no
    property. *)
Definition setNode (adj : Adjacency) (key : string) : Adjacency :=
  if decide (key = "__proto__") then
    {| own := own adj; prototype := Some [] |}
  else {| own := JsMap.set (own adj) key []; prototype := prototype adj |}.

(** [if (adj[edge.source]) adj[edge.source].push(edge.target)]; the message
    of the [TypeError] is the one of V8. *)
Definition addEdge (adj : Adjacency) (e : Edge) : Completion Adjacency :=
  match getProperty adj (source e) with
  | OwnArray targets =>
      Return {| own := JsMap.set (own adj) (source e) (targets ++ [target e]);
                prototype := prototype adj |}
  | PrototypeArray targets =>
      Return {| own := own adj; prototype := Some (targets ++ [target e]) |}
  | Inherited => Throw "adj[edge.source].push is not a function"
  | Absent => Return adj
  | Unknown => Unmodelled
  end.

(** [edges.forEach(...)], left by the first exception. *)
Fixpoint addEdges (adj : Adjacency) (es : list Edge) : Completion Adjacency :=
  match es with
  | [] => Return adj
  | e :: es' =>
      match addEdge adj e with
      | Return adj' => addEdges adj' es'
      | other => other
      end
  end.

(** The adjacency object: [adj[node.id] = []] for every node, then the
    loop over the edges. *)
Definition buildAdj (ns : list Node) (es : list Edge) : Completion Adjacency :=
  addEdges (foldl (fun adj n => setNode adj (id n))
              {| own := []; prototype := None |} ns) es.

(** Array indices: the canonical decimal strings below [2^32 - 1]. *)
Fixpoint digitsValue (acc : N) (s : string) : option N :=
  match s with
  | "" => Some acc
  | String c s' =>
      if isDigit c then digitsValue (acc * 10 + (N_of_ascii c - 48))%N s' else None
  end.

Definition arrayIndex (s : string) : option N :=
  match s with
  | "" => None
  | String c s' =>
      if bool_decide (c = "0"%char) && truthy s' then None
      else match digitsValue 0 s with
           | Some n => if (n <? 4294967295)%N then Some n else None
           | None => None
           end
  end.

Fixpoint insertIndex (k : N * string) (l : list (N * string)) : list (N * string) :=
  match l with
  | [] => [k]
  | k' :: l' => if (k.1 <=? k'.1)%N then k :: l else k' :: insertIndex k l'
  end.

(** [Object.keys(obj)]: the own keys, array-index keys in ascending order,
    then the other keys in insertion order. *)
Definition objectKeys {V} (obj : list (string * V)) : list string :=
  let ks := JsMap.keys obj in
  let indexed := omap (fun k => match arrayIndex k with
                                | Some n => Some (n, k) | None => None end) ks in
  let others := List.filter (fun k => bool_decide (arrayIndex k = None)) ks in
  ((foldr insertIndex [] indexed).*2 ++ others)%list.

(** *** The search *)

(** [for (const x of xs) { if (f(x)) return true; }] with the state threaded
    through; the answer is [false] when the loop runs to its end. *)
Fixpoint anyCycle (f : string -> DfsState -> Completion (bool * DfsState))
    (xs : list string) (st : DfsState) : Completion (bool * DfsState) :=
  match xs with
  | [] => Return (false, st)
  | x :: xs' =>
      match f x st with
      | Return (false, st') => anyCycle f xs' st'
      | r => r
      end
  end.

(** [adj[nodeId] || []] as what the [for ... of] loop runs over; the
    message of the [TypeError] is the one of V8. *)
Definition neighborsOf (adj : Adjacency) (nodeId : string)
    : Completion (list string) :=
  match getProperty adj nodeId with
  | OwnArray targets => Return targets
  | PrototypeArray targets => Return targets
  | Inherited => Throw "neighbors is not iterable"
  | Absent => Return []
  | Unknown => Unmodelled
  end.

(** The inner function [hasCycle]; [Unmodelled] when the fuel is used up. *)
Fixpoint hasCycle (adj : Adjacency) (fuel : nat)
    (nodeId : string) (st : DfsState) : Completion (bool * DfsState) :=
  if decide (nodeId ∈ recStack st) then Return (true, st)
  else if decide (nodeId ∈ visited st) then Return (false, st)
  else
    match fuel with
    | O => Unmodelled
    | S fuel' =>
        let st1 := {| visited := {[nodeId]} ∪ visited st;
                      recStack := {[nodeId]} ∪ recStack st |} in
        match neighborsOf adj nodeId with
        | Return neighbors =>
            match anyCycle (hasCycle adj fuel') neighbors st1 with
            | Return (false, st2) =>
                Return (false, {| visited := visited st2;
                                  recStack := recStack st2 ∖ {[nodeId]} |})
            | r => r
            end
        | Throw m => Throw m
        | Unmodelled => Unmodelled
        end
    end.

(** Every identifier [hasCycle] can be called on: the own keys of [adj],
    the targets stored under them and, when an array is the prototype,
    [__proto__] and the targets stored in that array. *)
Definition universe (adj : Adjacency) : list string :=
  (JsMap.keys (own adj) ++ concat (own adj).*2) ++
  match prototype adj with
  | Some targets => "__proto__" :: targets
  | None => []
  end.

(** [checkIfDAG(nodes, edges)].  The recursion of [hasCycle] marks a new
    identifier at every level, so its depth is bounded by the size of the
    universe, which is the fuel given here. *)
Definition checkIfDAG (ns : list Node) (es : list Edge) : Completion bool :=
  match buildAdj ns es with
  | Return adj =>
      match anyCycle (hasCycle adj (S (length (universe adj))))
              (objectKeys (own adj)) {| visited := ∅; recStack := ∅ |} with
      | Return (b, _) => Return (negb b)
      | Throw m => Throw m
      | Unmodelled => Unmodelled
      end
  | Throw m => Throw m
  | Unmodelled => Unmodelled
  end.

(** The [/pipelines/parse] handler on the parsed pipeline; an exception of
    [checkIfDAG] is caught and answered with status 400 and its message. *)
Inductive ParseReply :=
| Parsed (num_nodes num_edges : nat) (is_dag : bool)
| ParseFailed (statusCode : Z) (error : string).

Definition pipelinesParse (ns : option (list Node)) (es : option (list Edge))
    : option ParseReply :=
  match ns with
  | None => Some (ParseFailed 400 "Invalid nodes data")
  | Some ns =>
      match checkIfDAG ns (default [] es) with
      | Return isDAG => Some (Parsed (length ns) (length (default [] es)) isDAG)
      | Throw m => Some (ParseFailed 400 m)
      | Unmodelled => None
      end
  end.

(** *** The search over a map *)

(** Identifiers that are not names of [Object.prototype]. *)
Definition ordinaryId (key : string) : bool :=
  bool_decide (key ∉ objectPrototypeNames).

(** A graph all of whose identifiers are ordinary. *)
Definition ordinaryGraph (ns : list Node) (es : list Edge) : bool :=
  forallb (fun n => ordinaryId (id n)) ns &&
  forallb (fun e => ordinaryId (source e) && ordinaryId (target e)) es.

(** On a graph whose identifiers are ordinary the adjacency object never
    answers with a member of its prototype: it is a map from identifiers
    to arrays, and the check is the search below, which the proofs about
    such graphs go through.  [None] stands for fuel used up. *)
Module OnMap.

Fixpoint anyCycle (f : string -> DfsState -> option (bool * DfsState))
    (xs : list string) (st : DfsState) : option (bool * DfsState) :=
  match xs with
  | [] => Some (false, st)
  | x :: xs' =>
      match f x st with
      | Some (false, st') => anyCycle f xs' st'
      | r => r
      end
  end.

Fixpoint hasCycle (adj : list (string * list string)) (fuel : nat)
    (nodeId : string) (st : DfsState) : option (bool * DfsState) :=
  if decide (nodeId ∈ recStack st) then Some (true, st)
  else if decide (nodeId ∈ visited st) then Some (false, st)
  else
    match fuel with
    | O => None
    | S fuel' =>
        let st1 := {| visited := {[nodeId]} ∪ visited st;
                      recStack := {[nodeId]} ∪ recStack st |} in
        let neighbors := default [] (JsMap.get adj nodeId) in
        match anyCycle (hasCycle adj fuel') neighbors st1 with
        | Some (false, st2) =>
            Some (false, {| visited := visited st2;
                            recStack := recStack st2 ∖ {[nodeId]} |})
        | r => r
        end
    end.

Definition addEdge (adj : list (string * list string)) (e : Edge)
    : list (string * list string) :=
  match JsMap.get adj (source e) with
  | Some targets => JsMap.set adj (source e) (targets ++ [target e])
  | None => adj
  end.

Definition buildAdj (ns : list Node) (es : list Edge) : list (string * list string) :=
  let adj0 := foldl (fun adj n => JsMap.set adj (id n) []) [] ns in
  foldl addEdge adj0 es.

Definition universe (adj : list (string * list string)) : list string :=
  JsMap.keys adj ++ concat adj.*2.

Definition checkIfDAG (ns : list Node) (es : list Edge) : option bool :=
  let adj := buildAdj ns es in
  match anyCycle (hasCycle adj (S (length (universe adj)))) (objectKeys adj)
          {| visited := ∅; recStack := ∅ |} with
  | Some (b, _) => Some (negb b)
  | None => None
  end.

End OnMap.

(** An answer of the search over a map as an answer of the check. *)
Definition ofMap {A} (o : option A) : Completion A :=
  match o with
  | Some a => Return a
  | None => Unmodelled
  end.

(** What a call of [hasCycle] that answers [false] has done: its node was
    not on the stack and is now visited, nothing was unvisited, the stack
    is as before, and no node visited during the call has an edge to
    itself. *)
Definition cleanRun (adj : list (string * list string)) (x : string)
    (st st' : DfsState) : Prop :=
  (x ∉ recStack st) /\ (x ∈ visited st') /\ visited st ⊆ visited st' /\
  recStack st' = recStack st /\
  forall y, y ∈ visited st' -> y ∉ visited st -> y ∉ default [] (JsMap.get adj y).

(** ** Cache states the server can be in *)

(** The cache starts empty and is only touched by [setCache] and
    [getFromCache]. *)
Inductive reachable : list (string * CacheEntry) -> Prop :=
| reachable_empty : reachable []
| reachable_set key d now c :
    reachable c -> reachable (setCache key d now c)
| reachable_get key now c :
    reachable c -> reachable (getFromCache key now c).2.

(** The eviction as the specification words it: when the entry count,
    the new entry included, exceeds the capacity, the oldest half of the
    stored entries is evicted and then the new entry is inserted. *)
Definition evictOldestHalf (c : list (string * CacheEntry)) : list (string * CacheEntry) :=
  drop (JsMap.size c / 2) c.

Definition setCache_spec (key : string) (d : JsValue) (now : Z)
    (c : list (string * CacheEntry)) : list (string * CacheEntry) :=
  let e := {| data := d; timestamp := now |} in
  if (1000 <? JsMap.size (JsMap.set c key e))%nat then
    JsMap.set (evictOldestHalf c) key e
  else JsMap.set c key e.

(** A cache filled by [n] successive calls of [setCache] with the keys
    [0], [1], ... written in decimal. *)
Fixpoint filledCache (n : nat) : list (string * CacheEntry) :=
  match n with
  | O => []
  | S n' => setCache (pretty n') "stored" 0 (filledCache n')
  end.

(** ** The user prompt as the specification words it *)

(** The entries of [inputs] that name an input node, each with the logical
    name of its node. *)
Definition matchedInputs (inputNodes : list Node)
    (entries : list (string * string)) : list (string * string) :=
  omap (fun entry : string * string =>
          match List.find (fun n => bool_decide (id n = entry.1)) inputNodes with
          | Some inputNode => Some (or_else (inputName inputNode) entry.1, entry.2)
          | None => None
          end) entries.

(** "Replace every occurrence of the literal placeholder [{{name}}] with
    the stringified value": the occurrences of the text [pat] in [s], found
    left to right and not overlapping, each replaced by [value] as it
    stands.  [skip] counts the characters of the current occurrence still
    to pass. *)
Fixpoint replaceEvery (pat value : string) (skip : nat) (s : string) : string :=
  match s with
  | "" => ""
  | String c s' =>
      match skip with
      | S k => replaceEvery pat value k s'
      | O =>
          if String.prefix pat s
          then value +:+ replaceEvery pat value (String.length pat - 1) s'
          else String c (replaceEvery pat value 0 s')
      end
  end.

(** Every placeholder substituted, one input after the other. *)
Fixpoint substituteAll (pairs : list (string * string)) (template : string)
    : string :=
  match pairs with
  | [] => template
  | (name, value) :: rest =>
      substituteAll rest (replaceEvery (placeholder name) value 0 template)
  end.

(** "If, after all substitutions, the user-prompt template contains no
    remaining placeholder syntax, the final user prompt is replaced
    wholesale by the single latest resolved value"; the substituted
    template is kept otherwise, and when no input was resolved. *)
Definition resolveUser_spec (pairs : list (string * string)) (template : string)
    : string :=
  let substituted := substituteAll pairs template in
  if includes substituted "{{" then substituted
  else default substituted (last pairs.*2).

(** The user prompt of the handler is the one the specification words. *)
Definition userPromptAsSpecified (inputNodes : list Node)
    (entries : list (string * string)) (systemPrompt userPrompt : string) : Prop :=
  snd <$> substituteInputs inputNodes entries systemPrompt userPrompt =
  Some (resolveUser_spec (matchedInputs inputNodes entries) userPrompt).

(** A value with one of the replacement patterns [$$], [$&], [$`], [$']. *)
Definition usesReplacementPattern (value : string) : bool :=
  includes value "$$" || includes value "$&" ||
  includes value "$`" || includes value "$'".

(** Inputs whose names denote the literal placeholder and whose values
    contain neither [{{] nor a replacement pattern. *)
Definition literalInputs (pairs : list (string * string)) : bool :=
  forallb (fun p : string * string =>
             literalName p.1 && negb (includes p.2 "{{") &&
             negb (usesReplacementPattern p.2)) pairs.

(** The loop of the handler over the resolved pairs. *)
Fixpoint substitutePairs (pairs : list (string * string))
    (systemPrompt userPrompt : string) : option (string * string) :=
  match pairs with
  | [] => Some (systemPrompt, userPrompt)
  | (name, value) :: rest =>
      match replacePlaceholder name value systemPrompt,
            replacePlaceholder name value userPrompt with
      | Some systemPrompt', Some userPrompt' =>
          substitutePairs rest systemPrompt'
            (if negb (includes userPrompt' "{{") then value else userPrompt')
      | _, _ => None
      end
  end.

(** ** Requests that differ in one field *)

Definition withApiKey (k : option string) (req : Request) : Request :=
  {| nodes := nodes req; edges := edges req; inputs := inputs req;
     llmConfig := Some {| apiKey := k; model := cfg model req;
                          system := cfg system req; prompt := cfg prompt req |} |}.

Definition withEdges (es : list Edge) (req : Request) : Request :=
  {| nodes := nodes req; edges := es; inputs := inputs req;
     llmConfig := llmConfig req |}.

(** ** Sample data *)

Definition mkNode (i t : string) : Node := {| id := i; type := t; inputName := None |}.
Definition mkInput (i name : string) : Node :=
  {| id := i; type := "customInput"; inputName := Some name |}.
Definition mkEdge (s t : string) : Edge := {| edge_id := None; source := s; target := t |}.

Definition okResponse (t : string) : HttpResponse :=
  {| status := 200; statusText := "OK"; errorMessage := None;
     candidateText := Some (Str t) |}.

Definition failResponse (code : Z) (reason : string) : HttpResponse :=
  {| status := code; statusText := reason; errorMessage := None; candidateText := None |}.

Definition worldWith (script : list FetchOutcome) : World :=
  {| cache := []; clock := 0; upstream := script; sent := []; slept := [] |}.

Definition noKeyEnv : Env := {| GOOGLE_API_KEY := None |}.

(** A request with an output node and an LLM node but no input node. *)
Definition requestWithoutInput : Request :=
  {| nodes := [mkNode "llm-1" "llm"; mkNode "out-1" "customOutput"];
     edges := [mkEdge "llm-1" "out-1"];
     inputs := Some [];
     llmConfig := Some {| apiKey := Some "user-key"; model := None;
                          system := None; prompt := Some "Say hello" |} |}.

(** A request with an input node but no output node. *)
Definition requestWithoutOutput : Request :=
  {| nodes := [mkInput "in-1" "topic"; mkNode "llm-1" "llm"];
     edges := [mkEdge "in-1" "llm-1"];
     inputs := Some [("in-1", "dogs")];
     llmConfig := Some {| apiKey := Some "user-key"; model := None;
                          system := None; prompt := Some "Talk about {{topic}}" |} |}.

(** A complete request: one input, one LLM node, one output. *)
Definition sampleRequest : Request :=
  {| nodes := [mkInput "in-1" "topic"; mkNode "llm-1" "llm";
               mkNode "out-1" "customOutput"];
     edges := [mkEdge "in-1" "llm-1"; mkEdge "llm-1" "out-1"];
     inputs := Some [("in-1", "dogs")];
     llmConfig := Some {| apiKey := Some "user-key"; model := None;
                          system := None; prompt := Some "Talk about {{topic}}" |} |}.

(** Two input nodes named [a] and [b]. *)
Definition twoInputs : list Node := [mkInput "n1" "a"; mkInput "n2" "b"].

(** A request with no API key and no input node. *)
Definition requestWithoutKeyOrInput : Request :=
  {| nodes := [mkNode "llm-1" "llm"; mkNode "out-1" "customOutput"];
     edges := [mkEdge "llm-1" "out-1"];
     inputs := Some [];
     llmConfig := Some {| apiKey := None; model := None;
                          system := None; prompt := Some "Say hello" |} |}.

(** The reply is a failure with status 401. *)
Definition answers401 (env : Env) (req : Request) (w : World) : Prop :=
  exists m, (runWorkflow env req w).1 = Some (Failed 401 m).

(** A backend that answers a success with an empty text and then a
    success with another text. *)
Definition emptyThenText : World :=
  worldWith [Responded (okResponse ""); Responded (okResponse "second answer")].

(** Edge lists over the nodes of [sampleRequest]: one with a cycle. *)
Definition cyclicEdges : list Edge :=
  [mkEdge "in-1" "llm-1"; mkEdge "llm-1" "out-1"; mkEdge "out-1" "in-1"].

(** * The rest of the server, its middleware and its callers *)

(** ** Directed cycles *)

(** The edges the adjacency object holds. *)
Definition edgeOf (adj : list (string * list string)) (x y : string) : Prop :=
  y ∈ default [] (JsMap.get adj x).

Definition cyclic (adj : list (string * list string)) : Prop :=
  exists x, tc (edgeOf adj) x x.

(** The edges of a submitted graph that start at one of its nodes. *)
Definition workflowEdge (ns : list Node) (es : list Edge) (s t : string) : Prop :=
  (s ∈ id <$> ns) /\ exists e, e ∈ es /\ source e = s /\ target e = t.

(** The nodes the search is done with: visited and no longer on the stack. *)
Definition finished (st : DfsState) : gset string := visited st ∖ recStack st.

(** The state of a search in which no cycle has been met: the stack is
    part of the visited set, the finished nodes only lead to finished
    nodes, and no finished node lies on a cycle. *)
Definition settled (adj : list (string * list string)) (st : DfsState) : Prop :=
  recStack st ⊆ visited st /\
  (forall y n, y ∈ finished st -> edgeOf adj y n -> n ∈ finished st) /\
  (forall y, y ∈ finished st -> ~ tc (edgeOf adj) y y).

(** ** The Gemini client in closed form *)

Definition retryableB (r : HttpResponse) : bool :=
  negb (response_ok r) && ((status r =? 429) || (500 <=? status r))%Z.

(** The number of retries a call with [n] retries left makes: the leading
    retryable responses of the script, [n] at most. *)
Fixpoint retriesTaken (n : nat) (script : list FetchOutcome) : nat :=
  match n, script with
  | S n', Responded r :: rest =>
      if retryableB r then S (retriesTaken n' rest) else 0
  | _, _ => 0
  end.

(** What the outcome of the last attempt makes of the call. *)
Definition verdict (o : option FetchOutcome) : Completion JsValue :=
  match o with
  | None => Throw "fetch failed"
  | Some (Rejected message) => Throw message
  | Some (Responded r) =>
      if response_ok r then
        match candidateText r with
        | Some t => Return t
        | None => Throw "No response generated from Gemini API"
        end
      else Throw ("Gemini API error: " +:+ or_else (errorMessage r) (statusText r))
  end.

(** ** A server at work *)

(** The requests the server handles one after the other, each with the
    time it arrives at and the environment of the process. *)
Fixpoint serveAll (w : World) (arrivals : list (Z * Env * Request)) : World :=
  match arrivals with
  | [] => w
  | (t, env, req) :: rest => serveAll (runWorkflow env req (atTime t w)).2 rest
  end.

(** What the [catch] block makes of a failure of the backend. *)
Definition geminiFailureStatus (e : string) : Z :=
  if includes e "API key" then 401
  else if includes e "Validation" then 400
  else 502.

(** ** [middleware/validation.js]: the sanitiser of strings *)

(** [str.replace(/c/g, replacement)] for a pattern of one character and a
    replacement text without [$]. *)
Fixpoint replaceChar (c : ascii) (replacement s : string) : string :=
  match s with
  | "" => ""
  | String a r =>
      (if Ascii.eqb a c then replacement else String a "")
      +:+ replaceChar c replacement r
  end.

(** [sanitizeString(str)] on a string. *)
Definition sanitizeString (str : string) : string :=
  replaceChar "/" "&#x2F;"
    (replaceChar "'" "&#x27;"
       (replaceChar dquote "&quot;"
          (replaceChar ">" "&gt;"
             (replaceChar "<" "&lt;" str)))).

(** The five characters [sanitizeString] looks for. *)
Definition isSpecial (c : ascii) : bool :=
  Ascii.eqb c "<" || Ascii.eqb c ">" || Ascii.eqb c dquote ||
  Ascii.eqb c "'" || Ascii.eqb c "/".

(** The entity of a character, the character itself when it has none. *)
Definition escapeChar (c : ascii) : string :=
  if Ascii.eqb c "<" then "&lt;"
  else if Ascii.eqb c ">" then "&gt;"
  else if Ascii.eqb c dquote then "&quot;"
  else if Ascii.eqb c "'" then "&#x27;"
  else if Ascii.eqb c "/" then "&#x2F;"
  else String c "".

(** One pass over the string, every character replaced by its entity. *)
Fixpoint escapeAll (s : string) : string :=
  match s with
  | "" => ""
  | String c r => escapeChar c +:+ escapeAll r
  end.

Definition plain (s : string) : bool :=
  string_forallb (fun c => negb (isSpecial c)) s.

(** ** The client: [callWorkflowAPI] and [handleRun] of the workflow popup *)

(** An [Error] as the client reads it. *)
Record JsError := { err_name : string; err_message : string }.

(** The JSON of a reply, as far as the client reads it. *)
Record ApiResult := {
  res_error : option string;
  res_outputs : option (list (string * string))
}.

Inductive ApiOutcome :=
| ApiRejected (e : JsError)    (* [fetch], [text()] or [json()] rejects *)
| ApiResponded (status : Z) (errorText : string) (result : ApiResult).

(** The browser: the outcomes the backend has in store, the bodies posted
    to it and the times waited. *)
Record Browser := {
  backend : list ApiOutcome;
  posted : list Request;
  waited : list Z
}.

(** How a promise is settled. *)
Inductive Settled (A : Type) :=
| Resolved (a : A)
| RejectedWith (e : JsError).
Arguments Resolved {A} a.
Arguments RejectedWith {A} e.

Definition FAILED_TO_FETCH : JsError :=
  {| err_name := "TypeError"; err_message := "Failed to fetch" |}.

(** [await fetch(apiUrl, {method: 'POST', body: JSON.stringify(workflowData)})]. *)
Definition apiFetch (workflowData : Request) (b : Browser) : ApiOutcome * Browser :=
  let b' := {| backend := tail (backend b);
               posted := posted b ++ [workflowData]; waited := waited b |} in
  match backend b with
  | [] => (ApiRejected FAILED_TO_FETCH, b')
  | o :: _ => (o, b')
  end.

Definition apiWait (ms : Z) (b : Browser) : Browser :=
  {| backend := backend b; posted := posted b; waited := waited b ++ [ms] |}.

(** The [try] block of one attempt, from the outcome of [fetch] on. *)
Definition attemptResult (o : ApiOutcome) : Settled ApiResult :=
  match o with
  | ApiRejected e => RejectedWith e
  | ApiResponded status errorText result =>
      if negb ((200 <=? status) && (status <=? 299))%Z then
        RejectedWith
          {| err_name := "Error";
             err_message := "Server error (" +:+ pretty status +:+ "): "
                            +:+ errorText |}
      else
        match res_error result with
        | Some e =>
            if truthy e then RejectedWith {| err_name := "Error"; err_message := e |}
            else Resolved result
        | None => Resolved result
        end
  end.

(** [Math.min(1000 * Math.pow(2, attempt - 1), 10000)]. *)
Definition waitTime (attempt : nat) : Z :=
  Z.min (1000 * 2 ^ (Z.of_nat attempt - 1)) 10000.

(** The loop [for (let attempt = 1; attempt <= maxRetries; attempt++)];
    [remaining] counts the iterations left, [maxRetries + 1 - attempt].
    A loop that runs out returns [undefined]. *)
Fixpoint attemptLoop (remaining attempt maxRetries : nat) (workflowData : Request)
    (b : Browser) : Settled (option ApiResult) * Browser :=
  match remaining with
  | O => (Resolved None, b)
  | S remaining' =>
      let '(o, b1) := apiFetch workflowData b in
      match attemptResult o with
      | Resolved result => (Resolved (Some result), b1)
      | RejectedWith err =>
          if bool_decide (attempt = maxRetries) then (RejectedWith err, b1)
          else attemptLoop remaining' (S attempt) maxRetries workflowData
                 (apiWait (waitTime attempt) b1)
      end
  end.

Definition callWorkflowAPI (workflowData : Request) (maxRetries : nat) (b : Browser)
    : Settled (option ApiResult) * Browser :=
  attemptLoop maxRetries 1 maxRetries workflowData b.

(** A node of the editor: what the backend reads of it and the fields of
    [data] of an LLM node. *)
Record UiNode := {
  node : Node;
  data_model : option string;
  data_system : option string;
  data_prompt : option string;
  data_apiKey : option string
}.

Definition uiOfType (t : string) (ns : list UiNode) : list UiNode :=
  List.filter (fun n => bool_decide (type (node n) = t)) ns.

(** The body [handleRun] posts.  The popup never sets its [inputs] state,
    which stays the empty object. *)
Definition workflowData (ns : list UiNode) (es : list Edge) : Request :=
  {| nodes := node <$> ns;
     edges := es;
     inputs := Some [];
     llmConfig :=
       match uiOfType "llm" ns with
       | n :: _ =>
           Some {| apiKey := Some (or_else (data_apiKey n) "");
                   model := Some (or_else (data_model n) "gemini-2.0-flash-exp");
                   system := Some (or_else (data_system n) "");
                   prompt := Some (or_else (data_prompt n) "") |}
       | [] => None
       end |}.

Definition CANNOT_CONNECT : string :=
  "Cannot connect to backend server. The server may be starting up " +:+
  "(this can take 30-60 seconds on Render free tier). " +:+
  "Please try again in a moment.".

(** The message [handleRun] shows for an error. *)
Definition errorMessageOf (err : JsError) : string :=
  if bool_decide (err_name err = "TypeError") && includes (err_message err) "fetch"
  then CANNOT_CONNECT
  else if bool_decide (err_name err = "AbortError")
  then "Request timed out. The server may be slow to respond."
  else if truthy (err_message err) then err_message err
  else "Failed to run workflow".

(** The state of the popup when [handleRun] is over. *)
Record PopupState := {
  popup_error : option string;
  popup_success : bool;
  popup_outputs : list (string * string)
}.

(** [handleRun]: the call with the default of three attempts, then the
    state.  Reading [outputs] of [undefined] throws a [TypeError]; its
    message is the one of V8. *)
Definition handleRun (ns : list UiNode) (es : list Edge) (b : Browser)
    : PopupState * Browser :=
  let '(promise, b') := callWorkflowAPI (workflowData ns es) 3 b in
  let failed err :=
    {| popup_error := Some (errorMessageOf err); popup_success := false;
       popup_outputs := [] |} in
  match promise with
  | Resolved (Some result) =>
      ({| popup_error := None; popup_success := true;
          popup_outputs := default [] (res_outputs result) |}, b')
  | Resolved None =>
      (failed {| err_name := "TypeError";
                 err_message :=
                   "Cannot read properties of undefined (reading 'outputs')" |}, b')
  | RejectedWith err => (failed err, b')
  end.

(** [handleSubmit] of the submit button: the warning it shows, or [None]
    when it opens the popup. *)
Definition handleSubmit (ns : list UiNode) : option string :=
  if bool_decide (length ns = 0) then
    Some "Please add some nodes to your pipeline first!"
  else if bool_decide (length (uiOfType "customInput" ns) = 0) then
    Some "Please add at least one Input node to your workflow!"
  else if bool_decide (length (uiOfType "customOutput" ns) = 0) then
    Some "Please add at least one Output node to your workflow!"
  else if bool_decide (length (uiOfType "llm" ns) = 0) then
    Some "Please add at least one LLM node to your workflow!"
  else None.

(** The outcome the [i]-th attempt meets. *)
Definition outcomeAt (script : list ApiOutcome) (i : nat) : ApiOutcome :=
  default (ApiRejected FAILED_TO_FETCH) (script !! i).

Definition fails (o : ApiOutcome) : Prop :=
  exists err, attemptResult o = RejectedWith err.

(** The number of attempts that fail and are followed by another one, when
    [n] more attempts are allowed after the first. *)
Fixpoint failedAttempts (n : nat) (script : list ApiOutcome) : nat :=
  match n with
  | O => 0
  | S n' =>
      match attemptResult (outcomeAt script 0) with
      | RejectedWith _ => S (failedAttempts n' (tail script))
      | Resolved _ => 0
      end
  end.

(** What [callWorkflowAPI] makes of the outcome of its last attempt. *)
Definition lastAttempt (o : ApiOutcome) : Settled (option ApiResult) :=
  match attemptResult o with
  | Resolved result => Resolved (Some result)
  | RejectedWith err => RejectedWith err
  end.

(** * Properties *)

Example replace_topic :
  replacePlaceholder "topic" "dogs" "Talk about {{topic}}" = Some "Talk about dogs".
Proof. reflexivity. Qed.

Example replace_twice :
  replacePlaceholder "x" "<$&>" "{{x}}+{{x}}" = Some "<{{x}}>+<{{x}}>".
Proof. reflexivity. Qed.

Example quote_escapes :
  quoteJSON ("a" +:+ String backslash "" +:+ newline +:+ String dquote "b") =
  "a" +:+ String backslash (String backslash "") +:+ String backslash "n" +:+
  String backslash (String dquote "b").
Proof. reflexivity. Qed.

Example cache_key_length :
  String.length (getCacheKey {| ck_model := "m"; ck_system := "s"; ck_prompt := "p" |})
  = 39.
Proof. reflexivity. Qed.

Example chain_with_back_edge :
  checkIfDAG [mkNode "A" "llm"; mkNode "B" "llm"; mkNode "C" "llm"]
             [mkEdge "A" "B"; mkEdge "B" "C"; mkEdge "C" "A"] = Return false.
Proof. vm_compute. reflexivity. Qed.

Example chain_without_back_edge :
  checkIfDAG [mkNode "A" "llm"; mkNode "B" "llm"; mkNode "C" "llm"]
             [mkEdge "A" "B"; mkEdge "B" "C"] = Return true.
Proof. vm_compute. reflexivity. Qed.

Example object_keys_order :
  objectKeys [("b", 0); ("10", 0); ("a", 0); ("2", 0); ("01", 0)] =
  ["2"; "10"; "b"; "a"; "01"].
Proof. vm_compute. reflexivity. Qed.

(** ** Facts about [Map] *)

Section JsMapFacts.
Context {V : Type}.
Implicit Types (m : list (string * V)) (k : string) (v : V).

Lemma get_set_eq m k v : JsMap.get (JsMap.set m k v) k = Some v.
Proof.
  induction m as [|[k' v'] m IH]; simpl.
  - by rewrite decide_True.
  - destruct (decide (k' = k)) as [->|Hne]; simpl.
    + by rewrite decide_True.
    + by rewrite decide_False.
Qed.

Lemma set_present m k v :
  k ∈ JsMap.keys m ->
  length (JsMap.set m k v) = length m /\ JsMap.keys (JsMap.set m k v) = JsMap.keys m.
Proof.
  unfold JsMap.keys.
  induction m as [|[k' v'] m IH]; simpl; intros Hin.
  - by apply elem_of_nil in Hin.
  - destruct (decide (k' = k)) as [->|Hne]; simpl; [done|].
    apply elem_of_cons in Hin as [?|Hin]; [congruence|].
    destruct (IH Hin) as [IH1 IH2]. split; [by rewrite IH1|].
    f_equal. exact IH2.
Qed.

Lemma set_absent m k v : k ∉ JsMap.keys m -> JsMap.set m k v = m ++ [(k, v)].
Proof.
  unfold JsMap.keys.
  induction m as [|[k' v'] m IH]; simpl; intros Hin; [done|].
  apply not_elem_of_cons in Hin as [Hne Hin].
  rewrite decide_False by congruence. by rewrite IH.
Qed.

Lemma delete_absent m k : k ∉ JsMap.keys m -> JsMap.delete m k = m.
Proof.
  unfold JsMap.keys.
  induction m as [|[k' v'] m IH]; simpl; intros Hin; [done|].
  apply not_elem_of_cons in Hin as [Hne Hin].
  rewrite decide_False by congruence. by rewrite IH.
Qed.

Lemma elem_of_keys_delete m k k' :
  k' ∈ JsMap.keys (JsMap.delete m k) <-> k' ∈ JsMap.keys m /\ k' ≠ k.
Proof.
  unfold JsMap.keys.
  induction m as [|[k0 v0] m IH]; simpl.
  - rewrite elem_of_nil. tauto.
  - destruct (decide (k0 = k)) as [->|Hne]; simpl.
    + rewrite IH, elem_of_cons. intuition congruence.
    + rewrite !elem_of_cons, IH. intuition congruence.
Qed.

Lemma get_delete_eq m k : JsMap.get (JsMap.delete m k) k = None.
Proof.
  induction m as [|[k' v'] m IH]; simpl; [done|].
  destruct (decide (k' = k)) as [->|Hne]; simpl; [done|].
  by rewrite decide_False.
Qed.

Lemma length_delete m k : length (JsMap.delete m k) <= length m.
Proof.
  induction m as [|[k' v'] m IH]; simpl; [done|].
  destruct (decide (k' = k)); simpl; lia.
Qed.

Lemma NoDup_keys_delete m k :
  NoDup (JsMap.keys m) -> NoDup (JsMap.keys (JsMap.delete m k)).
Proof.
  induction m as [|[k' v'] m IH]; simpl; [done|].
  intros [Hk Hm]%NoDup_cons.
  destruct (decide (k' = k)); simpl; [by apply IH|].
  apply NoDup_cons. split; [|by apply IH].
  intros Hin. apply elem_of_keys_delete in Hin. tauto.
Qed.

Lemma NoDup_keys_set m k v :
  NoDup (JsMap.keys m) -> NoDup (JsMap.keys (JsMap.set m k v)).
Proof.
  intros Hnd. destruct (decide (k ∈ JsMap.keys m)) as [Hin|Hin].
  - by destruct (set_present m k v Hin) as [_ ->].
  - rewrite (set_absent m k v Hin). unfold JsMap.keys in *.
    rewrite fmap_app. simpl. apply NoDup_app. split; [done|].
    split; [|apply NoDup_singleton].
    intros x Hx ->%list_elem_of_singleton. done.
Qed.

(** Deleting the first [n] keys of a map, one by one, leaves the entries
    after the first [n]. *)
Lemma delete_oldest n m :
  NoDup (JsMap.keys m) ->
  foldl (fun c k => JsMap.delete c k) m (take n (JsMap.keys m)) = drop n m.
Proof.
  revert n. induction m as [|[k v] m IH]; intros n Hnd.
  - by destruct n.
  - destruct n as [|n]; [done|].
    apply NoDup_cons in Hnd as [Hk Hm]. simpl.
    rewrite decide_True by done.
    rewrite (delete_absent m k Hk). by apply IH.
Qed.
End JsMapFacts.

(** ** The response cache *)

Lemma keys_drop {V} n (m : list (string * V)) :
  JsMap.keys (drop n m) = drop n (JsMap.keys m).
Proof. unfold JsMap.keys. by rewrite fmap_drop. Qed.

Lemma NoDup_drop_keys {V} n (m : list (string * V)) :
  NoDup (JsMap.keys m) -> NoDup (JsMap.keys (drop n m)).
Proof.
  intros Hnd. rewrite keys_drop.
  rewrite <- (take_drop n (JsMap.keys m)) in Hnd.
  by apply NoDup_app in Hnd as (_ & _ & ?).
Qed.

Lemma elem_of_drop_keys {V} n (m : list (string * V)) k :
  k ∈ JsMap.keys (drop n m) -> k ∈ JsMap.keys m.
Proof.
  rewrite keys_drop. intros Hin.
  rewrite <- (take_drop n (JsMap.keys m)). apply elem_of_app. by right.
Qed.

(** The three ways [setCache] can go on a cache with unique keys and at
    most 1000 entries. *)
Lemma setCache_cases key d now (c : list (string * CacheEntry)) :
  NoDup (JsMap.keys c) -> length c <= 1000 ->
  let e := {| data := d; timestamp := now |} in
  ((key ∈ JsMap.keys c) /\ length (JsMap.set c key e) = length c /\
   setCache key d now c = JsMap.set c key e) \/
  ((key ∉ JsMap.keys c) /\ length c < 1000 /\ JsMap.set c key e = c ++ [(key, e)] /\
   setCache key d now c = c ++ [(key, e)]) \/
  ((key ∉ JsMap.keys c) /\ length c = 1000 /\ JsMap.set c key e = c ++ [(key, e)] /\
   setCache key d now c = drop 500 c ++ [(key, e)]).
Proof.
  intros Hnd Hlen e. unfold setCache, JsMap.size. fold e.
  destruct (decide (key ∈ JsMap.keys c)) as [Hin|Hin].
  - left. destruct (set_present c key e Hin) as [Hl _].
    rewrite Hl. split; [done|]. split; [done|].
    destruct (Nat.ltb_spec 1000 (length c)); [lia|done].
  - right. pose proof (NoDup_keys_set c key e Hnd) as Hnd'.
    rewrite (set_absent c key e Hin) in *.
    rewrite length_app. change (length [(key, e)]) with 1.
    destruct (decide (length c = 1000)) as [Heq|Hne].
    + right. destruct (Nat.ltb_spec 1000 (length c + 1)); [|lia].
      rewrite (delete_oldest 500 _ Hnd').
      rewrite drop_app_le by lia. done.
    + left. destruct (Nat.ltb_spec 1000 (length c + 1)); [lia|].
      repeat split; [done|lia].
Qed.

Lemma reachable_inv c : reachable c -> NoDup (JsMap.keys c) /\ length c <= 1000.
Proof.
  induction 1 as [|key d now c _ [Hnd Hlen]|key now c _ [Hnd Hlen]].
  - split; [constructor|simpl; lia].
  - destruct (setCache_cases key d now c Hnd Hlen)
      as [(_ & Hl & ->)|[(_ & Hl & He & ->)|(Hin & Hl & He & ->)]].
    + split; [by apply NoDup_keys_set|lia].
    + rewrite <- He. split; [by apply NoDup_keys_set|].
      rewrite He, length_app. simpl. lia.
    + assert (key ∉ JsMap.keys (drop 500 c)) as Hin'
        by (intros ?%elem_of_drop_keys; done).
      rewrite <- (set_absent _ _ _ Hin').
      split; [by apply NoDup_keys_set, NoDup_drop_keys|].
      rewrite (set_absent _ _ _ Hin'), length_app, length_drop. simpl. lia.
  - unfold getFromCache.
    assert (NoDup (JsMap.keys (JsMap.delete c key)) /\
            length (JsMap.delete c key) <= 1000) as Hdel.
    { split; [by apply NoDup_keys_delete|].
      pose proof (length_delete c key). lia. }
    destruct (JsMap.get c key) as [cached|]; [|done].
    destruct (now - timestamp cached <? CACHE_TTL)%Z; done.
Qed.

Lemma get_setCache key d now c :
  reachable c ->
  JsMap.get (setCache key d now c) key = Some {| data := d; timestamp := now |}.
Proof.
  intros [Hnd Hlen]%reachable_inv.
  destruct (setCache_cases key d now c Hnd Hlen)
    as [(_ & _ & ->)|[(_ & _ & He & ->)|(Hin & _ & _ & ->)]].
  - apply get_set_eq.
  - rewrite <- He. apply get_set_eq.
  - assert (key ∉ JsMap.keys (drop 500 c)) as Hin'
      by (intros ?%elem_of_drop_keys; done).
    rewrite <- (set_absent _ _ _ Hin'). apply get_set_eq.
Qed.

Lemma filledCache_reachable n : reachable (filledCache n).
Proof. induction n; simpl; by constructor. Qed.

(** C3: on every cache state the server can be in, [setCache] does what
    the specification words as "when the entry count (the new entry
    included) exceeds 1000, evict the oldest half in insertion order, then
    insert".  When the count exceeds 1000 the cache held exactly 1000
    entries, its 500 oldest are the ones dropped and the new entry comes
    last; when the count stays at or below 1000 the result is the plain
    [Map.set] and every key is kept. *)
Theorem setCache_evicts_oldest_half key d now c :
  reachable c ->
  let e := {| data := d; timestamp := now |} in
  setCache key d now c = setCache_spec key d now c /\
  (1000 < JsMap.size (JsMap.set c key e) ->
     JsMap.size c = 1000 /\ (key ∉ JsMap.keys c) /\
     c = take 500 c ++ drop 500 c /\
     setCache key d now c = drop 500 c ++ [(key, e)]) /\
  (JsMap.size (JsMap.set c key e) <= 1000 ->
     setCache key d now c = JsMap.set c key e /\
     forall k, k ∈ JsMap.keys c -> k ∈ JsMap.keys (setCache key d now c)).
Proof.
  intros [Hnd Hlen]%reachable_inv e.
  unfold setCache_spec, evictOldestHalf, JsMap.size. fold e.
  destruct (setCache_cases key d now c Hnd Hlen)
    as [(Hin & Hl & Hs)|[(Hin & Hl & He & Hs)|(Hin & Hl & He & Hs)]];
    fold e in Hl, Hs; try fold e in He.
  - rewrite Hl. destruct (Nat.ltb_spec 1000 (length c)); [lia|].
    split; [done|]. split; [lia|]. intros _. split; [done|].
    intros k Hk. rewrite Hs. by destruct (set_present c key e Hin) as [_ ->].
  - rewrite He, length_app. change (length [(key, e)]) with 1.
    destruct (Nat.ltb_spec 1000 (length c + 1)); [lia|].
    split; [done|]. split; [lia|]. intros _. split; [done|].
    intros k Hk. rewrite Hs. unfold JsMap.keys in *.
    rewrite fmap_app. apply elem_of_app. by left.
  - rewrite He, length_app. change (length [(key, e)]) with 1.
    destruct (Nat.ltb_spec 1000 (length c + 1)); [|lia].
    assert (key ∉ JsMap.keys (drop (length c / 2) c)) as Hin'
      by (intros ?%elem_of_drop_keys; done).
    rewrite (set_absent _ _ _ Hin'), Hl.
    change (1000 / 2) with 500.
    split; [done|]. split; [|lia]. intros _.
    by rewrite take_drop.
Qed.

Lemma setCache_evicts_oldest_half_witness :
  reachable (filledCache 1000) /\
  JsMap.size (filledCache 1000) = 1000 /\
  setCache "fresh" "text" 7 (filledCache 1000) =
    drop 500 (filledCache 1000) ++ [("fresh", {| data := "text"; timestamp := 7 |})].
Proof.
  split; [apply filledCache_reachable|].
  destruct (setCache_evicts_oldest_half "fresh" "text" 7 (filledCache 1000)
              (filledCache_reachable 1000)) as (_ & Hev & _).
  assert (1000 < JsMap.size (JsMap.set (filledCache 1000) "fresh"
                               {| data := "text"; timestamp := 7 |})) as Hgt
    by (vm_compute; lia).
  destruct (Hev Hgt) as (Hsz & _ & _ & Heq). split; [exact Hsz|exact Heq].
Defined.

(** C6: on every cache state the server can be in, [getFromCache(k)] right
    after [setCache(k, v)] answers [v] and leaves the cache as it is, and so
    does any probe made before the five minutes of [CACHE_TTL] have passed;
    a probe made once they have passed answers [null] and deletes the
    entry, so that [k] is no longer among the keys of the map. *)
Theorem cache_round_trip key v now c :
  reachable c ->
  let c1 := setCache key v now c in
  CACHE_TTL = 300000%Z /\
  getFromCache key now c1 = (Some v, c1) /\
  (forall later, (later - now < CACHE_TTL)%Z ->
     getFromCache key later c1 = (Some v, c1)) /\
  (forall later, (CACHE_TTL <= later - now)%Z ->
     getFromCache key later c1 = (None, JsMap.delete c1 key) /\
     (key ∉ JsMap.keys (getFromCache key later c1).2) /\
     JsMap.get (getFromCache key later c1).2 key = None).
Proof.
  intros Hr c1. pose proof (get_setCache key v now c Hr) as Hget. fold c1 in Hget.
  assert (forall later, (later - now < CACHE_TTL)%Z ->
            getFromCache key later c1 = (Some v, c1)) as Hfresh.
  { intros later Hlt. unfold getFromCache. rewrite Hget. simpl.
    destruct (Z.ltb_spec (later - now) CACHE_TTL); [done|lia]. }
  split; [reflexivity|]. split; [apply Hfresh; unfold CACHE_TTL; lia|].
  split; [exact Hfresh|].
  intros later Hge.
  assert (getFromCache key later c1 = (None, JsMap.delete c1 key)) as ->.
  { unfold getFromCache. rewrite Hget. simpl.
    destruct (Z.ltb_spec (later - now) CACHE_TTL); [lia|done]. }
  split; [done|]. simpl. split; [|apply get_delete_eq].
  intros Hin%elem_of_keys_delete. tauto.
Qed.

Lemma cache_round_trip_witness :
  reachable (filledCache 3) /\
  getFromCache "k" 10 (setCache "k" "v" 10 (filledCache 3)) =
    (Some (Str "v"), setCache "k" "v" 10 (filledCache 3)) /\
  getFromCache "k" 300010 (setCache "k" "v" 10 (filledCache 3)) =
    (None, filledCache 3).
Proof.
  split; [apply filledCache_reachable|].
  destruct (cache_round_trip "k" "v" 10 (filledCache 3) (filledCache_reachable 3))
    as (_ & Hnow & _ & Hlate).
  split; [exact Hnow|].
  destruct (Hlate 300010%Z) as (Heq & _); [vm_compute; discriminate|].
  rewrite Heq. vm_compute. reflexivity.
Defined.

(** ** The Gemini client *)

Section GeminiFacts.
Variables (model system prompt apiKey : string).

Local Abbreviation rq := (geminiRequest model system prompt apiKey).
Local Abbreviation call retries :=
  (callGeminiAPI retries model system prompt apiKey).

Lemma retryable_test r :
  retryable r -> ((status r =? 429) || (500 <=? status r))%Z = true.
Proof.
  intros [_ [H|H]]; apply orb_true_iff.
  - left. by apply Z.eqb_eq.
  - right. by apply Z.leb_le.
Qed.

Lemma call_retry n r rest w :
  upstream w = Responded r :: rest -> retryable r ->
  call (S n) w = call n (sleep 1000 (fetch rq w).2).
Proof.
  intros Hup Hr. simpl. unfold fetch. rewrite Hup. simpl.
  destruct Hr as [Hok Hst]. rewrite Hok. simpl.
  by rewrite (retryable_test r (conj Hok Hst)).
Qed.

Lemma call_success n r t rest w :
  upstream w = Responded r :: rest -> response_ok r = true ->
  candidateText r = Some t ->
  call n w = (Return t, (fetch rq w).2).
Proof.
  intros Hup Hok Ht.
  destruct n; simpl; unfold fetch; rewrite Hup; simpl; by rewrite Hok, Ht.
Qed.

Lemma call_fatal n r rest w :
  upstream w = Responded r :: rest -> response_ok r = false ->
  status r <> 429%Z -> (status r < 500)%Z ->
  call n w =
    (Throw ("Gemini API error: " +:+ or_else (errorMessage r) (statusText r)),
     (fetch rq w).2).
Proof.
  intros Hup Hok H429 H500.
  destruct n; simpl; unfold fetch; rewrite Hup; simpl; rewrite Hok; simpl; [done|].
  destruct (Z.eqb_spec (status r) 429); [done|].
  destruct (Z.leb_spec 500 (status r)); [lia|done].
Qed.

Lemma call_exhausted r rest w :
  upstream w = Responded r :: rest -> response_ok r = false ->
  call 0 w =
    (Throw ("Gemini API error: " +:+ or_else (errorMessage r) (statusText r)),
     (fetch rq w).2).
Proof.
  intros Hup Hok. simpl. unfold fetch. rewrite Hup. simpl.
  by rewrite Hok.
Qed.

(** Whatever the backend answers, a call with [n] retries left sleeps
    [k <= n] times, one second each, and sends [k + 1] requests. *)
Lemma call_bounded n w :
  exists k, k <= n /\
    slept (call n w).2 = slept w ++ replicate k 1000%Z /\
    sent (call n w).2 = sent w ++ replicate (S k) rq /\
    clock (call n w).2 = (clock w + 1000 * Z.of_nat k)%Z /\
    cache (call n w).2 = cache w.
Proof.
  revert w. induction n as [|n IH]; intros w.
  - exists 0. split; [lia|]. simpl. unfold fetch.
    destruct (upstream w) as [|[m|r] rest]; simpl;
      [| |destruct (response_ok r); simpl; [destruct (candidateText r)|]];
      simpl; rewrite ?app_nil_r; repeat split; lia.
  - simpl. unfold fetch.
    destruct (upstream w) as [|[m|r] rest] eqn:Hup; simpl.
    1,2: exists 0; simpl; rewrite ?app_nil_r; repeat split; lia.
    destruct (response_ok r) eqn:Hok; simpl.
    { exists 0. destruct (candidateText r); simpl; rewrite ?app_nil_r;
        repeat split; lia. }
    destruct ((status r =? 429) || (500 <=? status r))%Z.
    2: { exists 0; simpl; rewrite ?app_nil_r; repeat split; lia. }
    match goal with |- context [callGeminiAPI n _ _ _ _ ?w1] =>
      destruct (IH w1) as (k & Hk & Hs & Hq & Hc & Hca) end.
    exists (S k). split; [lia|]. rewrite Hs, Hq, Hc, Hca. simpl.
    rewrite <- !app_assoc. simpl. repeat split; lia.
Qed.
End GeminiFacts.

Lemma retryableB_spec r : retryableB r = true <-> retryable r.
Proof.
  unfold retryableB, retryable.
  rewrite andb_true_iff, negb_true_iff, orb_true_iff, Z.eqb_eq, Z.leb_le. tauto.
Qed.

(** The call unrolled over the script of the backend. *)
Lemma callGeminiAPI_unrolled n model system prompt apiKey w :
  let k := retriesTaken n (upstream w) in
  callGeminiAPI n model system prompt apiKey w =
    (verdict (upstream w !! k),
     {| cache := cache w;
        clock := (clock w + 1000 * Z.of_nat k)%Z;
        upstream := drop (S k) (upstream w);
        sent := sent w ++ replicate (S k) (geminiRequest model system prompt apiKey);
        slept := slept w ++ replicate k 1000%Z |}).
Proof.
  revert w. induction n as [|n IH]; intros w.
  - simpl. unfold fetch.
    destruct (upstream w) as [|[m|r] rest]; simpl; rewrite ?app_nil_r, ?Z.add_0_r;
      try done.
    destruct (response_ok r); simpl; [by destruct (candidateText r)|done].
  - simpl. unfold fetch.
    destruct (upstream w) as [|[m|r] rest] eqn:Hup; simpl;
      rewrite ?app_nil_r, ?Z.add_0_r; try done.
    unfold retryableB.
    destruct (response_ok r) eqn:Hok; simpl; rewrite ?Hok.
    { rewrite ?app_nil_r, ?Z.add_0_r. by destruct (candidateText r). }
    destruct ((status r =? 429) || (500 <=? status r))%Z; simpl; rewrite ?Hok.
    2: { by rewrite ?app_nil_r, ?Z.add_0_r. }
    rewrite IH. simpl. f_equal. f_equal.
    + lia.
    + by rewrite <- app_assoc.
    + by rewrite <- app_assoc.
Qed.

Lemma retriesTaken_spec n (script : list FetchOutcome) :
  retriesTaken n script <= n /\
  (forall i, i < retriesTaken n script ->
     exists r, script !! i = Some (Responded r) /\ retryable r) /\
  (retriesTaken n script < n ->
     forall r, script !! retriesTaken n script = Some (Responded r) -> ~ retryable r).
Proof.
  revert script. induction n as [|n IH]; intros script.
  - simpl. split; [lia|]. split; intros; lia.
  - destruct script as [|[m|r] rest]; simpl.
    1,2: split; [lia|]; split; [intros; lia|done].
    destruct (retryableB r) eqn:Hr.
    + destruct (IH rest) as (Hle & Hlead & Hnext).
      split; [lia|]. split.
      * intros [|i] Hi; simpl.
        -- exists r. split; [done|]. by apply retryableB_spec.
        -- apply Hlead. lia.
      * intros Hlt r'. simpl. apply Hnext. lia.
    + split; [lia|]. split; [intros; lia|].
      intros _ r' [= <-] Hret%retryableB_spec. congruence.
Qed.

(** ** The adjacency object and its keys *)

Lemma get_set_ne {V} (m : list (string * V)) k k' v :
  k ≠ k' -> JsMap.get (JsMap.set m k v) k' = JsMap.get m k'.
Proof.
  intros Hne. induction m as [|[k0 v0] m IH]; simpl.
  - by rewrite decide_False.
  - destruct (decide (k0 = k)) as [->|Hk]; simpl.
    + by rewrite !decide_False.
    + destruct (decide (k0 = k')); [done|exact IH].
Qed.

Lemma get_Some_keys {V} (m : list (string * V)) k v :
  JsMap.get m k = Some v -> k ∈ JsMap.keys m /\ v ∈ m.*2.
Proof.
  unfold JsMap.keys. induction m as [|[k0 v0] m IH]; simpl; [done|].
  destruct (decide (k0 = k)) as [->|Hk].
  - intros [= ->]. split; apply elem_of_cons; by left.
  - intros [? ?]%IH. split; apply elem_of_cons; by right.
Qed.

Lemma keys_get_Some {V} (m : list (string * V)) k :
  k ∈ JsMap.keys m -> exists v, JsMap.get m k = Some v.
Proof.
  unfold JsMap.keys. induction m as [|[k0 v0] m IH]; simpl.
  - by intros ?%elem_of_nil.
  - intros Hin. destruct (decide (k0 = k)) as [->|Hk]; [by eexists|].
    apply elem_of_cons in Hin as [?|Hin]; [congruence|by apply IH].
Qed.

Lemma elem_of_keys_set {V} (m : list (string * V)) k v k' :
  k' ∈ JsMap.keys (JsMap.set m k v) <-> k' = k \/ k' ∈ JsMap.keys m.
Proof.
  destruct (decide (k ∈ JsMap.keys m)) as [Hin|Hin].
  - destruct (set_present m k v Hin) as [_ ->]. split; [by right|].
    by intros [->|?].
  - rewrite (set_absent m k v Hin). unfold JsMap.keys.
    rewrite fmap_app, elem_of_app. simpl. rewrite list_elem_of_singleton. tauto.
Qed.

Lemma addEdge_keeps adj e k ts :
  JsMap.get adj k = Some ts ->
  exists ts', JsMap.get (OnMap.addEdge adj e) k = Some (ts ++ ts').
Proof.
  intros Hget. unfold OnMap.addEdge.
  destruct (JsMap.get adj (source e)) as [targets|] eqn:Hsrc.
  - destruct (decide (source e = k)) as [Heq|Hne].
    + rewrite Heq in *. rewrite get_set_eq. exists [target e]. congruence.
    + rewrite get_set_ne by done. exists []. by rewrite app_nil_r.
  - exists []. by rewrite app_nil_r.
Qed.

Lemma addEdges_keep es adj k ts :
  JsMap.get adj k = Some ts ->
  exists ts', JsMap.get (foldl OnMap.addEdge adj es) k = Some (ts ++ ts').
Proof.
  revert adj ts. induction es as [|e es IH]; intros adj ts Hget; simpl.
  - exists []. by rewrite app_nil_r.
  - destruct (addEdge_keeps adj e k ts Hget) as [ts1 H1].
    destruct (IH _ _ H1) as [ts2 H2]. exists (ts1 ++ ts2).
    by rewrite app_assoc.
Qed.

Lemma addEdges_records es adj e :
  e ∈ es -> source e ∈ JsMap.keys adj ->
  exists ts, JsMap.get (foldl OnMap.addEdge adj es) (source e) = Some ts /\ target e ∈ ts.
Proof.
  revert adj. induction es as [|e0 es IH]; intros adj Hin Hk.
  - by apply elem_of_nil in Hin.
  - simpl. apply elem_of_cons in Hin as [<-|Hin].
    + destruct (keys_get_Some adj _ Hk) as [ts Hts].
      assert (JsMap.get (OnMap.addEdge adj e) (source e) = Some (ts ++ [target e])) as H1.
      { unfold OnMap.addEdge. rewrite Hts. apply get_set_eq. }
      destruct (addEdges_keep es _ _ _ H1) as [ts' H2].
      eexists. split; [exact H2|].
      apply elem_of_app. left. apply elem_of_app. right. by apply list_elem_of_singleton.
    + apply IH; [done|]. unfold OnMap.addEdge.
      destruct (JsMap.get adj (source e0)) as [targets|]; [|done].
      apply elem_of_keys_set. by right.
Qed.

Lemma buildAdj_eq ns es :
  OnMap.buildAdj ns es =
  foldl OnMap.addEdge (foldl (fun adj n => JsMap.set adj (id n) []) [] ns) es.
Proof. reflexivity. Qed.

Lemma initial_keys ns (acc : list (string * list string)) k :
  k ∈ JsMap.keys (foldl (fun adj n => JsMap.set adj (id n) []) acc ns) <->
  k ∈ JsMap.keys acc \/ k ∈ id <$> ns.
Proof.
  revert acc. induction ns as [|n ns IH]; intros acc; simpl.
  - rewrite elem_of_nil. tauto.
  - rewrite IH, elem_of_keys_set, elem_of_cons. tauto.
Qed.

Lemma initial_values ns (acc : list (string * list string)) :
  (forall k ts, JsMap.get acc k = Some ts -> ts = []) ->
  forall k ts,
    JsMap.get (foldl (fun adj n => JsMap.set adj (id n) []) acc ns) k = Some ts ->
    ts = [].
Proof.
  revert acc. induction ns as [|n ns IH]; intros acc Hacc; simpl; [exact Hacc|].
  apply IH. intros k ts.
  destruct (decide (id n = k)) as [<-|Hne].
  - rewrite get_set_eq. congruence.
  - rewrite get_set_ne by done. apply Hacc.
Qed.

(** A self-loop on a node of the list ends up in the adjacency object. *)
Lemma buildAdj_self_loop ns es e :
  e ∈ es -> source e = target e -> source e ∈ id <$> ns ->
  exists ts, JsMap.get (OnMap.buildAdj ns es) (source e) = Some ts /\ source e ∈ ts.
Proof.
  intros Hin Hself Hnode. rewrite buildAdj_eq.
  destruct (addEdges_records es
              (foldl (fun adj n => JsMap.set adj (id n) []) [] ns) e Hin)
    as (ts & Hts & Ht).
  - apply initial_keys. by right.
  - exists ts. split; [done|]. by rewrite Hself.
Qed.

Lemma elem_of_insertIndex k l x :
  x ∈ insertIndex k l <-> x = k \/ x ∈ l.
Proof.
  induction l as [|k' l IH]; simpl.
  - rewrite list_elem_of_singleton, elem_of_nil. tauto.
  - destruct (k.1 <=? k'.1)%N.
    + by rewrite elem_of_cons.
    + rewrite !elem_of_cons, IH. tauto.
Qed.

Lemma elem_of_sorted l x : x ∈ foldr insertIndex [] l <-> x ∈ l.
Proof.
  induction l as [|k l IH]; simpl; [done|].
  by rewrite elem_of_insertIndex, IH, elem_of_cons.
Qed.

(** [Object.keys] enumerates exactly the keys of the object. *)
Lemma elem_of_objectKeys {V} (obj : list (string * V)) k :
  k ∈ objectKeys obj <-> k ∈ JsMap.keys obj.
Proof.
  unfold objectKeys. rewrite elem_of_app, list_elem_of_fmap.
  rewrite list_elem_of_In, filter_In, <- list_elem_of_In, bool_decide_eq_true.
  split.
  - intros [([n k'] & -> & Hin)|[Hin _]]; [|done].
    apply elem_of_sorted, list_elem_of_omap in Hin as (k0 & Hk0 & Hf).
    destruct (arrayIndex k0); [|done]. by injection Hf as _ <-.
  - intros Hin. destruct (arrayIndex k) as [n|] eqn:Hidx; [left|by right].
    exists (n, k). split; [done|].
    apply elem_of_sorted, list_elem_of_omap. exists k. by rewrite Hidx.
Qed.

(** ** The depth-first search *)

Section Dfs.
Variable adj : list (string * list string).

Local Abbreviation neighbors x := (default [] (JsMap.get adj x)).

Lemma anyCycle_clean f xs st st' :
  (forall x s s', f x s = Some (false, s') -> cleanRun adj x s s') ->
  OnMap.anyCycle f xs st = Some (false, st') ->
  (forall x, x ∈ xs -> (x ∉ recStack st) /\ (x ∈ visited st')) /\
  visited st ⊆ visited st' /\ recStack st' = recStack st /\
  forall y, y ∈ visited st' -> y ∉ visited st -> y ∉ neighbors y.
Proof.
  intros Hf. revert st. induction xs as [|x xs IH]; intros st; simpl.
  - intros [= ->]. split; [by intros x ?%elem_of_nil|]. done.
  - destruct (f x st) as [[[] s1]|] eqn:Hx; [done| |done].
    intros Hrest. apply Hf in Hx as (Hx1 & Hx2 & Hx3 & Hx4 & Hx5).
    destruct (IH _ Hrest) as (H1 & H2 & H3 & H4).
    split; [|split; [set_solver|split; [congruence|]]].
    + intros y [->|Hy]%elem_of_cons.
      * split; [done|set_solver].
      * destruct (H1 y Hy) as [Hy1 Hy2]. split; [congruence|done].
    + intros y Hy Hny. destruct (decide (y ∈ visited s1)); [by apply Hx5|by apply H4].
Qed.

Lemma hasCycle_clean fuel x st st' :
  OnMap.hasCycle adj fuel x st = Some (false, st') -> cleanRun adj x st st'.
Proof.
  revert x st st'. induction fuel as [|fuel IH]; intros x st st'; simpl.
  - destruct (decide (x ∈ recStack st)); [done|].
    destruct (decide (x ∈ visited st)); [|done].
    intros [= <-]. unfold cleanRun. set_solver.
  - destruct (decide (x ∈ recStack st)) as [|Hstack]; [done|].
    destruct (decide (x ∈ visited st)) as [|Hnew].
    { intros [= <-]. unfold cleanRun. set_solver. }
    destruct (OnMap.anyCycle _ _ _) as [[[] st2]|] eqn:Hloop; [done| |done].
    intros [= <-]. simpl.
    apply (anyCycle_clean _ _ _ _ (IH)) in Hloop as (H1 & H2 & H3 & H4).
    simpl in *. unfold cleanRun. simpl.
    split; [done|]. split; [set_solver|]. split; [set_solver|].
    split; [rewrite H3; set_solver|].
    intros y Hy Hny. destruct (decide (y = x)) as [->|Hne].
    + intros Hself. destruct (H1 x Hself) as [Hx _]. set_solver.
    + apply H4; [done|set_solver].
Qed.

End Dfs.

(** *** The fuel is enough *)

Lemma anyCycle_total f xs st :
  (forall x s, x ∈ xs -> visited st ⊆ visited s ->
     exists b s', f x s = Some (b, s') /\ visited s ⊆ visited s') ->
  exists b st', OnMap.anyCycle f xs st = Some (b, st') /\ visited st ⊆ visited st'.
Proof.
  revert st. induction xs as [|x xs IH]; intros st Hf; simpl.
  - by exists false, st.
  - destruct (Hf x st) as (b & s1 & Hx & Hsub); [by left|done|].
    rewrite Hx. destruct b; [by exists true, s1|].
    destruct (IH s1) as (b & s2 & Hrest & Hsub2).
    + intros y s Hy Hs. apply Hf; [by right|set_solver].
    + exists b, s2. split; [done|set_solver].
Qed.

(** Every level of the recursion marks an identifier of [U] that was not
    visited before, so fuel above the number of unvisited identifiers is
    never used up. *)
Lemma hasCycle_total (adj : list (string * list string)) (U : gset string)
    fuel x st :
  (forall k t, t ∈ default [] (JsMap.get adj k) -> t ∈ U) ->
  x ∈ U -> size (U ∖ visited st) < fuel ->
  exists b st', OnMap.hasCycle adj fuel x st = Some (b, st') /\ visited st ⊆ visited st'.
Proof.
  intros targets_in_U.
  revert x st. induction fuel as [|fuel IH]; intros x st Hx Hfuel; [lia|].
  simpl.
  destruct (decide (x ∈ recStack st)); [by exists true, st|].
  destruct (decide (x ∈ visited st)) as [|Hnew]; [by exists false, st|].
  set (st1 := {| visited := {[x]} ∪ visited st; recStack := {[x]} ∪ recStack st |}).
  assert (size (U ∖ visited st1) < size (U ∖ visited st)) as Hless.
  { apply subset_size. simpl. set_solver. }
  destruct (anyCycle_total (OnMap.hasCycle adj fuel) (default [] (JsMap.get adj x)) st1)
    as (b & st2 & Hloop & Hsub).
  - intros y s Hy Hs. apply IH; [by apply (targets_in_U x)|].
    assert (size (U ∖ visited s) <= size (U ∖ visited st1)); [|lia].
    apply subseteq_size. set_solver.
  - rewrite Hloop. simpl in Hsub.
    destruct b; eexists _, _; (split; [reflexivity|]); simpl; set_solver.
Qed.

(** ** The check over a map *)

Lemma size_list_to_set_le (l : list string) :
  size (list_to_set l : gset string) <= length l.
Proof.
  induction l as [|x l IH].
  - rewrite list_to_set_nil, size_empty. simpl. lia.
  - rewrite list_to_set_cons, size_union_alt, size_singleton. simpl.
    assert (size (list_to_set l ∖ {[x]} : gset string) <=
            size (list_to_set l : gset string)); [|lia].
    apply subseteq_size. set_solver.
Qed.

Lemma neighbors_in_universe (adj : list (string * list string)) k t :
  t ∈ default [] (JsMap.get adj k) -> t ∈ OnMap.universe adj.
Proof.
  destruct (JsMap.get adj k) as [ts|] eqn:Hget; simpl; [|by intros ?%elem_of_nil].
  intros Ht. apply get_Some_keys in Hget as [_ Hts].
  unfold OnMap.universe. apply elem_of_app. right.
  apply list_elem_of_In, in_concat. exists ts.
  split; by apply list_elem_of_In.
Qed.

(** The search from all the keys of the adjacency object comes to an end
    within the fuel [OnMap.checkIfDAG] gives it. *)
Lemma roots_total (adj : list (string * list string)) :
  exists b st',
    OnMap.anyCycle (OnMap.hasCycle adj (S (length (OnMap.universe adj)))) (objectKeys adj)
      {| visited := ∅; recStack := ∅ |} = Some (b, st').
Proof.
  set (U := list_to_set (OnMap.universe adj) : gset string).
  destruct (anyCycle_total (OnMap.hasCycle adj (S (length (OnMap.universe adj))))
              (objectKeys adj) {| visited := ∅; recStack := ∅ |})
    as (b & st' & Hrun & _); [|by exists b, st'].
  intros x s Hx _. apply (hasCycle_total adj U).
  - intros k t Ht. apply elem_of_list_to_set. by apply (neighbors_in_universe adj k).
  - apply elem_of_list_to_set, elem_of_app. left. by apply elem_of_objectKeys.
  - assert (size (U ∖ visited s) <= size U) by (apply subseteq_size; set_solver).
    pose proof (size_list_to_set_le (OnMap.universe adj)). unfold U in *. lia.
Qed.

Lemma checkIfDAG_total ns es : is_Some (OnMap.checkIfDAG ns es).
Proof.
  unfold OnMap.checkIfDAG.
  destruct (roots_total (OnMap.buildAdj ns es)) as (b & st' & ->). by eexists.
Qed.

(** On a map, a graph with an edge from a node of the list to itself is
    reported cyclic. *)
Lemma self_loop_on_map ns es e :
  e ∈ es -> source e = target e -> source e ∈ id <$> ns ->
  OnMap.checkIfDAG ns es = Some false.
Proof.
  intros Hin Hself Hnode. unfold OnMap.checkIfDAG.
  destruct (buildAdj_self_loop ns es e Hin Hself Hnode) as (ts & Hts & Hloop).
  destruct (roots_total (OnMap.buildAdj ns es)) as (b & st' & Hrun). rewrite Hrun.
  destruct b; [done|]. exfalso.
  apply (anyCycle_clean (OnMap.buildAdj ns es)) in Hrun as (Hroots & _ & _ & Hnew);
    [|intros x s s'; apply hasCycle_clean].
  destruct (Hroots (source e)) as [_ Hvisited].
  { apply elem_of_objectKeys. by apply get_Some_keys in Hts as [? _]. }
  apply (Hnew (source e) Hvisited); [set_solver|]. by rewrite Hts.
Qed.

(** ** The retry policy *)

Lemma status_429_not_ok r : status r = 429%Z -> response_ok r = false.
Proof. unfold response_ok. by intros ->. Qed.

Lemma fetch_world rq w :
  (fetch rq w).2 =
  {| cache := cache w; clock := clock w; upstream := tail (upstream w);
     sent := sent w ++ [rq]; slept := slept w |}.
Proof. unfold fetch. by destruct (upstream w). Qed.

(** C4: [callGeminiAPI] answers a response that is not a success and has
    status 429 or at least 500 by sleeping one second and calling again
    with one retry less; started with its default of 2 retries it sleeps at
    most twice and sends at most three requests.  Two 429 responses and
    then a success give the text of the success after exactly two sleeps
    of one second; any other failure status throws at once, with no sleep
    and a single request; three retryable failures in a row throw after
    the two sleeps. *)
Theorem callGeminiAPI_retry_policy model system prompt apiKey w :
  let rq := geminiRequest model system prompt apiKey in
  let call n := callGeminiAPI n model system prompt apiKey in
  (forall n r rest,
     upstream w = Responded r :: rest -> retryable r ->
     call (S n) w = call n (sleep 1000 (fetch rq w).2)) /\
  (exists k, k <= 2 /\
     slept (call 2 w).2 = slept w ++ replicate k 1000%Z /\
     sent (call 2 w).2 = sent w ++ replicate (S k) rq) /\
  (forall r1 r2 r3 t rest,
     upstream w = Responded r1 :: Responded r2 :: Responded r3 :: rest ->
     status r1 = 429%Z -> status r2 = 429%Z ->
     response_ok r3 = true -> candidateText r3 = Some t ->
     (call 2 w).1 = Return t /\
     slept (call 2 w).2 = slept w ++ [1000; 1000]%Z /\
     clock (call 2 w).2 = (clock w + 2000)%Z /\
     sent (call 2 w).2 = sent w ++ [rq; rq; rq] /\
     upstream (call 2 w).2 = rest) /\
  (forall r rest,
     upstream w = Responded r :: rest -> response_ok r = false ->
     status r <> 429%Z -> (status r < 500)%Z ->
     (call 2 w).1 =
       Throw ("Gemini API error: " +:+ or_else (errorMessage r) (statusText r)) /\
     slept (call 2 w).2 = slept w /\
     sent (call 2 w).2 = sent w ++ [rq]) /\
  (forall r1 r2 r3 rest,
     upstream w = Responded r1 :: Responded r2 :: Responded r3 :: rest ->
     retryable r1 -> retryable r2 -> retryable r3 ->
     (call 2 w).1 =
       Throw ("Gemini API error: " +:+ or_else (errorMessage r3) (statusText r3)) /\
     slept (call 2 w).2 = slept w ++ [1000; 1000]%Z /\
     sent (call 2 w).2 = sent w ++ [rq; rq; rq]).
Proof.
  intros rq call. unfold call. split; [|split; [|split; [|split]]].
  - intros n r rest Hup Hr. by apply (call_retry _ _ _ _ n r rest).
  - destruct (call_bounded model system prompt apiKey 2 w) as (k & Hk & Hs & Hq & _).
    by exists k.
  - intros r1 r2 r3 t rest Hup H1 H2 Hok Ht.
    rewrite (call_retry _ _ _ _ 1 r1 _ w Hup)
      by (split; [by apply status_429_not_ok|by left]).
    rewrite fetch_world, Hup.
    rewrite (call_retry _ _ _ _ 0 r2 (Responded r3 :: rest))
      by (first [reflexivity | split; [by apply status_429_not_ok|by left]]).
    rewrite fetch_world.
    rewrite (call_success _ _ _ _ 0 r3 t rest) by done.
    rewrite fetch_world. simpl. rewrite <- !app_assoc. simpl.
    repeat split; try done. lia.
  - intros r rest Hup Hok H429 H500.
    rewrite (call_fatal _ _ _ _ 2 r rest w Hup Hok H429 H500), fetch_world. done.
  - intros r1 r2 r3 rest Hup H1 H2 H3.
    rewrite (call_retry _ _ _ _ 1 r1 _ w Hup H1).
    rewrite fetch_world, Hup.
    rewrite (call_retry _ _ _ _ 0 r2 (Responded r3 :: rest)) by done.
    rewrite fetch_world.
    rewrite (call_exhausted _ _ _ _ r3 rest) by (first [reflexivity|apply H3]).
    rewrite fetch_world. simpl. rewrite <- !app_assoc. done.
Qed.

Lemma callGeminiAPI_retry_policy_witness :
  (callGeminiAPI 2 "m" "s" "p" "k"
     (worldWith [Responded (failResponse 429 "Too Many Requests");
                 Responded (failResponse 429 "Too Many Requests");
                 Responded (okResponse "hello")])).1 = Return (Str "hello") /\
  slept (callGeminiAPI 2 "m" "s" "p" "k"
     (worldWith [Responded (failResponse 429 "Too Many Requests");
                 Responded (failResponse 429 "Too Many Requests");
                 Responded (okResponse "hello")])).2 = [1000; 1000]%Z.
Proof.
  destruct (callGeminiAPI_retry_policy "m" "s" "p" "k"
              (worldWith [Responded (failResponse 429 "Too Many Requests");
                          Responded (failResponse 429 "Too Many Requests");
                          Responded (okResponse "hello")]))
    as (_ & _ & Hthird & _).
  destruct (Hthird (failResponse 429 "Too Many Requests")
                   (failResponse 429 "Too Many Requests")
                   (okResponse "hello") "hello" [])
    as (Hres & Hslept & _); try reflexivity.
  split; [exact Hres|exact Hslept].
Defined.

(** ** The handler: failures found before the cache is reached *)

Lemma runWorkflow_throw env req w m :
  prepare env req = Throw m ->
  runWorkflow env req w = (Some (Failed (statusCodeOf m) m), w).
Proof. intros H. unfold runWorkflow, runWorkflowBody. by rewrite H. Qed.

Lemma prepare_no_input env req :
  ofType "customInput" (nodes req) = [] ->
  prepare env req = Throw "No input nodes found in workflow".
Proof. intros H. unfold prepare. by rewrite H. Qed.

Lemma prepare_no_output env req :
  ofType "customInput" (nodes req) <> [] ->
  ofType "customOutput" (nodes req) = [] ->
  prepare env req = Throw "No output nodes found in workflow".
Proof.
  intros Hin Hout. unfold prepare. rewrite Hout.
  destruct (ofType "customInput" (nodes req)); done.
Qed.

(** A request without input nodes, or without output nodes, is answered
    with status 500 and the world is left as it was: nothing is sent to
    the backend and the cache is not touched. *)
Lemma missing_nodes_status env req w :
  (ofType "customInput" (nodes req) = [] ->
   runWorkflow env req w =
     (Some (Failed 500 "No input nodes found in workflow"), w)) /\
  (ofType "customInput" (nodes req) <> [] ->
   ofType "customOutput" (nodes req) = [] ->
   runWorkflow env req w =
     (Some (Failed 500 "No output nodes found in workflow"), w)).
Proof.
  split.
  - intros H. by rewrite (runWorkflow_throw _ _ _ _ (prepare_no_input env req H)).
  - intros H1 H2.
    by rewrite (runWorkflow_throw _ _ _ _ (prepare_no_output env req H1 H2)).
Qed.

(** C1: at a request that passes the schema and has no input node the
    handler answers 500, not 400, and at one with no output node likewise;
    in both cases the world is unchanged, so the backend is not called.
    The [catch] block does answer 400, but only to a message that contains
    [Validation], which neither message does. *)
Theorem missing_nodes_answered_500 env w :
  runWorkflow env requestWithoutInput w =
    (Some (Failed 500 "No input nodes found in workflow"), w) /\
  runWorkflow env requestWithoutOutput w =
    (Some (Failed 500 "No output nodes found in workflow"), w) /\
  statusCodeOf "No input nodes found in workflow" <> 400%Z /\
  statusCodeOf "Validation failed" = 400%Z.
Proof.
  split; [|split; [|split]].
  - by apply missing_nodes_status.
  - by apply missing_nodes_status.
  - vm_compute. discriminate.
  - by vm_compute.
Qed.

(** ** The handler: a missing API key *)

Lemma resolveApiKey_none env req :
  cfg apiKey req = None -> GOOGLE_API_KEY env = None -> resolveApiKey env req = None.
Proof. intros H1 H2. unfold resolveApiKey. by rewrite H1, H2. Qed.

(** Without a key the handler never reaches the cache or the backend. *)
Lemma no_key_world_unchanged env req w :
  resolveApiKey env req = None -> (runWorkflow env req w).2 = w.
Proof.
  intros Hkey. unfold runWorkflow, runWorkflowBody, prepare. rewrite Hkey.
  repeat case_bool_decide; try done.
  destruct (inputs req) as [entries|]; [|done].
  destruct (substituteInputs _ _ _ _) as [[? ?]|]; done.
Qed.

(** The claim C8 fails at a request that has neither a key nor an input
    node: the check on the input nodes comes first and answers 500. *)
Lemma no_key_without_input_not_401 :
  cfg apiKey requestWithoutKeyOrInput = None /\
  GOOGLE_API_KEY noKeyEnv = None /\
  runWorkflow noKeyEnv requestWithoutKeyOrInput (worldWith []) =
    (Some (Failed 500 "No input nodes found in workflow"), worldWith []) /\
  ~ answers401 noKeyEnv requestWithoutKeyOrInput (worldWith []).
Proof.
  split; [done|]. split; [done|]. split; [by vm_compute|].
  intros [m Hm]. vm_compute in Hm. discriminate.
Qed.

(** C8, amended: a request with no key in [llmConfig] and no default key is
    never passed to the backend, whatever else is wrong with it; when it has
    an input node, an output node and an [inputs] mapping, and the
    substitution loop completes, the answer is 401 with the message about
    the missing key. *)
Theorem missing_api_key_is_401 env req w :
  cfg apiKey req = None -> GOOGLE_API_KEY env = None ->
  (runWorkflow env req w).2 = w /\
  (forall entries prompts,
     ofType "customInput" (nodes req) <> [] ->
     ofType "customOutput" (nodes req) <> [] ->
     inputs req = Some entries ->
     substituteInputs (ofType "customInput" (nodes req)) entries
       (or_else (cfg system req) DEFAULT_SYSTEM)
       (or_else (cfg prompt req) "") = Some prompts ->
     runWorkflow env req w = (Some (Failed 401 NO_API_KEY_MESSAGE), w) /\
     statusCodeOf NO_API_KEY_MESSAGE = 401%Z).
Proof.
  intros H1 H2. pose proof (resolveApiKey_none env req H1 H2) as Hkey.
  split; [by apply no_key_world_unchanged|].
  intros entries [systemPrompt userPrompt] Hin Hout Hentries Hsubst.
  split; [|by vm_compute].
  apply (runWorkflow_throw env req w NO_API_KEY_MESSAGE).
  unfold prepare. rewrite Hentries, Hsubst, Hkey.
  destruct (ofType "customInput" (nodes req)); [done|].
  destruct (ofType "customOutput" (nodes req)); done.
Qed.

Lemma missing_api_key_is_401_witness :
  runWorkflow noKeyEnv (withApiKey None sampleRequest) (worldWith []) =
    (Some (Failed 401 NO_API_KEY_MESSAGE), worldWith []).
Proof.
  destruct (missing_api_key_is_401 noKeyEnv (withApiKey None sampleRequest)
              (worldWith [])) as [_ H]; [reflexivity|reflexivity|].
  destruct (H [("in-1", "dogs")] (DEFAULT_SYSTEM, "dogs")) as [Hrun _];
    [by vm_compute|by vm_compute|reflexivity|by vm_compute|].
  exact Hrun.
Defined.

(** ** The handler and the edges *)

(** C10: the reply of [/run-workflow] and the world it leaves behind do not
    depend on the edges of the request; the same nodes with a cyclic and
    with an acyclic edge list are told apart by [/pipelines/parse] only. *)
Theorem edges_do_not_matter :
  (forall env req es1 es2 w,
     runWorkflow env (withEdges es1 req) w = runWorkflow env (withEdges es2 req) w) /\
  checkIfDAG (nodes sampleRequest) cyclicEdges = Return false /\
  checkIfDAG (nodes sampleRequest) (edges sampleRequest) = Return true /\
  pipelinesParse (Some (nodes sampleRequest)) (Some cyclicEdges) = Some (Parsed 3 3 false) /\
  pipelinesParse (Some (nodes sampleRequest)) (Some (edges sampleRequest)) =
    Some (Parsed 3 2 true).
Proof.
  split; [reflexivity|]. repeat split; by vm_compute.
Qed.

(** ** The handler and the cache *)

Lemma setWorldCache_same w : setWorldCache (cache w) w = w.
Proof. by destruct w. Qed.

Lemma getFromCache_hit key now c d :
  (getFromCache key now c).1 = Some d -> (getFromCache key now c).2 = c.
Proof.
  unfold getFromCache. destruct (JsMap.get c key) as [e|]; [|done].
  by destruct (now - timestamp e <? CACHE_TTL)%Z.
Qed.

(** The second part of the handler unrolled over the script of the
    backend. *)
Lemma respond_unrolled outputNodes p w :
  let key := cacheKeyOf p in
  let probe := getFromCache key (clock w) (cache w) in
  let k := retriesTaken 2 (upstream w) in
  let w1 :=
    {| cache := probe.2;
       clock := (clock w + 1000 * Z.of_nat k)%Z;
       upstream := drop (S k) (upstream w);
       sent := sent w ++ replicate (S k)
                 (geminiRequest (p_model p) (p_system p) (p_prompt p) (p_apiKey p));
       slept := slept w ++ replicate k 1000%Z |} in
  let succeeded t :=
    Succeeded (broadcast outputNodes t)
      {| md_model := p_model p; tokensUsed := String.length t |} in
  let stored v := setWorldCache (setCache key v (clock w1) probe.2) w1 in
  respond outputNodes p w =
    match probe.1 with
    | Some (Str (String a r)) => (Return (succeeded (String a r)), w)
    | _ =>
        match verdict (upstream w !! k) with
        | Return (Str t) => (Return (succeeded t), stored (Str t))
        | Return Undefined => (Throw NO_LENGTH_MESSAGE, stored Undefined)
        | Throw m => (Throw m, w1)
        | Unmodelled => (Unmodelled, w1)
        end
    end.
Proof.
  intros key probe k w1 succeeded stored. unfold respond. fold key.
  pose proof (getFromCache_hit key (clock w) (cache w)) as Hhit.
  subst stored w1 probe.
  destruct (getFromCache key (clock w) (cache w)) as [cached c1].
  rewrite callGeminiAPI_unrolled.
  change (upstream (setWorldCache c1 w)) with (upstream w). fold k. simpl in *.
  destruct cached as [[|[|a r]]|].
  3: { rewrite (Hhit _ eq_refl). by rewrite setWorldCache_same. }
  all: by destruct (verdict (upstream w !! k)) as [[|t]| |].
Qed.

(** The handler only touches the cache through [getFromCache] and
    [setCache]: it takes reachable cache states to reachable cache states. *)
Lemma runWorkflow_reachable env req w :
  reachable (cache w) -> reachable (cache (runWorkflow env req w).2).
Proof.
  intros Hr. unfold runWorkflow, runWorkflowBody.
  destruct (prepare env req) as [p|m|]; [|done|done].
  rewrite respond_unrolled.
  assert (reachable (getFromCache (cacheKeyOf p) (clock w) (cache w)).2) as Hr1
    by by constructor.
  destruct ((getFromCache (cacheKeyOf p) (clock w) (cache w)).1)
    as [[|[|a r]]|]; [| |done|];
    destruct (verdict (upstream w !! retriesTaken 2 (upstream w))) as [[|t]| |];
    simpl; try done; by constructor.
Qed.

(** A stored, fresh, non-empty text is answered without the backend. *)
Lemma respond_hit outputNodes p w e t :
  JsMap.get (cache w) (cacheKeyOf p) = Some e ->
  data e = Str t -> t <> "" -> (clock w - timestamp e < CACHE_TTL)%Z ->
  respond outputNodes p w =
    (Return (Succeeded (broadcast outputNodes t)
               {| md_model := p_model p; tokensUsed := String.length t |}), w).
Proof.
  intros Hget Hdata Ht Hfresh. unfold respond, getFromCache. rewrite Hget.
  destruct (Z.ltb_spec (clock w - timestamp e) CACHE_TTL); [|lia].
  rewrite setWorldCache_same, Hdata. by destruct t.
Qed.

(** A reply obtained from the backend leaves its text in the cache, stamped
    with the clock at the end of the request. *)
Lemma respond_miss outputNodes p w reply w1 :
  reachable (cache w) ->
  respond outputNodes p w = (Return reply, w1) -> sent w1 <> sent w ->
  exists t,
    reply = Succeeded (broadcast outputNodes t)
              {| md_model := p_model p; tokensUsed := String.length t |} /\
    JsMap.get (cache w1) (cacheKeyOf p) = Some {| data := t; timestamp := clock w1 |}.
Proof.
  intros Hr. rewrite respond_unrolled.
  assert (reachable (getFromCache (cacheKeyOf p) (clock w) (cache w)).2) as Hr1
    by by constructor.
  destruct ((getFromCache (cacheKeyOf p) (clock w) (cache w)).1)
    as [[|[|a r]]|].
  3: { intros [= _ <-] Hsent. done. }
  all: destruct (verdict (upstream w !! retriesTaken 2 (upstream w))) as [[|t]| |];
    try done; intros [= <- <-] _; exists t; (split; [done|]);
    simpl; by apply get_setCache.
Qed.

(** When a request succeeds through the backend with a text that is not
    empty, the same request made before the TTL has passed, with the cache
    as the first request left it, gets the same reply and nothing is sent
    to the backend. *)
Lemma repeated_request_served_from_cache env req w outs md w1 later :
  reachable (cache w) ->
  runWorkflow env req w = (Some (Succeeded outs md), w1) ->
  sent w1 <> sent w -> tokensUsed md <> 0 ->
  (later - clock w1 < CACHE_TTL)%Z ->
  runWorkflow env req (atTime later w1) =
    (Some (Succeeded outs md), atTime later w1).
Proof.
  intros Hr Hrun Hsent Htext Hlater.
  unfold runWorkflow, runWorkflowBody in *.
  destruct (prepare env req) as [p|m|]; [|done|done].
  destruct (respond _ p w) as [[reply|m|] w1'] eqn:Hresp; [|done|done].
  injection Hrun as -> ->.
  destruct (respond_miss _ p w _ w1 Hr Hresp Hsent) as (t & [= -> ->] & Hget).
  rewrite (respond_hit _ p (atTime later w1) _ t Hget eq_refl); simpl;
    [done| |lia].
  intros ->. done.
Qed.

(** A request always sends something when it finds no usable text. *)
Lemma respond_sends_on_miss outputNodes p w :
  (getFromCache (cacheKeyOf p) (clock w) (cache w)).1 = None \/
  (getFromCache (cacheKeyOf p) (clock w) (cache w)).1 = Some Undefined \/
  (getFromCache (cacheKeyOf p) (clock w) (cache w)).1 = Some (Str "") ->
  sent (respond outputNodes p w).2 <> sent w.
Proof.
  intros Hprobe. rewrite respond_unrolled.
  assert (forall k, sent w ++ replicate (S k)
            (geminiRequest (p_model p) (p_system p) (p_prompt p) (p_apiKey p))
          <> sent w) as Hgrow.
  { intros k Heq. apply (f_equal length) in Heq.
    rewrite length_app in Heq. simpl in Heq. lia. }
  destruct ((getFromCache (cacheKeyOf p) (clock w) (cache w)).1)
    as [[|[|a r]]|]; [| |by destruct Hprobe as [?|[?|?]]|];
    destruct (verdict (upstream w !! retriesTaken 2 (upstream w))) as [[|t]| |];
    apply Hgrow.
Qed.

(** When a request succeeds through the backend with the empty text, the
    same request made afterwards, with the cache as the first request left
    it, is sent to the backend again, whenever it is made. *)
Lemma empty_text_never_served_from_cache env req w outs md w1 later :
  reachable (cache w) ->
  runWorkflow env req w = (Some (Succeeded outs md), w1) ->
  sent w1 <> sent w -> tokensUsed md = 0 ->
  sent (runWorkflow env req (atTime later w1)).2 <> sent w1.
Proof.
  intros Hr Hrun Hsent Htext.
  unfold runWorkflow, runWorkflowBody in *.
  destruct (prepare env req) as [p|m|]; [|done|done].
  destruct (respond _ p w) as [[reply|m|] w1'] eqn:Hresp; [|done|done].
  injection Hrun as -> ->.
  destruct (respond_miss _ p w _ w1 Hr Hresp Hsent) as (t & [= -> ->] & Hget).
  simpl in Htext. destruct t; [|done].
  pose proof (respond_sends_on_miss (ofType "customOutput" (nodes req)) p
                (atTime later w1)) as Hsends.
  destruct (respond _ p (atTime later w1)) as [[reply|m|] w2]; simpl in *;
    apply Hsends; unfold getFromCache; rewrite Hget; simpl;
    destruct (later - clock w1 <? CACHE_TTL)%Z; auto.
Qed.

Lemma repeated_request_served_from_cache_witness :
  let first :=
    runWorkflow noKeyEnv sampleRequest (worldWith [Responded (okResponse "Woof")]) in
  first.1 = Some (Succeeded [("out-1", "Woof")]
                    {| md_model := DEFAULT_MODEL; tokensUsed := 4 |}) /\
  runWorkflow noKeyEnv sampleRequest (atTime 299999 first.2) =
    (first.1, atTime 299999 first.2).
Proof.
  split; [by vm_compute|].
  apply (repeated_request_served_from_cache noKeyEnv sampleRequest
           (worldWith [Responded (okResponse "Woof")])).
  - constructor.
  - by vm_compute.
  - by vm_compute.
  - by vm_compute.
  - by vm_compute.
Defined.

(** C2: when the backend answers the first request with a success whose
    text is empty, the text is stored and [getFromCache] finds it, but an
    identical second request made at once is sent to the backend again and
    its outputs are those of the second answer. *)
Theorem empty_text_is_fetched_again :
  let first := runWorkflow noKeyEnv sampleRequest emptyThenText in
  let second := runWorkflow noKeyEnv sampleRequest first.2 in
  first.1 = Some (Succeeded [("out-1", "")]
                    {| md_model := DEFAULT_MODEL; tokensUsed := 0 |}) /\
  getFromCache
    (getCacheKey {| ck_model := DEFAULT_MODEL; ck_system := DEFAULT_SYSTEM;
                    ck_prompt := "dogs" |}) (clock first.2) (cache first.2) =
    (Some (Str ""), cache first.2) /\
  second.1 = Some (Succeeded [("out-1", "second answer")]
                     {| md_model := DEFAULT_MODEL; tokensUsed := 13 |}) /\
  length (sent first.2) = 1 /\ length (sent second.2) = 2.
Proof. repeat split; by vm_compute. Qed.

(** ** Template substitution *)

Lemma substituteInputs_pairs inputNodes entries systemPrompt userPrompt :
  substituteInputs inputNodes entries systemPrompt userPrompt =
  substitutePairs (matchedInputs inputNodes entries) systemPrompt userPrompt.
Proof.
  revert systemPrompt userPrompt.
  induction entries as [|[nodeId value] entries IH]; intros sys user; [done|].
  unfold matchedInputs. simpl.
  destruct (List.find _ inputNodes) as [inputNode|]; simpl; [|apply IH].
  destruct (replacePlaceholder _ value sys); [|done].
  destruct (replacePlaceholder _ value user); [|done].
  apply IH.
Qed.

Lemma prefix_cons a s1 b s2 :
  String.prefix (String a s1) (String b s2) =
  if ascii_dec a b then String.prefix s1 s2 else false.
Proof. reflexivity. Qed.

Lemma prefix_empty s : String.prefix "" s = true.
Proof. by destruct s. Qed.

Lemma prefix_braces name s :
  String.prefix (placeholder name) s = true -> String.prefix "{{" s = true.
Proof.
  unfold placeholder.
  change ("{{" +:+ name +:+ "}}") with (String "{" (String "{" (name +:+ "}}"))).
  destruct s as [|c1 s]; [done|]. rewrite !prefix_cons.
  destruct (ascii_dec "{" c1); [|done].
  destruct s as [|c2 s]; [done|]. rewrite !prefix_cons.
  destruct (ascii_dec "{" c2); [|done].
  intros _. apply prefix_empty.
Qed.

Lemma includes_tail c s sub :
  includes (String c s) sub = false -> includes s sub = false.
Proof. simpl. by intros [_ ?]%orb_false_iff. Qed.

Lemma includes_no_prefix s sub :
  includes s sub = false -> String.prefix sub s = false.
Proof. destruct s; simpl; by intros [? _]%orb_false_iff. Qed.

Lemma prefix_two a b d rest :
  String.prefix (String a (String b "")) (String a (String d rest)) = false ->
  d <> b.
Proof.
  rewrite !prefix_cons, prefix_empty.
  destruct (ascii_dec a a); [|done].
  destruct (ascii_dec b d) as [->|]; [done|]. by intros _ ->.
Qed.

(** A value without replacement pattern is inserted as it stands. *)
Lemma getSubstitution_plain matched before after value :
  usesReplacementPattern value = false ->
  getSubstitution matched before after value = value.
Proof.
  unfold usesReplacementPattern. rewrite !orb_false_iff.
  induction value as [|c rest IH]; [done|].
  intros [[[H1 H2] H3] H4].
  assert (getSubstitution matched before after rest = rest) as Hrest.
  { apply IH. by rewrite !(includes_tail c rest _). }
  cbn [getSubstitution]. destruct (decide (c = "$"%char)) as [->|_];
    [|by rewrite Hrest].
  destruct rest as [|d rest']; [done|].
  apply includes_no_prefix, prefix_two in H1, H2, H3, H4.
  destruct (decide (d = "$"%char)) as [->|_]; [done|].
  destruct (decide (d = "&"%char)) as [->|_]; [done|].
  destruct (decide (d = "`"%char)) as [->|_]; [done|].
  destruct (decide (d = "'"%char)) as [->|_]; [done|].
  by rewrite Hrest.
Qed.

(** On such a value the replacement of the handler is the replacement of
    every occurrence. *)
Lemma replaceAllFrom_replaceEvery pat value before skip s :
  usesReplacementPattern value = false ->
  replaceAllFrom pat value before skip s = replaceEvery pat value skip s.
Proof.
  intros Hvalue. revert before skip.
  induction s as [|c s IH]; intros before skip; [done|].
  cbn [replaceAllFrom replaceEvery]. destruct skip as [|k]; [|apply IH].
  destruct (String.prefix pat (String c s)).
  - by rewrite getSubstitution_plain, IH.
  - by rewrite IH.
Qed.

Lemma replacePlaceholder_replaceEvery name value s :
  literalName name = true -> usesReplacementPattern value = false ->
  replacePlaceholder name value s =
  Some (replaceEvery (placeholder name) value 0 s).
Proof.
  intros Hname Hvalue. unfold replacePlaceholder. rewrite Hname.
  by rewrite replaceAllFrom_replaceEvery.
Qed.

(** A string without [{{] has no placeholder to replace. *)
Lemma replaceEvery_without_braces name value s :
  includes s "{{" = false -> replaceEvery (placeholder name) value 0 s = s.
Proof.
  induction s as [|c s IH]; intros Hs; [done|].
  cbn [replaceEvery].
  destruct (String.prefix (placeholder name) (String c s)) eqn:Hp.
  - apply prefix_braces in Hp. apply includes_no_prefix in Hs. congruence.
  - f_equal. apply IH. by apply includes_tail in Hs.
Qed.

Lemma substituteAll_without_braces pairs s :
  includes s "{{" = false -> substituteAll pairs s = s.
Proof.
  intros Hs. induction pairs as [|[name value] pairs IH]; [done|]. simpl.
  by rewrite (replaceEvery_without_braces name value s Hs).
Qed.

Lemma last_cons_default {A} (x y : A) l :
  default x (last (y :: l)) = default y (last l).
Proof.
  revert x y. induction l as [|z l IH]; intros x y; [done|].
  change (last (y :: z :: l)) with (last (z :: l)).
  by rewrite (IH x z), (IH y z).
Qed.

Lemma literalInputs_cons name value pairs :
  literalInputs ((name, value) :: pairs) = true ->
  literalName name = true /\ includes value "{{" = false /\
  usesReplacementPattern value = false /\ literalInputs pairs = true.
Proof.
  unfold literalInputs. cbn [forallb fst snd].
  rewrite !andb_true_iff, !negb_true_iff. tauto.
Qed.

(** The loop of the handler computes the prompts as specified. *)
Lemma substitutePairs_spec pairs systemPrompt userPrompt :
  literalInputs pairs = true ->
  substitutePairs pairs systemPrompt userPrompt =
  Some (substituteAll pairs systemPrompt, resolveUser_spec pairs userPrompt).
Proof.
  revert systemPrompt userPrompt.
  induction pairs as [|[name value] pairs IH]; intros sys user Hpairs.
  - unfold resolveUser_spec. simpl. by destruct (includes user "{{").
  - apply literalInputs_cons in Hpairs as (Hname & Hbraces & Hvalue & Hpairs).
    cbn [substitutePairs].
    rewrite !(replacePlaceholder_replaceEvery name value _ Hname Hvalue).
    rewrite (IH _ _ Hpairs). f_equal. f_equal.
    unfold resolveUser_spec. cbn [substituteAll].
    set (user' := replaceEvery (placeholder name) value 0 user).
    change (((name, value) :: pairs).*2) with (value :: pairs.*2).
    destruct (includes user' "{{") eqn:Huser; simpl.
    + destruct (includes (substituteAll pairs user') "{{") eqn:Hsub; [done|].
      destruct pairs as [|[name' value'] pairs]; [|done].
      simpl in Hsub. congruence.
    + rewrite !substituteAll_without_braces by done.
      rewrite Hbraces, Huser. symmetry. apply last_cons_default.
Qed.

(** The claim C7 fails in two ways.  When an input value itself contains
    [{{]: the template [T] has no placeholder, so the user prompt should be
    the latest value [w]; the handler keeps the first value instead,
    because its check after the second input sees the [{{] of the first
    value.  And when an input value contains a replacement pattern: the
    value [$&] puts the matched placeholder back, so the handler keeps the
    template [{{a}}] where the substituted template is [$&], without
    placeholder, and the user prompt should be the value [$&]. *)
Lemma user_prompt_counterexample :
  (substituteInputs twoInputs [("n1", "{{q"); ("n2", "w")] "S" "T" =
     Some ("S", "{{q") /\
   resolveUser_spec (matchedInputs twoInputs [("n1", "{{q"); ("n2", "w")]) "T" =
     "w" /\
   ~ userPromptAsSpecified twoInputs [("n1", "{{q"); ("n2", "w")] "S" "T") /\
  (substituteInputs twoInputs [("n1", "$&")] "S" "{{a}}" = Some ("S", "{{a}}") /\
   resolveUser_spec (matchedInputs twoInputs [("n1", "$&")]) "{{a}}" = "$&" /\
   ~ userPromptAsSpecified twoInputs [("n1", "$&")] "S" "{{a}}").
Proof.
  split; (split; [by vm_compute|]); (split; [by vm_compute|]);
    unfold userPromptAsSpecified; vm_compute; discriminate.
Qed.

(** C7, amended: when the logical name of every resolved input is made of
    letters, digits, [_], [-] and spaces and is not a run of digits, and no
    resolved input value contains [{{] or one of the replacement patterns
    [$$], [$&], [$`], [$'], the user prompt of the handler is the one the
    specification words: the template with every occurrence of every
    placeholder replaced by its value if that still contains [{{], and
    otherwise the value of the last entry of [inputs] that names an input
    node (the template itself when there is no such entry).  The system
    prompt is the system template with every occurrence of every
    placeholder replaced by its value. *)
Theorem user_prompt_resolution inputNodes entries systemPrompt userPrompt :
  literalInputs (matchedInputs inputNodes entries) = true ->
  userPromptAsSpecified inputNodes entries systemPrompt userPrompt /\
  fst <$> substituteInputs inputNodes entries systemPrompt userPrompt =
    Some (substituteAll (matchedInputs inputNodes entries) systemPrompt).
Proof.
  intros Hpairs. unfold userPromptAsSpecified.
  rewrite substituteInputs_pairs, (substitutePairs_spec _ _ _ Hpairs).
  by split.
Qed.

Lemma user_prompt_resolution_witness :
  substituteInputs twoInputs [("n1", "x"); ("n2", "y")] "Be {{a}}" "{{a}} and {{c}}" =
    Some ("Be x", "x and {{c}}") /\
  userPromptAsSpecified twoInputs [("n1", "x"); ("n2", "y")] "Be {{a}}" "{{a}} and {{b}}" /\
  substituteInputs twoInputs [("n1", "x"); ("n2", "y")] "Be {{a}}" "{{a}} and {{b}}" =
    Some ("Be x", "y").
Proof.
  split; [by vm_compute|]. split; [|by vm_compute].
  apply (user_prompt_resolution twoInputs [("n1", "x"); ("n2", "y")]).
  reflexivity.
Defined.

(** ** The cache key *)

Lemma append_assoc (a b c : string) : (a +:+ b) +:+ c = a +:+ (b +:+ c).
Proof.
  induction a as [|x a IH]; [done|].
  change (String x ((a +:+ b) +:+ c) = String x (a +:+ (b +:+ c))).
  by rewrite IH.
Qed.

Lemma unquote_quote c r : unquoteJSONChar (quoteJSONChar c +:+ r) = Some (c, r).
Proof.
  destruct c as [b0 b1 b2 b3 b4 b5 b6 b7].
  destruct b0, b1, b2, b3, b4, b5, b6, b7; reflexivity.
Qed.

Lemma quoteJSON_cons c x r :
  quoteJSON (String c x) +:+ r = quoteJSONChar c +:+ (quoteJSON x +:+ r).
Proof. cbn [quoteJSON]. apply append_assoc. Qed.

Lemma unquote_dquote r : unquoteJSONChar (String dquote r) = None.
Proof. reflexivity. Qed.

(** A quoted string ends at the first quote character that is not escaped. *)
Lemma quoteJSON_delimited x y r1 r2 :
  quoteJSON x +:+ String dquote r1 = quoteJSON y +:+ String dquote r2 ->
  x = y /\ r1 = r2.
Proof.
  revert y. induction x as [|c x IH]; intros [|d y]; rewrite ?quoteJSON_cons.
  - by intros [= ->].
  - change (quoteJSON "" +:+ String dquote r1) with (String dquote r1).
    intros H. apply (f_equal unquoteJSONChar) in H.
    by rewrite unquote_quote, unquote_dquote in H.
  - change (quoteJSON "" +:+ String dquote r2) with (String dquote r2).
    intros H. apply (f_equal unquoteJSONChar) in H.
    by rewrite unquote_quote, unquote_dquote in H.
  - intros H. apply (f_equal unquoteJSONChar) in H.
    rewrite !unquote_quote in H. injection H as -> H.
    by destruct (IH _ H) as [-> ->].
Qed.

Lemma jsonString_append s r :
  jsonString s +:+ r = String dquote (quoteJSON s +:+ String dquote r).
Proof.
  unfold jsonString.
  change (String dquote ((quoteJSON s +:+ String dquote "") +:+ r) =
          String dquote (quoteJSON s +:+ String dquote r)).
  by rewrite append_assoc.
Qed.

Lemma getCacheKey_shape d :
  getCacheKey d =
  ("{" +:+ jsonString "model" +:+ ":" +:+ String dquote "") +:+
  quoteJSON (ck_model d) +:+ String dquote
    (("," +:+ jsonString "system" +:+ ":" +:+ String dquote "") +:+
     quoteJSON (ck_system d) +:+ String dquote
       (("," +:+ jsonString "prompt" +:+ ":" +:+ String dquote "") +:+
        quoteJSON (ck_prompt d) +:+ String dquote "}")).
Proof.
  unfold getCacheKey. rewrite !jsonString_append. reflexivity.
Qed.

Lemma getCacheKey_inj d1 d2 : getCacheKey d1 = getCacheKey d2 -> d1 = d2.
Proof.
  rewrite !getCacheKey_shape. intros H.
  apply String.app_inj in H. apply quoteJSON_delimited in H as [Hm H].
  apply String.app_inj in H. apply quoteJSON_delimited in H as [Hs H].
  apply String.app_inj in H. apply quoteJSON_delimited in H as [Hp _].
  destruct d1, d2. simpl in *. congruence.
Qed.

(** What [prepare] hands over does not depend on where the key comes from. *)
Lemma prepare_fields env req p :
  prepare env req = Return p ->
  p_model p = or_else (cfg model req) DEFAULT_MODEL /\
  exists entries,
    inputs req = Some entries /\
    substituteInputs (ofType "customInput" (nodes req)) entries
      (or_else (cfg system req) DEFAULT_SYSTEM) (or_else (cfg prompt req) "")
    = Some (p_system p, p_prompt p).
Proof.
  unfold prepare. repeat case_bool_decide; try done.
  destruct (inputs req) as [entries|]; [|done].
  destruct (substituteInputs _ _ _ _) as [[sys user]|] eqn:Hs; [|done].
  destruct (resolveApiKey env req); [|done].
  intros [= <-]. simpl. split; [done|]. by exists entries.
Qed.

(** C5: the cache key is a function of the model, the resolved system
    prompt and the resolved user prompt and of nothing else: two prepared
    requests have the same key exactly when they agree on these three, and
    two requests that differ only in the API key (given in [llmConfig] or
    taken from the environment) are probed under the same key. *)
Theorem cache_key_ignores_api_key :
  (forall p1 p2,
     cacheKeyOf p1 = cacheKeyOf p2 <->
     p_model p1 = p_model p2 /\ p_system p1 = p_system p2 /\
     p_prompt p1 = p_prompt p2) /\
  (forall env1 env2 req k1 k2 p1 p2,
     prepare env1 (withApiKey k1 req) = Return p1 ->
     prepare env2 (withApiKey k2 req) = Return p2 ->
     cacheKeyOf p1 = cacheKeyOf p2).
Proof.
  assert (forall p1 p2,
            p_model p1 = p_model p2 /\ p_system p1 = p_system p2 /\
            p_prompt p1 = p_prompt p2 -> cacheKeyOf p1 = cacheKeyOf p2) as Hsame.
  { intros p1 p2 (Hm & Hs & Hp). unfold cacheKeyOf. by rewrite Hm, Hs, Hp. }
  split.
  - intros p1 p2. split; [|apply Hsame].
    unfold cacheKeyOf. intros H%getCacheKey_inj. by injection H.
  - intros env1 env2 req k1 k2 p1 p2 H1 H2. apply Hsame.
    apply prepare_fields in H1 as (Hm1 & e1 & Hi1 & Hs1).
    apply prepare_fields in H2 as (Hm2 & e2 & Hi2 & Hs2).
    change (inputs req = Some e1) in Hi1. change (inputs req = Some e2) in Hi2.
    change (p_model p1 = or_else (cfg model req) DEFAULT_MODEL) in Hm1.
    change (p_model p2 = or_else (cfg model req) DEFAULT_MODEL) in Hm2.
    change (substituteInputs (ofType "customInput" (nodes req)) e1
              (or_else (cfg system req) DEFAULT_SYSTEM)
              (or_else (cfg prompt req) "") = Some (p_system p1, p_prompt p1)) in Hs1.
    change (substituteInputs (ofType "customInput" (nodes req)) e2
              (or_else (cfg system req) DEFAULT_SYSTEM)
              (or_else (cfg prompt req) "") = Some (p_system p2, p_prompt p2)) in Hs2.
    rewrite Hi1 in Hi2. injection Hi2 as <-.
    rewrite Hs1 in Hs2. injection Hs2 as Hs Hp.
    split; [congruence|]. by split.
Qed.

Lemma cache_key_ignores_api_key_witness :
  exists p1 p2,
    prepare noKeyEnv (withApiKey (Some "key-of-alice") sampleRequest) = Return p1 /\
    prepare {| GOOGLE_API_KEY := Some "server-key" |}
            (withApiKey None sampleRequest) = Return p2 /\
    p_apiKey p1 <> p_apiKey p2 /\
    cacheKeyOf p1 = cacheKeyOf p2.
Proof.
  eexists _, _. split; [by vm_compute|]. split; [by vm_compute|].
  split; [by vm_compute|].
  apply (proj2 cache_key_ignores_api_key noKeyEnv
           {| GOOGLE_API_KEY := Some "server-key" |} sampleRequest
           (Some "key-of-alice") None); by vm_compute.
Defined.

(** ** The search over a map finds the cycles and nothing else *)

Section CycleDetection.
Variable adj : list (string * list string).

Lemma anyCycle_true f xs st st' :
  (forall x s s', f x s = Some (false, s') -> recStack s' = recStack s) ->
  OnMap.anyCycle f xs st = Some (true, st') ->
  exists x s, x ∈ xs /\ recStack s = recStack st /\ f x s = Some (true, st').
Proof.
  intros Hf. revert st. induction xs as [|x xs IH]; intros st; simpl; [done|].
  destruct (f x st) as [[[] s1]|] eqn:Hx; [| |done].
  - intros [= <-]. exists x, st. split; [by left|done].
  - intros Hrest. destruct (IH _ Hrest) as (y & s & Hy & Hs & Hrun).
    exists y, s. split; [by right|]. split; [|done].
    rewrite Hs. exact (Hf x st s1 Hx).
Qed.

Lemma hasCycle_keeps_stack fuel x s s' :
  OnMap.hasCycle adj fuel x s = Some (false, s') -> recStack s' = recStack s.
Proof. intros H. by apply hasCycle_clean in H as (_ & _ & _ & ? & _). Qed.

(** An answer [true] comes from a node that is reached again while it is
    on the stack, and every node on the stack leads to the node at hand. *)
Lemma hasCycle_true fuel x st st' :
  (forall y, y ∈ recStack st -> tc (edgeOf adj) y x) ->
  OnMap.hasCycle adj fuel x st = Some (true, st') -> cyclic adj.
Proof.
  revert x st st'. induction fuel as [|fuel IH]; intros x st st' Hstack; simpl.
  - destruct (decide (x ∈ recStack st)) as [Hin|_].
    { intros _. exists x. by apply Hstack. }
    by destruct (decide (x ∈ visited st)).
  - destruct (decide (x ∈ recStack st)) as [Hin|Hnot].
    { intros _. exists x. by apply Hstack. }
    destruct (decide (x ∈ visited st)) as [|Hnew]; [done|].
    destruct (OnMap.anyCycle _ _ _) as [[[] st2]|] eqn:Hloop; [|done|done].
    intros _.
    apply (anyCycle_true _ _ _ _ (hasCycle_keeps_stack fuel)) in Hloop
      as (n & s & Hn & Hs & Hrun).
    apply (IH n s st2); [|done].
    intros y Hy. rewrite Hs in Hy. simpl in Hy.
    apply elem_of_union in Hy as [->%elem_of_singleton|Hy].
    + by apply tc_once.
    + apply tc_r with x; [by apply Hstack|done].
Qed.

Lemma finished_closed st y z :
  settled adj st -> y ∈ finished st -> tc (edgeOf adj) y z -> z ∈ finished st.
Proof.
  intros (_ & Hclosed & _) Hy Hpath. induction Hpath as [y z Hyz|y n z Hyn _ IH].
  - by apply (Hclosed y).
  - apply IH. by apply (Hclosed y).
Qed.

Lemma anyCycle_settled f xs st st' :
  (forall x s s', settled adj s -> f x s = Some (false, s') ->
     settled adj s' /\ cleanRun adj x s s') ->
  settled adj st -> OnMap.anyCycle f xs st = Some (false, st') ->
  settled adj st' /\ recStack st' = recStack st /\ visited st ⊆ visited st' /\
  forall x, x ∈ xs -> x ∈ finished st'.
Proof.
  intros Hf. revert st. induction xs as [|x xs IH]; intros st Hst; simpl.
  - intros [= <-]. split; [done|]. split; [done|]. split; [done|].
    by intros x ?%elem_of_nil.
  - destruct (f x st) as [[[] s1]|] eqn:Hx; [done| |done].
    intros Hrest. destruct (Hf _ _ _ Hst Hx) as (Hs1 & Hnot & Hvis & Hsub & Hstack & _).
    destruct (IH _ Hs1 Hrest) as (Hst' & Hstack' & Hsub' & Hall).
    split; [done|]. split; [congruence|]. split; [set_solver|].
    intros y [->|Hy]%elem_of_cons; [|by apply Hall].
    unfold finished. rewrite Hstack', Hstack. set_solver.
Qed.

Lemma hasCycle_settled fuel x st st' :
  settled adj st -> OnMap.hasCycle adj fuel x st = Some (false, st') ->
  settled adj st' /\ cleanRun adj x st st'.
Proof.
  revert x st st'. induction fuel as [|fuel IH]; intros x st st' Hst Hrun;
    (split; [|by apply hasCycle_clean in Hrun]); simpl in Hrun.
  - destruct (decide (x ∈ recStack st)); [done|].
    destruct (decide (x ∈ visited st)); [|done]. by injection Hrun as <-.
  - destruct (decide (x ∈ recStack st)) as [|Hstack]; [done|].
    destruct (decide (x ∈ visited st)) as [|Hnew]; [by injection Hrun as <-|].
    destruct (OnMap.anyCycle _ _ _) as [[[] st2]|] eqn:Hloop; [done| |done].
    injection Hrun as <-.
    set (st1 := {| visited := {[x]} ∪ visited st; recStack := {[x]} ∪ recStack st |}) in *.
    assert (finished st1 = finished st) as Hsame.
    { unfold finished, st1. simpl. set_solver. }
    assert (settled adj st1) as Hst1.
    { destruct Hst as (H1 & H2 & H3). unfold settled. rewrite Hsame.
      split; [simpl; set_solver|]. by split. }
    destruct (anyCycle_settled _ _ _ _ IH Hst1 Hloop)
      as (Hst2 & Hstack2 & Hsub2 & Hnbrs).
    simpl in Hstack2.
    set (st3 := {| visited := visited st2; recStack := recStack st2 ∖ {[x]} |}).
    assert (finished st3 = {[x]} ∪ finished st2) as Hfin.
    { unfold finished, st3. simpl. rewrite Hstack2.
      assert (x ∈ visited st2) by (simpl in Hsub2; set_solver).
      apply set_eq. intros z. destruct (decide (z = x)); set_solver. }
    assert (x ∉ finished st2) as Hx2.
    { unfold finished. rewrite Hstack2. set_solver. }
    destruct Hst2 as (H1 & H2 & H3). unfold settled. rewrite Hfin.
    split; [simpl; set_solver|]. split.
    + intros y n [->%elem_of_singleton|Hy]%elem_of_union Hyn.
      * apply elem_of_union. right. by apply Hnbrs.
      * apply elem_of_union. right. by apply (H2 y).
    + intros y [->%elem_of_singleton|Hy]%elem_of_union Hcycle; [|by apply (H3 y)].
      apply Hx2. inversion Hcycle as [? ? Hxx|? n ? Hxn Hnx]; subst.
      * by apply Hnbrs.
      * apply (finished_closed st2 n x); [done|by apply Hnbrs|done].
Qed.
End CycleDetection.

Lemma edge_source_is_key adj y n : edgeOf adj y n -> y ∈ JsMap.keys adj.
Proof.
  unfold edgeOf. destruct (JsMap.get adj y) as [ts|] eqn:Hget; simpl.
  - intros _. by apply get_Some_keys in Hget as [? _].
  - by intros ?%elem_of_nil.
Qed.

Lemma settled_start adj : settled adj {| visited := ∅; recStack := ∅ |}.
Proof. unfold settled, finished. simpl. split; [done|]. split; set_solver. Qed.

(** The answer of [OnMap.checkIfDAG] in terms of the adjacency object. *)
Lemma checkIfDAG_cyclic ns es :
  (OnMap.checkIfDAG ns es = Some false /\ cyclic (OnMap.buildAdj ns es)) \/
  (OnMap.checkIfDAG ns es = Some true /\ ~ cyclic (OnMap.buildAdj ns es)).
Proof.
  unfold OnMap.checkIfDAG. set (adj := OnMap.buildAdj ns es).
  destruct (roots_total adj) as (b & st' & Hrun). rewrite Hrun.
  destruct b; simpl.
  - left. split; [done|].
    apply (anyCycle_true _ _ _ _ (hasCycle_keeps_stack adj _)) in Hrun
      as (x & s & _ & Hs & Hx).
    eapply hasCycle_true; [|exact Hx].
    intros y Hy. rewrite Hs in Hy. simpl in Hy. set_solver.
  - right. split; [done|]. intros [y Hcycle].
    apply (anyCycle_settled adj _ _ _ _ (hasCycle_settled adj _) (settled_start adj))
      in Hrun as (Hst & Hstack & _ & Hroots).
    destruct Hst as (_ & _ & Hacyclic). apply (Hacyclic y); [|done].
    apply Hroots, elem_of_objectKeys.
    inversion Hcycle as [? ? Hyy|? n ? Hyn _]; subst;
      by eapply edge_source_is_key.
Qed.

(** What the loop over the edges leaves under a key. *)
Lemma get_addEdges es adj k :
  JsMap.get (foldl OnMap.addEdge adj es) k =
  (fun ts => ts ++ (target <$> filter (fun e => source e = k) es)) <$> JsMap.get adj k.
Proof.
  revert adj. induction es as [|e es IH]; intros adj; simpl.
  - destruct (JsMap.get adj k); simpl; [|done]. by rewrite app_nil_r.
  - rewrite IH. unfold OnMap.addEdge.
    destruct (decide (source e = k)) as [Heq|Hne].
    + rewrite filter_cons_True by done. rewrite Heq.
      destruct (JsMap.get adj k) as [ts|] eqn:Hget; simpl.
      * rewrite get_set_eq. simpl. by rewrite <- app_assoc.
      * by rewrite Hget.
    + rewrite filter_cons_False by done.
      destruct (JsMap.get adj (source e)); [|done].
      by rewrite get_set_ne.
Qed.

Lemma get_initial ns k :
  JsMap.get (foldl (fun adj n => JsMap.set adj (id n) [])
               ([] : list (string * list string)) ns) k =
  if decide (k ∈ id <$> ns) then Some [] else None.
Proof.
  pose proof (initial_keys ns [] k) as Hkeys.
  assert (forall k' ts, JsMap.get ([] : list (string * list string)) k' = Some ts ->
                        ts = []) as Hnil by done.
  pose proof (initial_values ns [] Hnil) as Hvalues.
  destruct (JsMap.get _ k) as [ts|] eqn:Hget.
  - rewrite (Hvalues k ts Hget).
    apply get_Some_keys in Hget as [Hk _]. apply Hkeys in Hk as [Hk|Hk].
    + by apply elem_of_nil in Hk.
    + by rewrite decide_True.
  - destruct (decide (k ∈ id <$> ns)) as [Hin|]; [|done].
    destruct (keys_get_Some _ k (proj2 Hkeys (or_intror Hin))) as [v Hv].
    congruence.
Qed.

Lemma buildAdj_edges ns es s t :
  edgeOf (OnMap.buildAdj ns es) s t <-> workflowEdge ns es s t.
Proof.
  unfold edgeOf, workflowEdge. rewrite buildAdj_eq, get_addEdges, get_initial.
  destruct (decide (s ∈ id <$> ns)) as [Hin|Hout]; simpl.
  - rewrite list_elem_of_fmap. split.
    + intros (e & -> & [Hs He]%list_elem_of_filter). split; [done|]. by exists e.
    + intros (_ & e & He & Hs & Ht). exists e. split; [done|].
      by apply list_elem_of_filter.
  - split; [by intros ?%elem_of_nil|tauto].
Qed.

Lemma tc_iff {A} (R R' : relation A) x y :
  (forall a b, R a b <-> R' a b) -> tc R x y <-> tc R' x y.
Proof.
  intros HR. split; induction 1 as [a b H|a b c H _ IH].
  1,3: apply tc_once; by apply HR.
  all: eapply tc_l; [by apply HR|done].
Qed.

Lemma addEdge_keys adj e k :
  k ∈ JsMap.keys (OnMap.addEdge adj e) <-> k ∈ JsMap.keys adj.
Proof.
  unfold OnMap.addEdge. destruct (JsMap.get adj (source e)) as [ts|] eqn:Hget; [|done].
  rewrite elem_of_keys_set. apply get_Some_keys in Hget as [Hk _].
  split; [by intros [->|?]|by right].
Qed.

Lemma addEdges_known (ids : list string) es adj :
  (forall k, k ∈ JsMap.keys adj <-> k ∈ ids) ->
  foldl OnMap.addEdge adj es = foldl OnMap.addEdge adj (filter (fun e => source e ∈ ids) es).
Proof.
  revert adj. induction es as [|e es IH]; intros adj Hkeys; [done|]. simpl.
  destruct (decide (source e ∈ ids)) as [Hk|Hk].
  - rewrite filter_cons_True by done. simpl. apply IH.
    intros k. by rewrite addEdge_keys.
  - rewrite filter_cons_False by done.
    assert (OnMap.addEdge adj e = adj) as ->; [|by apply IH].
    unfold OnMap.addEdge. destruct (JsMap.get adj (source e)) as [ts|] eqn:Hget; [|done].
    apply get_Some_keys in Hget as [Hin _]. by apply Hkeys in Hin.
Qed.

(** ** The check over the plain object *)

Lemma proto_is_a_name : "__proto__" ∈ objectPrototypeNames.
Proof. refine (bool_decide_unpack _ _). vm_compute. exact I. Qed.

Lemma ordinaryId_spec k : ordinaryId k = true <-> k ∉ objectPrototypeNames.
Proof. unfold ordinaryId. apply bool_decide_eq_true. Qed.

Lemma ordinaryGraph_spec ns es :
  ordinaryGraph ns es = true <->
  (forall n, n ∈ ns -> id n ∉ objectPrototypeNames) /\
  (forall e, e ∈ es ->
     (source e ∉ objectPrototypeNames) /\ (target e ∉ objectPrototypeNames)).
Proof.
  unfold ordinaryGraph. rewrite andb_true_iff, !forallb_forall.
  split; intros [Hn He]; split.
  - intros n Hin%list_elem_of_In. by apply ordinaryId_spec, Hn.
  - intros e Hin%list_elem_of_In. specialize (He e Hin).
    apply andb_true_iff in He as [? ?]. by rewrite <- !ordinaryId_spec.
  - intros n Hin%list_elem_of_In. by apply ordinaryId_spec, Hn.
  - intros e Hin%list_elem_of_In. apply andb_true_iff.
    rewrite !ordinaryId_spec. by apply He.
Qed.

(** While [Object.prototype] is the prototype, an identifier that is not
    one of its names is read as in a map. *)
Lemma getProperty_ordinary adj k :
  prototype adj = None -> k ∉ objectPrototypeNames ->
  getProperty adj k =
  match JsMap.get (own adj) k with
  | Some targets => OwnArray targets
  | None => Absent
  end.
Proof.
  intros Hproto Hk. unfold getProperty. rewrite Hproto.
  destruct (decide (k = "__proto__")) as [->|_].
  { destruct Hk. apply proto_is_a_name. }
  destruct (JsMap.get (own adj) k); [done|]. by rewrite decide_False.
Qed.

Lemma getProperty_own adj k targets :
  "__proto__" ∉ JsMap.keys (own adj) ->
  JsMap.get (own adj) k = Some targets -> getProperty adj k = OwnArray targets.
Proof.
  intros Hproto Hget. unfold getProperty.
  destruct (decide (k = "__proto__")) as [->|_].
  { by apply get_Some_keys in Hget as [? _]. }
  by rewrite Hget.
Qed.

(** *** The adjacency object of a graph *)

Lemma setNodes_plain ns (acc : list (string * list string)) :
  "__proto__" ∉ id <$> ns ->
  foldl (fun adj n => setNode adj (id n)) {| own := acc; prototype := None |} ns =
  {| own := foldl (fun adj n => JsMap.set adj (id n) []) acc ns;
     prototype := None |}.
Proof.
  revert acc. induction ns as [|n ns IH]; intros acc Hproto; [done|].
  rewrite fmap_cons in Hproto. apply not_elem_of_cons in Hproto as [Hn Hns].
  simpl. unfold setNode at 2. rewrite decide_False by done. by apply IH.
Qed.

Lemma addEdges_plain es (adj : list (string * list string)) :
  "__proto__" ∉ JsMap.keys adj ->
  (forall e, e ∈ es ->
     source e ∈ JsMap.keys adj \/ source e ∉ objectPrototypeNames) ->
  addEdges {| own := adj; prototype := None |} es =
  Return {| own := foldl OnMap.addEdge adj es; prototype := None |}.
Proof.
  revert adj. induction es as [|e es IH]; intros adj Hproto Hes; [done|].
  assert (addEdge {| own := adj; prototype := None |} e =
          Return {| own := OnMap.addEdge adj e; prototype := None |}) as Hstep.
  { unfold addEdge, OnMap.addEdge.
    destruct (JsMap.get adj (source e)) as [ts|] eqn:Hget.
    - by rewrite (getProperty_own {| own := adj; prototype := None |} _ ts).
    - rewrite getProperty_ordinary; simpl; [by rewrite Hget|done|].
      destruct (Hes e) as [Hin|Hout]; [by left| |done].
      apply keys_get_Some in Hin as [ts Hts]. congruence. }
  simpl. rewrite Hstep. apply IH.
  - by rewrite addEdge_keys.
  - intros e' He'. rewrite addEdge_keys. apply Hes. by right.
Qed.

(** Without a node named [__proto__] and without an edge that leaves an
    unlisted name of [Object.prototype], the adjacency object is the map. *)
Lemma buildAdj_plain ns es :
  "__proto__" ∉ id <$> ns ->
  (forall e, e ∈ es -> source e ∈ id <$> ns \/ source e ∉ objectPrototypeNames) ->
  buildAdj ns es = Return {| own := OnMap.buildAdj ns es; prototype := None |}.
Proof.
  intros Hproto Hes. unfold buildAdj. rewrite setNodes_plain by done.
  rewrite addEdges_plain; [done| |].
  - rewrite initial_keys, elem_of_nil. tauto.
  - intros e He. rewrite initial_keys, elem_of_nil.
    destruct (Hes e He); tauto.
Qed.

(** An edge that leaves an unlisted name of [Object.prototype] stops the
    loop over the edges with a [TypeError]. *)
Lemma addEdges_throw es (adj : list (string * list string)) :
  "__proto__" ∉ JsMap.keys adj ->
  (exists e, e ∈ es /\ (source e ∉ JsMap.keys adj) /\
             source e ∈ objectPrototypeNames) ->
  addEdges {| own := adj; prototype := None |} es =
  Throw "adj[edge.source].push is not a function".
Proof.
  revert adj. induction es as [|e0 es IH]; intros adj Hproto (e & He & Hout & Hname).
  { by apply elem_of_nil in He. }
  simpl. unfold addEdge, getProperty. simpl.
  destruct (decide (source e0 = "__proto__")) as [_|Hne]; [done|].
  destruct (JsMap.get adj (source e0)) as [ts|] eqn:Hget.
  - apply get_Some_keys in Hget as [Hin _].
    apply IH.
    + rewrite elem_of_keys_set. by intros [?|?].
    + apply elem_of_cons in He as [->|He]; [done|].
      exists e. split; [done|]. split; [|done].
      rewrite elem_of_keys_set. intros [Heq|?]; [|done]. by rewrite Heq in Hout.
  - destruct (decide (source e0 ∈ objectPrototypeNames)) as [_|Hord]; [done|].
    apply IH; [done|].
    apply elem_of_cons in He as [->|He]; [done|]. by exists e.
Qed.

Lemma buildAdj_throw ns es e :
  "__proto__" ∉ id <$> ns ->
  e ∈ es -> source e ∉ id <$> ns -> source e ∈ objectPrototypeNames ->
  buildAdj ns es = Throw "adj[edge.source].push is not a function".
Proof.
  intros Hproto He Hout Hname. unfold buildAdj. rewrite setNodes_plain by done.
  apply addEdges_throw.
  - rewrite initial_keys, elem_of_nil. tauto.
  - exists e. split; [done|]. split; [|done].
    rewrite initial_keys, elem_of_nil. tauto.
Qed.

(** *** The search *)

Lemma anyCycle_ofMap f g xs st :
  (forall x s, x ∈ xs -> f x s = ofMap (g x s)) ->
  anyCycle f xs st = ofMap (OnMap.anyCycle g xs st).
Proof.
  revert st. induction xs as [|x xs IH]; intros st Hfg; [done|].
  simpl. rewrite (Hfg x st) by by left.
  destruct (g x st) as [[[] s1]|]; simpl; [done| |done].
  apply IH. intros y s Hy. apply Hfg. by right.
Qed.

Lemma hasCycle_ofMap adj fuel x st :
  prototype adj = None ->
  (forall y, y ∈ OnMap.universe (own adj) -> y ∉ objectPrototypeNames) ->
  x ∈ OnMap.universe (own adj) ->
  hasCycle adj fuel x st = ofMap (OnMap.hasCycle (own adj) fuel x st).
Proof.
  intros Hproto Hord. revert x st.
  induction fuel as [|fuel IH]; intros x st Hx; simpl.
  - by repeat destruct (decide _).
  - destruct (decide (x ∈ recStack st)); [done|].
    destruct (decide (x ∈ visited st)); [done|].
    unfold neighborsOf. rewrite (getProperty_ordinary adj x Hproto (Hord x Hx)).
    assert (forall ts, (forall t, t ∈ ts -> t ∈ OnMap.universe (own adj)) ->
              forall s,
              match anyCycle (hasCycle adj fuel) ts s with
              | Return (false, st2) =>
                  Return (false, {| visited := visited st2;
                                    recStack := recStack st2 ∖ {[x]} |})
              | r => r
              end =
              ofMap match OnMap.anyCycle (OnMap.hasCycle (own adj) fuel) ts s with
                    | Some (false, st2) =>
                        Some (false, {| visited := visited st2;
                                        recStack := recStack st2 ∖ {[x]} |})
                    | r => r
                    end) as Hloop.
    { intros ts Hts s.
      rewrite (anyCycle_ofMap _ (OnMap.hasCycle (own adj) fuel))
        by (intros y s' Hy; by apply IH, Hts).
      by destruct (OnMap.anyCycle _ _ _) as [[[] ?]|]. }
    destruct (JsMap.get (own adj) x) as [ts|] eqn:Hget; simpl.
    + apply Hloop. intros t Ht.
      apply (neighbors_in_universe (own adj) x). by rewrite Hget.
    + done.
Qed.

Lemma values_set {V} (m : list (string * list V)) k v t :
  t ∈ concat (JsMap.set m k v).*2 -> t ∈ v \/ t ∈ concat m.*2.
Proof.
  induction m as [|[k' v'] m IH]; simpl.
  - rewrite app_nil_r. by left.
  - destruct (decide (k' = k)) as [->|Hne]; simpl; rewrite !elem_of_app.
    + intros [?|?]; [by left|right; by right].
    + intros [?|Ht]; [right; by left|]. destruct (IH Ht); [by left|right; by right].
Qed.

Lemma values_addEdge adj e t :
  t ∈ concat (OnMap.addEdge adj e).*2 -> t = target e \/ t ∈ concat adj.*2.
Proof.
  unfold OnMap.addEdge. destruct (JsMap.get adj (source e)) as [ts|] eqn:Hget;
    [|by right].
  intros [Ht|Ht]%values_set; [|by right].
  apply elem_of_app in Ht as [Ht|Ht%list_elem_of_singleton]; [|by left].
  right. apply get_Some_keys in Hget as [_ Hts].
  apply list_elem_of_In, in_concat. exists ts. split; by apply list_elem_of_In.
Qed.

Lemma values_addEdges es adj t :
  t ∈ concat (foldl OnMap.addEdge adj es).*2 ->
  t ∈ target <$> es \/ t ∈ concat adj.*2.
Proof.
  revert adj. induction es as [|e es IH]; intros adj; [by right|].
  cbn [foldl]. intros [Ht|Ht]%IH.
  - left. rewrite fmap_cons. apply elem_of_cons. by right.
  - apply values_addEdge in Ht as [->|Ht]; [|by right].
    left. rewrite fmap_cons. apply elem_of_cons. by left.
Qed.

Lemma values_initial ns (acc : list (string * list string)) t :
  t ∈ concat (foldl (fun adj n => JsMap.set adj (id n) []) acc ns).*2 ->
  t ∈ concat acc.*2.
Proof.
  revert acc. induction ns as [|n ns IH]; intros acc; [done|].
  simpl. intros Ht%IH. apply values_set in Ht as [Ht|Ht]; [|done].
  by apply elem_of_nil in Ht.
Qed.

Lemma keys_addEdges es adj k :
  k ∈ JsMap.keys (foldl OnMap.addEdge adj es) <-> k ∈ JsMap.keys adj.
Proof.
  revert adj. induction es as [|e es IH]; intros adj; [done|].
  simpl. by rewrite IH, addEdge_keys.
Qed.

(** The identifiers of the map of a graph are ids of its nodes or targets
    of its edges. *)
Lemma universe_buildAdj ns es y :
  y ∈ OnMap.universe (OnMap.buildAdj ns es) ->
  y ∈ id <$> ns \/ y ∈ target <$> es.
Proof.
  unfold OnMap.universe. rewrite buildAdj_eq, elem_of_app.
  intros [Hk|Hv].
  - left. apply keys_addEdges, initial_keys in Hk as [Hk|Hk]; [|done].
    by apply elem_of_nil in Hk.
  - apply values_addEdges in Hv as [Hv|Hv]; [by right|].
    apply values_initial in Hv. by apply elem_of_nil in Hv.
Qed.

(** On a graph whose identifiers are ordinary the check is the search over
    the map. *)
Lemma checkIfDAG_ofMap ns es :
  ordinaryGraph ns es = true ->
  checkIfDAG ns es = ofMap (OnMap.checkIfDAG ns es).
Proof.
  intros [Hns Hes]%ordinaryGraph_spec.
  assert ("__proto__" ∉ id <$> ns) as Hproto.
  { intros (n & Heq & Hn)%list_elem_of_fmap.
    apply (Hns n Hn). rewrite <- Heq. apply proto_is_a_name. }
  unfold checkIfDAG, OnMap.checkIfDAG.
  rewrite buildAdj_plain; [|done|intros e He; right; by apply Hes].
  set (adj := OnMap.buildAdj ns es).
  unfold universe. cbn [own prototype]. rewrite app_nil_r.
  fold (OnMap.universe adj).
  rewrite (anyCycle_ofMap _
             (OnMap.hasCycle adj (S (length (OnMap.universe adj))))).
  - by destruct (OnMap.anyCycle _ _ _) as [[b ?]|].
  - intros x s Hx%elem_of_objectKeys.
    apply (hasCycle_ofMap {| own := adj; prototype := None |} _ x s); [done| |].
    + intros y [(n & -> & Hn)%list_elem_of_fmap|(e & -> & He)%list_elem_of_fmap]
        %universe_buildAdj; [by apply Hns|by apply Hes].
    + simpl. unfold OnMap.universe. apply elem_of_app. by left.
Qed.

(** The nodes alone: every own property is an empty array and
    [__proto__] is not among the own keys. *)
Lemma setNodes_empty ns adj :
  (forall k ts, JsMap.get (own adj) k = Some ts -> ts = []) ->
  "__proto__" ∉ JsMap.keys (own adj) ->
  (forall k ts,
     JsMap.get (own (foldl (fun adj n => setNode adj (id n)) adj ns)) k = Some ts ->
     ts = []) /\
  "__proto__" ∉ JsMap.keys (own (foldl (fun adj n => setNode adj (id n)) adj ns)).
Proof.
  revert adj. induction ns as [|n ns IH]; intros adj Hvals Hproto; [done|].
  simpl. apply IH; unfold setNode.
  - destruct (decide (id n = "__proto__")); [done|]. simpl. intros k ts.
    destruct (decide (id n = k)) as [<-|Hne].
    + rewrite get_set_eq. by intros [= <-].
    + rewrite get_set_ne by done. apply Hvals.
  - destruct (decide (id n = "__proto__")); [done|]. simpl.
    rewrite elem_of_keys_set. by intros [?|?].
Qed.

(** A graph without edges is reported acyclic, whatever its nodes are
    called. *)
Lemma checkIfDAG_no_edges ns : checkIfDAG ns [] = Return true.
Proof.
  unfold checkIfDAG, buildAdj. cbn [addEdges].
  set (adj := foldl (fun adj n => setNode adj (id n))
                {| own := []; prototype := None |} ns).
  destruct (setNodes_empty ns {| own := []; prototype := None |})
    as [Hvals Hproto]; [done|by intros ?%elem_of_nil|]. fold adj in Hvals, Hproto.
  assert (forall xs st, (forall x, x ∈ xs -> x ∈ JsMap.keys (own adj)) ->
            recStack st = ∅ ->
            exists st', anyCycle (hasCycle adj (S (length (universe adj)))) xs st
                        = Return (false, st') /\ recStack st' = ∅) as Hrun.
  { induction xs as [|x xs IH]; intros st Hxs Hst; simpl; [by exists st|].
    rewrite Hst.
    destruct (decide (x ∈ (∅ : gset string))) as [Hx|_]; [set_solver|].
    destruct (decide (x ∈ visited st)).
    { apply IH; [|done]. intros y Hy. apply Hxs. by right. }
    destruct (keys_get_Some (own adj) x) as [ts Hts]; [apply Hxs; by left|].
    unfold neighborsOf. rewrite (getProperty_own adj x ts Hproto Hts).
    rewrite (Hvals x ts Hts). simpl.
    apply IH; [|simpl; set_solver]. intros y Hy. apply Hxs. by right. }
  destruct (Hrun (objectKeys (own adj)) {| visited := ∅; recStack := ∅ |})
    as (st' & -> & _); [|done|done].
  intros x Hx. by apply elem_of_objectKeys.
Qed.

Lemma checkIfDAG_cycles ns es :
  ordinaryGraph ns es = true ->
  (checkIfDAG ns es = Return false /\ exists x, tc (workflowEdge ns es) x x) \/
  (checkIfDAG ns es = Return true /\ ~ exists x, tc (workflowEdge ns es) x x).
Proof.
  intros Hord. rewrite (checkIfDAG_ofMap ns es Hord).
  assert (cyclic (OnMap.buildAdj ns es) <-> exists x, tc (workflowEdge ns es) x x)
    as Hc.
  { unfold cyclic. split; intros [x Hx]; exists x;
      by apply (tc_iff _ _ x x (buildAdj_edges ns es)). }
  rewrite <- Hc.
  destruct (checkIfDAG_cyclic ns es) as [[-> Hyes]|[-> Hno]]; [by left|by right].
Qed.

(** C9: the claim fails at a self-loop on a node named [__proto__]: the
    assignment [adj['__proto__'] = []] makes the array the prototype of
    [adj] and creates no key, the loop over the edges pushes the target
    into that array, [Object.keys(adj)] is empty, and the graph is reported
    acyclic.  A graph without edges is reported acyclic whatever its nodes
    are called. *)
Theorem checkIfDAG_misses_self_loop_on_proto :
  (exists e, e ∈ [mkEdge "__proto__" "__proto__"] /\ source e = target e /\
             source e ∈ id <$> [mkNode "__proto__" "llm"]) /\
  buildAdj [mkNode "__proto__" "llm"] [mkEdge "__proto__" "__proto__"] =
    Return {| own := []; prototype := Some ["__proto__"] |} /\
  checkIfDAG [mkNode "__proto__" "llm"] [mkEdge "__proto__" "__proto__"] =
    Return true /\
  pipelinesParse (Some [mkNode "__proto__" "llm"])
    (Some [mkEdge "__proto__" "__proto__"]) = Some (Parsed 1 1 true) /\
  (forall ns, checkIfDAG ns [] = Return true).
Proof.
  split.
  { exists (mkEdge "__proto__" "__proto__").
    split; [by apply list_elem_of_singleton|]. split; [done|].
    by apply list_elem_of_singleton. }
  split; [by vm_compute|]. split; [by vm_compute|]. split; [by vm_compute|].
  apply checkIfDAG_no_edges.
Qed.

(** Away from the names of [Object.prototype] a self-loop on a listed
    node is reported. *)
Lemma self_loop_reported ns es e :
  ordinaryGraph ns es = true ->
  e ∈ es -> source e = target e -> source e ∈ id <$> ns ->
  checkIfDAG ns es = Return false.
Proof.
  intros Hord Hin Hself Hnode. rewrite (checkIfDAG_ofMap ns es Hord).
  by rewrite (self_loop_on_map ns es e).
Qed.

(** X1: on a graph none of whose identifiers is a name of
    [Object.prototype], [checkIfDAG] answers, and it answers [false]
    exactly when the edges that start at a listed node contain a directed
    cycle. *)
Theorem checkIfDAG_decides_cycles ns es :
  ordinaryGraph ns es = true ->
  (checkIfDAG ns es = Return false <-> exists x, tc (workflowEdge ns es) x x) /\
  (checkIfDAG ns es = Return true <-> ~ exists x, tc (workflowEdge ns es) x x).
Proof.
  intros Hord.
  destruct (checkIfDAG_cycles ns es Hord) as [[-> Hyes]|[-> Hno]];
    split; split; done.
Qed.

Lemma checkIfDAG_decides_cycles_witness :
  ordinaryGraph (nodes sampleRequest) cyclicEdges = true /\
  (checkIfDAG (nodes sampleRequest) cyclicEdges = Return false <->
   exists x, tc (workflowEdge (nodes sampleRequest) cyclicEdges) x x).
Proof.
  split; [reflexivity|].
  apply (checkIfDAG_decides_cycles (nodes sampleRequest) cyclicEdges).
  reflexivity.
Defined.

(** X2: when no node is named [__proto__], an edge whose source is not the
    id of a listed node plays no part in the check as long as that source
    is not a name of [Object.prototype]: the adjacency object, and with it
    the answer, is the one of the graph without such edges.  An edge whose
    unlisted source is such a name ends the check with a [TypeError]. *)
Theorem checkIfDAG_ignores_unknown_sources ns es :
  "__proto__" ∉ id <$> ns ->
  ((forall e, e ∈ es ->
      source e ∈ id <$> ns \/ source e ∉ objectPrototypeNames) ->
   buildAdj ns es = buildAdj ns (filter (fun e => source e ∈ id <$> ns) es) /\
   checkIfDAG ns es = checkIfDAG ns (filter (fun e => source e ∈ id <$> ns) es)) /\
  (forall e, e ∈ es -> source e ∉ id <$> ns -> source e ∈ objectPrototypeNames ->
     checkIfDAG ns es = Throw "adj[edge.source].push is not a function").
Proof.
  intros Hproto. split.
  - intros Hes.
    assert (buildAdj ns es =
            buildAdj ns (filter (fun e => source e ∈ id <$> ns) es)) as Hadj.
    { rewrite !buildAdj_plain; try done.
      - rewrite !buildAdj_eq. do 2 f_equal.
        apply (addEdges_known (id <$> ns)).
        intros k. rewrite initial_keys, elem_of_nil. tauto.
      - intros e [_ He]%list_elem_of_filter. by apply Hes. }
    split; [done|]. unfold checkIfDAG. by rewrite <- Hadj.
  - intros e He Hout Hname. unfold checkIfDAG.
    by rewrite (buildAdj_throw ns es e).
Qed.

Lemma checkIfDAG_ignores_unknown_sources_witness :
  checkIfDAG [mkNode "a" "llm"] [mkEdge "ghost" "a"; mkEdge "a" "a"] =
    checkIfDAG [mkNode "a" "llm"] [mkEdge "a" "a"] /\
  checkIfDAG [mkNode "a" "llm"] [mkEdge "constructor" "a"] =
    Throw "adj[edge.source].push is not a function".
Proof.
  assert ("__proto__" ∉ id <$> [mkNode "a" "llm"]) as Hproto.
  { intros Hin%list_elem_of_singleton. discriminate. }
  split.
  - destruct (checkIfDAG_ignores_unknown_sources [mkNode "a" "llm"]
                [mkEdge "ghost" "a"; mkEdge "a" "a"] Hproto) as [Hsame _].
    destruct Hsame as [_ Heq]; [|exact Heq].
    intros e [->|[->|Hnil]%elem_of_cons]%elem_of_cons.
    + right. refine (bool_decide_unpack _ _). vm_compute. exact I.
    + left. by apply list_elem_of_singleton.
    + by apply elem_of_nil in Hnil.
  - destruct (checkIfDAG_ignores_unknown_sources [mkNode "a" "llm"]
                [mkEdge "constructor" "a"] Hproto) as [_ Hthrow].
    apply (Hthrow (mkEdge "constructor" "a")).
    + by apply list_elem_of_singleton.
    + intros Hin%list_elem_of_singleton. discriminate.
    + refine (bool_decide_unpack _ _). vm_compute. exact I.
Defined.

(** ** More on the cache *)

Lemma get_None_keys {V} (m : list (string * V)) k :
  JsMap.get m k = None <-> k ∉ JsMap.keys m.
Proof.
  split.
  - intros Hget Hin. destruct (keys_get_Some m k Hin) as [v Hv]. congruence.
  - intros Hout. destruct (JsMap.get m k) eqn:Hget; [|done].
    by apply get_Some_keys in Hget as [? _].
Qed.

Lemma get_delete_ne {V} (m : list (string * V)) k k' :
  k ≠ k' -> JsMap.get (JsMap.delete m k) k' = JsMap.get m k'.
Proof.
  intros Hne. induction m as [|[k0 v0] m IH]; simpl; [done|].
  destruct (decide (k0 = k)) as [->|Hk]; simpl.
  - by rewrite decide_False.
  - by destruct (decide (k0 = k')).
Qed.

Lemma get_app {V} (a b : list (string * V)) k :
  JsMap.get (a ++ b) k =
  match JsMap.get a k with Some v => Some v | None => JsMap.get b k end.
Proof.
  induction a as [|[k0 v0] a IH]; simpl; [done|].
  by destruct (decide (k0 = k)).
Qed.

Lemma get_drop_late {V} n (m : list (string * V)) k :
  k ∉ take n (JsMap.keys m) -> JsMap.get (drop n m) k = JsMap.get m k.
Proof.
  intros Hout. rewrite <- (take_drop n m) at 2. rewrite get_app.
  assert (JsMap.get (take n m) k = None) as ->; [|done].
  apply get_None_keys. unfold JsMap.keys in *. by rewrite fmap_take.
Qed.

Lemma get_drop_early {V} n (m : list (string * V)) k :
  NoDup (JsMap.keys m) -> k ∈ take n (JsMap.keys m) ->
  JsMap.get (drop n m) k = None.
Proof.
  intros Hnd Hin. apply get_None_keys. rewrite keys_drop.
  rewrite <- (take_drop n (JsMap.keys m)) in Hnd.
  apply NoDup_app in Hnd as (_ & Hdisj & _). by apply Hdisj.
Qed.

(** X3: a probe of the cache gives back data only from an entry younger
    than [CACHE_TTL] and then leaves the map alone; a probe that gives
    [null] leaves the key absent.  In both cases no other key changes, no
    key is added, and the same probe made again changes nothing more. *)
Theorem getFromCache_touches_one_key key now c :
  (forall d, (getFromCache key now c).1 = Some d ->
     (getFromCache key now c).2 = c /\
     exists ts, JsMap.get c key = Some {| data := d; timestamp := ts |} /\
                (now - ts < CACHE_TTL)%Z) /\
  ((getFromCache key now c).1 = None ->
     JsMap.get (getFromCache key now c).2 key = None) /\
  (forall k, k ≠ key ->
     JsMap.get (getFromCache key now c).2 k = JsMap.get c k) /\
  (forall k, k ∈ JsMap.keys (getFromCache key now c).2 -> k ∈ JsMap.keys c) /\
  getFromCache key now (getFromCache key now c).2 = getFromCache key now c.
Proof.
  assert (getFromCache key now (JsMap.delete c key) = (None, JsMap.delete c key))
    as Hagain.
  { unfold getFromCache. rewrite get_delete_eq.
    rewrite delete_absent; [done|]. intros Hin%elem_of_keys_delete. tauto. }
  unfold getFromCache in *.
  destruct (JsMap.get c key) as [[d ts]|] eqn:Hget; simpl.
  - destruct (Z.ltb_spec (now - ts) CACHE_TTL); simpl.
    + split; [intros ? [= <-]; split; [done|]; by exists ts|].
      split; [done|]. split; [done|]. split; [done|].
      rewrite Hget. simpl. by destruct (Z.ltb_spec (now - ts) CACHE_TTL); [|lia].
    + split; [done|]. split; [intros _; apply get_delete_eq|].
      split; [intros k Hk; by apply get_delete_ne|].
      split; [intros k Hk%elem_of_keys_delete; tauto|exact Hagain].
  - split; [done|]. split; [intros _; apply get_delete_eq|].
    split; [intros k Hk; by apply get_delete_ne|].
    split; [intros k Hk%elem_of_keys_delete; tauto|exact Hagain].
Qed.

(** X4: what [setCache] does to the other keys.  While the map stays within
    1000 entries every other key keeps its entry; when the new key makes it
    1001, the keys after the first 500 keep their entries and the first
    500 keys are gone. *)
Theorem setCache_other_keys key d now c k :
  reachable c -> k ≠ key ->
  let e := {| data := d; timestamp := now |} in
  (JsMap.size (JsMap.set c key e) <= 1000 ->
     JsMap.get (setCache key d now c) k = JsMap.get c k) /\
  (1000 < JsMap.size (JsMap.set c key e) ->
     (k ∉ take 500 (JsMap.keys c) ->
        JsMap.get (setCache key d now c) k = JsMap.get c k) /\
     (k ∈ take 500 (JsMap.keys c) ->
        JsMap.get (setCache key d now c) k = None)).
Proof.
  intros [Hnd Hlen]%reachable_inv Hne e. unfold JsMap.size.
  destruct (setCache_cases key d now c Hnd Hlen)
    as [(Hin & Hl & Hs)|[(Hin & Hl & He & Hs)|(Hin & Hl & He & Hs)]];
    fold e in Hl, Hs; try fold e in He.
  - split; [|lia]. intros _. rewrite Hs. by apply get_set_ne.
  - split.
    + intros _. rewrite Hs, <- He. by apply get_set_ne.
    + rewrite He, length_app. simpl. lia.
  - split; [rewrite He, length_app; simpl; lia|]. intros _.
    rewrite Hs, get_app. simpl. rewrite decide_False by done.
    split; intros Hk.
    + rewrite (get_drop_late 500 c k Hk). by destruct (JsMap.get c k).
    + by rewrite (get_drop_early 500 c k Hnd Hk).
Qed.

Lemma elem_of_take_filled :
  "0" ∈ take 500 (JsMap.keys (filledCache 1000)).
Proof. refine (bool_decide_unpack _ _). vm_compute. exact I. Qed.

Lemma setCache_other_keys_witness :
  JsMap.get (setCache "fresh" "text" 7 (filledCache 1000)) "0" = None /\
  JsMap.get (setCache "fresh" "text" 7 (filledCache 1000)) "999" =
    JsMap.get (filledCache 1000) "999".
Proof.
  assert (1000 < JsMap.size (JsMap.set (filledCache 1000) "fresh"
                               {| data := "text"; timestamp := 7 |})) as Hfull
    by (vm_compute; lia).
  split.
  - destruct (setCache_other_keys "fresh" "text" 7 (filledCache 1000) "0"
                (filledCache_reachable 1000)) as [_ Hev]; [done|].
    destruct (Hev Hfull) as [_ Hgone]. apply Hgone, elem_of_take_filled.
  - destruct (setCache_other_keys "fresh" "text" 7 (filledCache 1000) "999"
                (filledCache_reachable 1000)) as [_ Hev]; [done|].
    destruct (Hev Hfull) as [Hkept _]. apply Hkept.
    refine (bool_decide_unpack _ _). vm_compute. exact I.
Defined.

(** X5: setting a key that is already stored keeps its place in the
    insertion order.  So an entry that has just been refreshed is still
    dropped with the 500 oldest when the next new key fills the map, and a
    probe for it finds nothing although it is younger than the TTL. *)
Theorem refreshed_entry_keeps_its_place key d now c :
  reachable c -> key ∈ JsMap.keys c ->
  JsMap.keys (setCache key d now c) = JsMap.keys c /\
  (forall key' d' now',
     JsMap.size c = 1000 -> key ∈ take 500 (JsMap.keys c) -> key' ∉ JsMap.keys c ->
     getFromCache key now' (setCache key' d' now' (setCache key d now c)) =
       (None, setCache key' d' now' (setCache key d now c))).
Proof.
  intros Hr Hin. pose proof (reachable_inv c Hr) as [Hnd Hlen].
  set (c1 := setCache key d now c).
  assert (reachable c1) as Hr1 by by constructor.
  assert (JsMap.keys c1 = JsMap.keys c /\ length c1 = length c) as [Hkeys Hlen1].
  { unfold c1.
    destruct (setCache_cases key d now c Hnd Hlen)
      as [(_ & Hl & ->)|[(Hout & _)|(Hout & _)]]; [|done|done].
    by destruct (set_present c key {| data := d; timestamp := now |} Hin) as [_ ->]. }
  split; [done|]. intros key' d' now' Hfull Hold Hnew.
  pose proof (reachable_inv c1 Hr1) as [Hnd1 Hle1].
  destruct (setCache_cases key' d' now' c1 Hnd1 Hle1)
    as [(Hin' & _)|[(_ & Hl & _)|(_ & _ & _ & Hs)]].
  - rewrite Hkeys in Hin'. done.
  - unfold JsMap.size in Hfull. lia.
  - assert (JsMap.get (setCache key' d' now' c1) key = None) as Hget.
    { rewrite Hs, get_app.
      rewrite (get_drop_early 500 c1 key Hnd1) by by rewrite Hkeys.
      simpl. rewrite decide_False; [done|]. by intros ->. }
    unfold getFromCache. rewrite Hget. f_equal.
    apply delete_absent. by apply get_None_keys.
Qed.

Lemma refreshed_entry_keeps_its_place_witness :
  getFromCache "0" 8
    (setCache "fresh" "text" 8 (setCache "0" "again" 7 (filledCache 1000))) =
  (None, setCache "fresh" "text" 8 (setCache "0" "again" 7 (filledCache 1000))).
Proof.
  assert ("0" ∈ JsMap.keys (filledCache 1000)) as Hin
    by (refine (bool_decide_unpack _ _); vm_compute; exact I).
  destruct (refreshed_entry_keeps_its_place "0" "again" 7 (filledCache 1000)
              (filledCache_reachable 1000) Hin) as [_ Hev].
  apply Hev.
  - by vm_compute.
  - exact elem_of_take_filled.
  - refine (bool_decide_unpack _ _). vm_compute. exact I.
Defined.

(** ** The Gemini client in closed form *)

(** X6: a call with [n] retries left runs over the leading retryable
    responses of the backend, [n] of them at most, sleeping one second
    after each, and is decided by the outcome that follows: a success
    whose answer has a first part returns what that part holds as [text],
    [undefined] when it holds none; a rejected fetch, a success without a
    first part and a failure that is not retryable are thrown at once, and
    so is the failure that comes when no retry is left.  It sends one
    request per outcome used and leaves the cache alone. *)
Theorem callGeminiAPI_closed_form n model system prompt apiKey w :
  exists k, k <= n /\
    (forall i, i < k ->
       exists r, upstream w !! i = Some (Responded r) /\ retryable r) /\
    (k < n -> forall r, upstream w !! k = Some (Responded r) -> ~ retryable r) /\
    (callGeminiAPI n model system prompt apiKey w).1 = verdict (upstream w !! k) /\
    cache (callGeminiAPI n model system prompt apiKey w).2 = cache w /\
    upstream (callGeminiAPI n model system prompt apiKey w).2 =
      drop (S k) (upstream w) /\
    sent (callGeminiAPI n model system prompt apiKey w).2 =
      sent w ++ replicate (S k) (geminiRequest model system prompt apiKey) /\
    slept (callGeminiAPI n model system prompt apiKey w).2 =
      slept w ++ replicate k 1000%Z.
Proof.
  exists (retriesTaken n (upstream w)).
  destruct (retriesTaken_spec n (upstream w)) as (Hle & Hlead & Hnext).
  split; [done|]. split; [done|]. split; [done|].
  by rewrite callGeminiAPI_unrolled.
Qed.

(** ** The status of a failure of the backend *)

Lemma statusCodeOf_gemini_error e :
  statusCodeOf ("Gemini API error: " +:+ e) = geminiFailureStatus e.
Proof.
  unfold statusCodeOf, geminiFailureStatus.
  assert (includes ("Gemini API error: " +:+ e) "API key" = includes e "API key")
    as -> by (cbn; reflexivity).
  assert (includes ("Gemini API error: " +:+ e) "Validation" = includes e "Validation")
    as -> by (cbn; reflexivity).
  assert (includes ("Gemini API error: " +:+ e) "Gemini API" = true)
    as -> by (cbn; reflexivity).
  reflexivity.
Qed.

Lemma verdict_throw o m :
  verdict o = Throw m ->
  (o = None /\ m = "fetch failed") \/
  o = Some (Rejected m) \/
  exists r, o = Some (Responded r) /\
    ((response_ok r = true /\ candidateText r = None /\
      m = "No response generated from Gemini API") \/
     (response_ok r = false /\
      m = "Gemini API error: " +:+ or_else (errorMessage r) (statusText r))).
Proof.
  destruct o as [[m'|r]|]; simpl.
  - intros [= ->]. by right; left.
  - intros Hv. right; right. exists r. split; [done|].
    destruct (response_ok r).
    + left. destruct (candidateText r); [done|]. by injection Hv as <-.
    + right. by injection Hv as <-.
  - intros [= <-]. by left.
Qed.

Lemma verdict_return o v :
  verdict o = Return v ->
  exists r, o = Some (Responded r) /\ response_ok r = true /\
            candidateText r = Some v.
Proof.
  destruct o as [[m'|r]|]; simpl; [done| |done].
  intros Hv. exists r. split; [done|].
  destruct (response_ok r); [|done]. split; [done|].
  destruct (candidateText r); [|done]. by injection Hv as ->.
Qed.

(** An error thrown by [respond] is the verdict on one outcome of the
    script, or comes from a success whose first part has no text. *)
Lemma respond_throw outputNodes p w m w' :
  respond outputNodes p w = (Throw m, w') ->
  (exists k, verdict (upstream w !! k) = Throw m) \/
  (m = NO_LENGTH_MESSAGE /\ exists k, verdict (upstream w !! k) = Return Undefined).
Proof.
  rewrite respond_unrolled.
  set (k := retriesTaken 2 (upstream w)).
  destruct ((getFromCache (cacheKeyOf p) (clock w) (cache w)).1)
    as [[|[|a r]]|]; [| |done|];
    destruct (verdict (upstream w !! k)) as [[|t]|m'|] eqn:Hv; try done;
    intros [= <- _]; first [left; by exists k | right; split; [done|by exists k]].
Qed.

Lemma runWorkflow_failed env req w s m w' :
  runWorkflow env req w = (Some (Failed s m), w') ->
  s = statusCodeOf m /\
  ((prepare env req = Throw m /\ w' = w) \/
   exists p, prepare env req = Return p /\
     respond (ofType "customOutput" (nodes req)) p w = (Throw m, w')).
Proof.
  unfold runWorkflow, runWorkflowBody.
  destruct (prepare env req) as [p|m'|].
  - destruct (respond _ p w) as [[reply|m'|] w2] eqn:Hresp; try done.
    + intros [= -> ->]. rewrite respond_unrolled in Hresp.
      destruct ((getFromCache (cacheKeyOf p) (clock w) (cache w)).1)
        as [[|[|a r]]|];
        try destruct (verdict (upstream w !! retriesTaken 2 (upstream w)))
          as [[|t]| |]; done.
    + intros [= <- <- <-]. split; [done|]. right. by exists p.
  - intros [= <- <- <-]. split; [done|]. by left.
  - done.
Qed.

(** X7: when a request that was passed to the backend fails, the status
    of the reply follows from the message: a failure response of the
    backend gives 502, unless the message the backend sent contains
    [API key] (then 401) or [Validation] (then 400); a success without a
    first part gives 502; a rejected fetch gives the status of its own
    message, 500 for [fetch failed]; and a success whose first part has no
    text gives 500, with the message of the [TypeError] on [length]. *)
Theorem backend_failure_status env req w s m w' :
  runWorkflow env req w = (Some (Failed s m), w') -> sent w' <> sent w ->
  (exists r, Responded r ∈ upstream w /\ response_ok r = false /\
     m = "Gemini API error: " +:+ or_else (errorMessage r) (statusText r) /\
     s = geminiFailureStatus (or_else (errorMessage r) (statusText r))) \/
  (m = "No response generated from Gemini API" /\ s = 502%Z) \/
  (Rejected m ∈ upstream w /\ s = statusCodeOf m) \/
  (m = "fetch failed" /\ s = 500%Z) \/
  (exists r, Responded r ∈ upstream w /\ response_ok r = true /\
     candidateText r = Some Undefined /\ m = NO_LENGTH_MESSAGE /\ s = 500%Z).
Proof.
  intros Hrun Hsent.
  apply runWorkflow_failed in Hrun as [-> [[_ ->]|(p & _ & Hresp)]]; [done|].
  apply respond_throw in Hresp as [[k Hv]|[-> [k Hv]]].
  - apply verdict_throw in Hv
      as [[_ ->]|[Ho|(r & Ho & [(_ & _ & ->)|(Hok & ->)])]].
    + right; right; right; left. split; [done|by vm_compute].
    + right; right; left. split; [|done]. by apply list_elem_of_lookup_2 in Ho.
    + right; left. split; [done|by vm_compute].
    + left. exists r. split; [by apply list_elem_of_lookup_2 in Ho|].
      split; [done|]. split; [done|]. apply statusCodeOf_gemini_error.
  - apply verdict_return in Hv as (r & Ho & Hok & Hc).
    right; right; right; right. exists r.
    split; [by apply list_elem_of_lookup_2 in Ho|].
    split; [done|]. split; [done|]. split; [done|by vm_compute].
Qed.

Lemma backend_failure_status_witness :
  runWorkflow noKeyEnv sampleRequest
    (worldWith [Responded {| status := 200; statusText := "OK";
                             errorMessage := None;
                             candidateText := Some Undefined |}]) =
  (Some (Failed 500 NO_LENGTH_MESSAGE),
   (runWorkflow noKeyEnv sampleRequest
      (worldWith [Responded {| status := 200; statusText := "OK";
                               errorMessage := None;
                               candidateText := Some Undefined |}])).2) /\
  exists r, response_ok r = true /\ candidateText r = Some Undefined.
Proof.
  split; [by vm_compute|].
  destruct (backend_failure_status noKeyEnv sampleRequest
              (worldWith [Responded {| status := 200; statusText := "OK";
                                       errorMessage := None;
                                       candidateText := Some Undefined |}])
              500 NO_LENGTH_MESSAGE
              (runWorkflow noKeyEnv sampleRequest
                 (worldWith [Responded {| status := 200; statusText := "OK";
                                          errorMessage := None;
                                          candidateText := Some Undefined |}])).2)
    as [(r & _ & _ & Hm & _)|[[Hm _]|[[Hin _]|[[Hm _]|(r & _ & Hok & Hc & _)]]]];
    [by vm_compute|by vm_compute| | | | |].
  - exfalso. revert Hm. generalize (or_else (errorMessage r) (statusText r)).
    intros e He. vm_compute in He. discriminate.
  - exfalso. vm_compute in Hm. discriminate.
  - exfalso. apply list_elem_of_singleton in Hin. discriminate.
  - exfalso. vm_compute in Hm. discriminate.
  - by exists r.
Defined.

(** ** What a request costs and what it leaves behind *)

Lemma getFromCache_keeps key now c k e :
  JsMap.get (getFromCache key now c).2 k = Some e -> JsMap.get c k = Some e.
Proof.
  assert (JsMap.get (JsMap.delete c key) k = Some e -> JsMap.get c k = Some e) as Hdel.
  { destruct (decide (key = k)) as [->|Hne]; [by rewrite get_delete_eq|].
    by rewrite get_delete_ne. }
  unfold getFromCache. destruct (JsMap.get c key) as [e'|]; [|done].
  by destruct (now - timestamp e' <? CACHE_TTL)%Z.
Qed.

Lemma getFromCache_length key now c :
  length (getFromCache key now c).2 <= length c.
Proof.
  pose proof (length_delete c key).
  unfold getFromCache. destruct (JsMap.get c key) as [e'|]; [|done].
  by destruct (now - timestamp e' <? CACHE_TTL)%Z.
Qed.

Lemma get_deleted {V} (ks : list string) (m : list (string * V)) k v :
  JsMap.get (foldl (fun c k' => JsMap.delete c k') m ks) k = Some v ->
  JsMap.get m k = Some v.
Proof.
  revert m. induction ks as [|k' ks IH]; intros m; [done|].
  simpl. intros Hget%IH.
  destruct (decide (k' = k)) as [->|Hne]; [by rewrite get_delete_eq in Hget|].
  by rewrite get_delete_ne in Hget.
Qed.

(** An entry found after [setCache] is the new one or was there before. *)
Lemma setCache_keeps key d now c k e :
  JsMap.get (setCache key d now c) k = Some e ->
  e = {| data := d; timestamp := now |} \/ JsMap.get c k = Some e.
Proof.
  assert (JsMap.get (JsMap.set c key {| data := d; timestamp := now |}) k = Some e ->
          e = {| data := d; timestamp := now |} \/ JsMap.get c k = Some e) as Hset.
  { destruct (decide (key = k)) as [->|Hne].
    - rewrite get_set_eq. intros [= <-]. by left.
    - rewrite get_set_ne by done. by right. }
  unfold setCache.
  destruct (1000 <? JsMap.size _)%nat; [|done].
  intros Hget. apply Hset. exact (get_deleted _ _ _ _ Hget).
Qed.

(** One request: at most two sleeps of a second, and either nothing sent
    or the same request sent once more than the handler slept. *)
Lemma runWorkflow_cost env req w :
  exists k, k <= 2 /\
    slept (runWorkflow env req w).2 = slept w ++ replicate k 1000%Z /\
    ((k = 0 /\ sent (runWorkflow env req w).2 = sent w /\
      upstream (runWorkflow env req w).2 = upstream w) \/
     exists rq,
       sent (runWorkflow env req w).2 = sent w ++ replicate (S k) rq /\
       upstream (runWorkflow env req w).2 = drop (S k) (upstream w)).
Proof.
  assert (exists k, k <= 2 /\ slept w = slept w ++ replicate k 1000%Z /\
            ((k = 0 /\ sent w = sent w /\ upstream w = upstream w) \/
             exists rq, sent w = sent w ++ replicate (S k) rq /\
                        upstream w = drop (S k) (upstream w))) as Hidle.
  { exists 0. split; [lia|]. simpl. rewrite app_nil_r. split; [done|]. by left. }
  unfold runWorkflow, runWorkflowBody.
  destruct (prepare env req) as [p|m|]; [|done|done].
  rewrite respond_unrolled. pose proof (proj1 (retriesTaken_spec 2 (upstream w))) as Hk.
  set (k := retriesTaken 2 (upstream w)) in *.
  destruct ((getFromCache (cacheKeyOf p) (clock w) (cache w)).1)
    as [[|[|a r]]|]; [| |done|];
    (exists k; split; [done|]);
    destruct (verdict (upstream w !! k)) as [[|t]| |]; simpl;
    (split; [done|]); right; by eexists.
Qed.

(** X8: a request with input names of the embedded fragment costs at
    most two sleeps of one second and at most three requests to the
    backend, all of them the same request; the handler takes one outcome
    of the backend per request sent, and none when it sends nothing.  It
    sends nothing exactly when it fails before it reaches the cache or the
    probe of the cache gives a text that is not empty. *)
Theorem request_cost env req w :
  (runWorkflow env req w).1 <> None ->
  (exists k, k <= 2 /\
     slept (runWorkflow env req w).2 = slept w ++ replicate k 1000%Z /\
     ((k = 0 /\ sent (runWorkflow env req w).2 = sent w /\
       upstream (runWorkflow env req w).2 = upstream w) \/
      exists rq,
        sent (runWorkflow env req w).2 = sent w ++ replicate (S k) rq /\
        upstream (runWorkflow env req w).2 = drop (S k) (upstream w))) /\
  (sent (runWorkflow env req w).2 = sent w <->
   forall p, prepare env req = Return p ->
     exists a r,
       (getFromCache (cacheKeyOf p) (clock w) (cache w)).1 =
         Some (Str (String a r))).
Proof.
  intros _. split; [apply runWorkflow_cost|].
  unfold runWorkflow, runWorkflowBody.
  destruct (prepare env req) as [p|m|] eqn:Hp.
  2,3: split; [by intros _ p' [=]|done].
  rewrite respond_unrolled.
  assert (forall k, sent w ++ replicate (S k)
            (geminiRequest (p_model p) (p_system p) (p_prompt p) (p_apiKey p))
          <> sent w) as Hgrow.
  { intros k Heq. apply (f_equal length) in Heq.
    rewrite length_app in Heq. simpl in Heq. lia. }
  destruct ((getFromCache (cacheKeyOf p) (clock w) (cache w)).1)
    as [[|[|a r]]|] eqn:Hprobe.
  3: { split; [|done]. intros _ p' [= <-]. rewrite Hprobe. by eexists _, _. }
  all: split;
    [ intros Hsent; exfalso;
      destruct (verdict (upstream w !! retriesTaken 2 (upstream w))) as [[|t]| |];
      by apply Hgrow in Hsent
    | intros Hhit; destruct (Hhit p eq_refl) as (a & r & Heq);
      rewrite Hprobe in Heq; done ].
Qed.

Lemma request_cost_witness :
  (runWorkflow noKeyEnv sampleRequest
     (worldWith [Responded (failResponse 503 "Unavailable");
                 Responded (okResponse "Woof")])).1 <> None /\
  exists k, k <= 2 /\
    slept (runWorkflow noKeyEnv sampleRequest
             (worldWith [Responded (failResponse 503 "Unavailable");
                         Responded (okResponse "Woof")])).2 =
      [] ++ replicate k 1000%Z.
Proof.
  assert ((runWorkflow noKeyEnv sampleRequest
             (worldWith [Responded (failResponse 503 "Unavailable");
                         Responded (okResponse "Woof")])).1 <> None) as Hin
    by (vm_compute; discriminate).
  split; [exact Hin|].
  destruct (request_cost noKeyEnv sampleRequest
              (worldWith [Responded (failResponse 503 "Unavailable");
                          Responded (okResponse "Woof")]) Hin)
    as [(k & Hk & Hslept & _) _].
  exists k. split; [exact Hk|exact Hslept].
Defined.

(** X9: what a request that fails leaves in the cache.  Every entry found
    afterwards was there before, or holds [undefined]: the handler stores
    what [callGeminiAPI] returned before it reads its [length], so a
    success whose first part has no text is answered with a failure and
    leaves an entry behind.  Unless the failure is that [TypeError] the
    cache has not grown, and when nothing was sent to the backend the
    server is as it was. *)
Theorem failed_request_and_the_cache env req w s m w' :
  runWorkflow env req w = (Some (Failed s m), w') ->
  (forall k e, JsMap.get (cache w') k = Some e ->
     JsMap.get (cache w) k = Some e \/
     (e = {| data := Undefined; timestamp := clock w' |} /\
      m = NO_LENGTH_MESSAGE /\ s = 500%Z)) /\
  (m <> NO_LENGTH_MESSAGE -> length (cache w') <= length (cache w)) /\
  (sent w' = sent w -> w' = w).
Proof.
  intros Hrun.
  apply runWorkflow_failed in Hrun as [-> [[_ ->]|(p & _ & Hresp)]].
  { split; [by left|done]. }
  rewrite respond_unrolled in Hresp.
  destruct ((getFromCache (cacheKeyOf p) (clock w) (cache w)).1)
    as [[|[|a r]]|]; [| |done|];
    destruct (verdict (upstream w !! retriesTaken 2 (upstream w))) as [[|t]| |];
    try done; injection Hresp as <- <-; simpl;
    (split;
       [intros k e;
        first [ by (intros [->|?%getFromCache_keeps]%setCache_keeps; [right|left])
              | by (intros ?%getFromCache_keeps; left) ]|]);
    (split; [first [done | intros _; apply getFromCache_length]|]);
    intros Heq; apply (f_equal length) in Heq; rewrite length_app in Heq;
    simpl in Heq; lia.
Qed.

Lemma failed_request_and_the_cache_witness :
  let w := worldWith [Responded {| status := 200; statusText := "OK";
                                   errorMessage := None;
                                   candidateText := Some Undefined |}] in
  runWorkflow noKeyEnv sampleRequest w =
    (Some (Failed 500 NO_LENGTH_MESSAGE), (runWorkflow noKeyEnv sampleRequest w).2) /\
  cache w = [] /\
  JsMap.get (cache (runWorkflow noKeyEnv sampleRequest w).2)
    (getCacheKey {| ck_model := DEFAULT_MODEL; ck_system := DEFAULT_SYSTEM;
                    ck_prompt := "dogs" |}) =
    Some {| data := Undefined; timestamp := 0 |} /\
  forall k e,
    JsMap.get (cache (runWorkflow noKeyEnv sampleRequest w).2) k = Some e ->
    data e = Undefined.
Proof.
  split; [by vm_compute|]. split; [done|]. split; [by vm_compute|].
  intros k e Hget.
  destruct (failed_request_and_the_cache noKeyEnv sampleRequest
              (worldWith [Responded {| status := 200; statusText := "OK";
                                       errorMessage := None;
                                       candidateText := Some Undefined |}])
              500 NO_LENGTH_MESSAGE
              (runWorkflow noKeyEnv sampleRequest
                 (worldWith [Responded {| status := 200; statusText := "OK";
                                          errorMessage := None;
                                          candidateText := Some Undefined |}])).2)
    as (Hentries & _ & _); [by vm_compute|].
  destruct (Hentries k e Hget) as [Hold|(-> & _ & _)]; [done|done].
Defined.

(** ** The reply of a request that succeeds *)

Lemma get_setOutput outputs key t k :
  JsMap.get (setOutput outputs key t) k =
  if decide (k = key /\ k ≠ "__proto__") then Some t else JsMap.get outputs k.
Proof.
  unfold setOutput. destruct (decide (key = "__proto__")) as [->|Hkey].
  - rewrite decide_False; [done|]. by intros [-> ?].
  - destruct (decide (key = k)) as [<-|Hne].
    + rewrite decide_True by done. apply get_set_eq.
    + rewrite decide_False by (intros [-> _]; done). by apply get_set_ne.
Qed.

Lemma get_broadcast_from ns t (acc : list (string * string)) k :
  JsMap.get (foldl (fun outputs n => setOutput outputs (id n) t) acc ns) k =
  if decide (k ∈ id <$> ns /\ k ≠ "__proto__") then Some t else JsMap.get acc k.
Proof.
  revert acc. induction ns as [|n ns IH]; intros acc.
  - rewrite decide_False; [done|]. intros [Hin _]. by apply elem_of_nil in Hin.
  - rewrite fmap_cons. change (foldl ?f acc (n :: ns)) with (foldl f (f acc n) ns).
    rewrite IH, get_setOutput.
    destruct (decide (k ∈ id <$> ns /\ k ≠ "__proto__")) as [[Hin Hk]|Hout].
    + rewrite decide_True; [done|]. split; [|done]. apply elem_of_cons. by right.
    + destruct (decide (k = id n /\ k ≠ "__proto__")) as [[-> Hk]|Hne].
      * rewrite decide_True; [done|]. split; [|done]. apply elem_of_cons. by left.
      * rewrite decide_False; [done|].
        intros [[->|Hin]%elem_of_cons Hk]; [by apply Hne|by apply Hout].
Qed.

Lemma NoDup_broadcast_from ns t (acc : list (string * string)) :
  NoDup (JsMap.keys acc) ->
  NoDup (JsMap.keys (foldl (fun outputs n => setOutput outputs (id n) t) acc ns)).
Proof.
  revert acc. induction ns as [|n ns IH]; intros acc Hnd; [done|].
  simpl. apply IH. unfold setOutput.
  destruct (decide (id n = "__proto__")); [done|]. by apply NoDup_keys_set.
Qed.

Lemma runWorkflow_succeeded env req w outs md w' :
  runWorkflow env req w = (Some (Succeeded outs md), w') ->
  exists p t, prepare env req = Return p /\
    outs = broadcast (ofType "customOutput" (nodes req)) t /\
    md = {| md_model := p_model p; tokensUsed := String.length t |}.
Proof.
  unfold runWorkflow, runWorkflowBody.
  destruct (prepare env req) as [p|m|]; [|done|done].
  rewrite respond_unrolled.
  destruct ((getFromCache (cacheKeyOf p) (clock w) (cache w)).1)
    as [[|[|a r]]|].
  3: { intros [= <- <- _]. by eexists _, _. }
  all: destruct (verdict (upstream w !! retriesTaken 2 (upstream w))) as [[|t]| |];
    try done; intros [= <- <- _]; by eexists _, _.
Qed.

(** X10: the reply of a request that succeeds gives one and the same text
    to every output node of the request whose id is not [__proto__] and
    has no other output: the assignment to [outputs['__proto__']] creates
    no key, so the reply has no output at all when every output node has
    that id.  [tokensUsed] is the length of the text and [model] is the
    model asked for, the default one when none was. *)
Theorem success_reply_shape env req w outs md w' :
  runWorkflow env req w = (Some (Succeeded outs md), w') ->
  exists t,
    (forall k, JsMap.get outs k =
       if decide (k ∈ id <$> ofType "customOutput" (nodes req) /\ k ≠ "__proto__")
       then Some t else None) /\
    NoDup (JsMap.keys outs) /\
    (outs = [] <->
     forall n, n ∈ ofType "customOutput" (nodes req) -> id n = "__proto__") /\
    tokensUsed md = String.length t /\
    md_model md = or_else (cfg model req) DEFAULT_MODEL.
Proof.
  intros (p & t & Hp & -> & ->)%runWorkflow_succeeded. exists t.
  pose proof (get_broadcast_from (ofType "customOutput" (nodes req)) t [])
    as Hget.
  split; [exact Hget|]. split; [apply NoDup_broadcast_from; constructor|].
  split; [|split; [done|by apply prepare_fields in Hp as [-> _]]].
  fold (broadcast (ofType "customOutput" (nodes req)) t) in Hget.
  split.
  - intros Hnil n Hn. specialize (Hget (id n)). rewrite Hnil in Hget.
    destruct (decide (id n = "__proto__")) as [|Hne]; [done|].
    rewrite decide_True in Hget; [done|]. split; [|done].
    apply list_elem_of_fmap. by exists n.
  - intros Hall.
    destruct (broadcast (ofType "customOutput" (nodes req)) t) as [|[k v] outs];
      [done|].
    specialize (Hget k). simpl in Hget. rewrite decide_True in Hget by done.
    rewrite decide_False in Hget; [done|].
    intros [(n & -> & Hn)%list_elem_of_fmap Hk]. by apply Hk, Hall.
Qed.

Lemma success_reply_shape_witness :
  exists t,
    (forall k, JsMap.get [("out-1", "Woof")] k =
       if decide (k ∈ id <$> ofType "customOutput" (nodes sampleRequest)
                  /\ k ≠ "__proto__")
       then Some t else None) /\
    NoDup (JsMap.keys [("out-1", "Woof")]) /\
    ([("out-1", "Woof")] = [] <->
     forall n, n ∈ ofType "customOutput" (nodes sampleRequest) ->
               id n = "__proto__") /\
    4 = String.length t /\
    DEFAULT_MODEL = or_else (cfg model sampleRequest) DEFAULT_MODEL.
Proof.
  apply (success_reply_shape noKeyEnv sampleRequest
           (worldWith [Responded (okResponse "Woof")])
           [("out-1", "Woof")] {| md_model := DEFAULT_MODEL; tokensUsed := 4 |}
           (runWorkflow noKeyEnv sampleRequest
              (worldWith [Responded (okResponse "Woof")])).2).
  by vm_compute.
Defined.

(** ** A server at work *)

Lemma serveAll_bounds arrivals w :
  reachable (cache w) ->
  reachable (cache (serveAll w arrivals)) /\
  length (sent (serveAll w arrivals)) <= length (sent w) + 3 * length arrivals /\
  length (slept (serveAll w arrivals)) <= length (slept w) + 2 * length arrivals /\
  length (sent (serveAll w arrivals)) + length (upstream (serveAll w arrivals))
    <= length (sent w) + length (upstream w) + 3 * length arrivals.
Proof.
  revert w. induction arrivals as [|[[t env] req] rest IH]; intros w Hr.
  - simpl. split; [done|]. lia.
  - simpl.
    pose proof (runWorkflow_reachable env req (atTime t w) Hr) as Hr'.
    destruct (runWorkflow_cost env req (atTime t w))
      as (k & Hk & Hslept & Hsent).
    destruct (IH _ Hr') as (IH1 & IH2 & IH3 & IH4).
    split; [done|].
    assert (length (slept (runWorkflow env req (atTime t w)).2)
            <= length (slept w) + 2) as Hs.
    { rewrite Hslept, length_app, length_replicate. simpl. lia. }
    assert (length (sent (runWorkflow env req (atTime t w)).2)
              <= length (sent w) + 3 /\
            length (sent (runWorkflow env req (atTime t w)).2) +
            length (upstream (runWorkflow env req (atTime t w)).2)
              <= length (sent w) + length (upstream w) + 3) as [Hq Hu].
    { destruct Hsent as [(_ & -> & ->)|(rq & -> & ->)]; simpl; [lia|].
      rewrite length_app, length_drop. simpl. rewrite length_replicate. lia. }
    lia.
Qed.

(** X11: however many requests the server handles, whenever they arrive
    and whatever the backend answers, the cache holds at most 1000 entries
    under distinct keys, and the server has sent at most three requests to
    the backend and slept at most twice per request handled. *)
Theorem server_stays_bounded script arrivals :
  NoDup (JsMap.keys (cache (serveAll (worldWith script) arrivals))) /\
  length (cache (serveAll (worldWith script) arrivals)) <= 1000 /\
  length (sent (serveAll (worldWith script) arrivals)) <= 3 * length arrivals /\
  length (slept (serveAll (worldWith script) arrivals)) <= 2 * length arrivals.
Proof.
  destruct (serveAll_bounds arrivals (worldWith script)) as (Hr & Hq & Hs & _);
    [constructor|].
  apply reachable_inv in Hr as [Hnd Hlen]. simpl in *. repeat split; done || lia.
Qed.

(** ** A stored answer and the API key *)

Lemma prepare_withApiKey env env' req p key' :
  prepare env req = Return p -> key' <> "" ->
  prepare env' (withApiKey (Some key') req) =
    Return {| p_model := p_model p; p_system := p_system p;
              p_prompt := p_prompt p; p_apiKey := key' |}.
Proof.
  intros Hp Hkey.
  assert (resolveApiKey env' (withApiKey (Some key') req) = Some key') as Hk.
  { unfold resolveApiKey.
    change (cfg apiKey (withApiKey (Some key') req)) with (Some key').
    by destruct key'. }
  revert Hp. unfold prepare. rewrite Hk.
  change (nodes (withApiKey (Some key') req)) with (nodes req).
  change (inputs (withApiKey (Some key') req)) with (inputs req).
  change (cfg system (withApiKey (Some key') req)) with (cfg system req).
  change (cfg prompt (withApiKey (Some key') req)) with (cfg prompt req).
  change (cfg model (withApiKey (Some key') req)) with (cfg model req).
  repeat case_bool_decide; try done.
  destruct (inputs req) as [entries|]; [|done].
  destruct (substituteInputs _ _ _ _) as [[sys user]|]; [|done].
  destruct (resolveApiKey env req); [|done].
  by intros [= <-].
Qed.

(** X12: an answer the backend gave to one caller is served from the
    cache to the same request made with any other API key that is not
    empty, in whatever environment: nothing is sent to the backend, so the
    key is never put to the test. *)
Theorem cached_answer_ignores_api_key env env' req key' w outs md w1 later :
  reachable (cache w) ->
  runWorkflow env req w = (Some (Succeeded outs md), w1) ->
  sent w1 <> sent w -> tokensUsed md <> 0 -> key' <> "" ->
  (later - clock w1 < CACHE_TTL)%Z ->
  runWorkflow env' (withApiKey (Some key') req) (atTime later w1) =
    (Some (Succeeded outs md), atTime later w1).
Proof.
  intros Hr Hrun Hsent Htext Hkey Hlater.
  unfold runWorkflow, runWorkflowBody in Hrun.
  destruct (prepare env req) as [p|m|] eqn:Hp; [|done|done].
  destruct (respond _ p w) as [[reply|m|] w1'] eqn:Hresp; [|done|done].
  injection Hrun as -> ->.
  destruct (respond_miss _ p w _ w1 Hr Hresp Hsent) as (t & [= -> ->] & Hget).
  unfold runWorkflow, runWorkflowBody.
  rewrite (prepare_withApiKey env env' req p key' Hp Hkey).
  change (nodes (withApiKey (Some key') req)) with (nodes req).
  rewrite (respond_hit (ofType "customOutput" (nodes req))
             {| p_model := p_model p; p_system := p_system p;
                p_prompt := p_prompt p; p_apiKey := key' |}
             (atTime later w1) {| data := t; timestamp := clock w1 |} t Hget
             eq_refl);
    simpl; [done| |lia].
  intros ->. done.
Qed.

Lemma cached_answer_ignores_api_key_witness :
  let first :=
    runWorkflow noKeyEnv sampleRequest (worldWith [Responded (okResponse "Woof")]) in
  runWorkflow {| GOOGLE_API_KEY := Some "server-key" |}
    (withApiKey (Some "not-a-key") sampleRequest) (atTime 299999 first.2) =
  (Some (Succeeded [("out-1", "Woof")]
           {| md_model := DEFAULT_MODEL; tokensUsed := 4 |}),
   atTime 299999 first.2).
Proof.
  apply (cached_answer_ignores_api_key noKeyEnv
           {| GOOGLE_API_KEY := Some "server-key" |} sampleRequest "not-a-key"
           (worldWith [Responded (okResponse "Woof")])).
  - constructor.
  - by vm_compute.
  - by vm_compute.
  - by vm_compute.
  - done.
  - by vm_compute.
Defined.

(** ** The [/pipelines/parse] handler *)

Lemma no_edges_no_cycle ns x y : ~ tc (workflowEdge ns []) x y.
Proof.
  assert (forall a b, ~ workflowEdge ns [] a b) as Hnone.
  { intros a b (_ & e & He & _). by apply elem_of_nil in He. }
  intros Htc. destruct Htc as [a b H|a b c H _]; by apply Hnone in H.
Qed.

(** X13: the parse handler answers 400 when the pipeline has no list of
    nodes.  Given a list of nodes and no [edges] it answers with the number
    of nodes, no edge and an acyclic graph.  On a graph none of whose
    identifiers is a name of [Object.prototype] it answers with the number
    of nodes and of edges, and [is_dag] is [false] exactly when the edges
    that start at a listed node contain a directed cycle.  When no node is
    named [__proto__], an edge that leaves an unlisted name of
    [Object.prototype] is answered 400 with the message of the
    [TypeError]. *)
Theorem pipelinesParse_answers ns es :
  ordinaryGraph ns (default [] es) = true ->
  pipelinesParse None es = Some (ParseFailed 400 "Invalid nodes data") /\
  (forall ns', pipelinesParse (Some ns') None = Some (Parsed (length ns') 0 true)) /\
  (exists is_dag,
     pipelinesParse (Some ns) es =
       Some (Parsed (length ns) (length (default [] es)) is_dag) /\
     (is_dag = false <-> exists x, tc (workflowEdge ns (default [] es)) x x)) /\
  (forall ns' es' e,
     "__proto__" ∉ id <$> ns' ->
     e ∈ es' -> source e ∉ id <$> ns' -> source e ∈ objectPrototypeNames ->
     pipelinesParse (Some ns') (Some es') =
       Some (ParseFailed 400 "adj[edge.source].push is not a function")).
Proof.
  intros Hord. split; [done|]. split; [|split].
  - intros ns'. unfold pipelinesParse. simpl default.
    by rewrite checkIfDAG_no_edges.
  - unfold pipelinesParse.
    destruct (checkIfDAG_cycles ns (default [] es) Hord) as [[-> Hyes]|[-> Hno]];
      eexists; (split; [done|]); split; done.
  - intros ns' es' e Hproto He Hout Hname. unfold pipelinesParse, checkIfDAG.
    simpl default. by rewrite (buildAdj_throw ns' es' e).
Qed.

Lemma pipelinesParse_answers_witness :
  ordinaryGraph (nodes sampleRequest) cyclicEdges = true /\
  exists is_dag,
    pipelinesParse (Some (nodes sampleRequest)) (Some cyclicEdges) =
      Some (Parsed 3 3 is_dag) /\
    (is_dag = false <->
     exists x, tc (workflowEdge (nodes sampleRequest) cyclicEdges) x x).
Proof.
  split; [reflexivity|].
  apply (pipelinesParse_answers (nodes sampleRequest) (Some cyclicEdges)).
  reflexivity.
Defined.

(** ** The sanitiser of strings *)

Lemma append_cons c a b : String c a +:+ b = String c (a +:+ b).
Proof. reflexivity. Qed.

Lemma length_append a b :
  String.length (a +:+ b) = String.length a + String.length b.
Proof.
  induction a as [|c a IH]; [done|].
  rewrite append_cons. cbn [String.length]. by rewrite IH.
Qed.

Lemma replaceChar_app c replacement a b :
  replaceChar c replacement (a +:+ b) =
  replaceChar c replacement a +:+ replaceChar c replacement b.
Proof.
  induction a as [|x a IH]; [done|].
  rewrite append_cons. cbn [replaceChar]. rewrite IH. by rewrite append_assoc.
Qed.

Lemma sanitizeString_app a b :
  sanitizeString (a +:+ b) = sanitizeString a +:+ sanitizeString b.
Proof. unfold sanitizeString. by rewrite !replaceChar_app. Qed.

Lemma sanitizeString_char c : sanitizeString (String c "") = escapeChar c.
Proof. destruct c as [[] [] [] [] [] [] [] []]; reflexivity. Qed.

Lemma sanitizeString_escapeAll s : sanitizeString s = escapeAll s.
Proof.
  induction s as [|c s IH]; [done|].
  change (sanitizeString (String c "" +:+ s) = escapeChar c +:+ escapeAll s).
  by rewrite sanitizeString_app, sanitizeString_char, IH.
Qed.

Lemma plain_app a b : plain (a +:+ b) = plain a && plain b.
Proof.
  unfold plain. induction a as [|c a IH]; [done|].
  rewrite append_cons. cbn [string_forallb]. by rewrite IH, andb_assoc.
Qed.

Lemma plain_escapeChar c : plain (escapeChar c) = true.
Proof. destruct c as [[] [] [] [] [] [] [] []]; reflexivity. Qed.

Lemma escapeChar_plain c : isSpecial c = false -> escapeChar c = String c "".
Proof. destruct c as [[] [] [] [] [] [] [] []]; cbv; congruence. Qed.

Lemma escapeChar_special c :
  isSpecial c = true -> 4 <= String.length (escapeChar c).
Proof.
  destruct c as [[] [] [] [] [] [] [] []]; intros H; try discriminate H;
    vm_compute; lia.
Qed.

Lemma escapeChar_length c : 1 <= String.length (escapeChar c).
Proof.
  destruct (isSpecial c) eqn:Hc.
  - pose proof (escapeChar_special c Hc). lia.
  - by rewrite (escapeChar_plain c Hc).
Qed.

Lemma plain_escapeAll s : plain (escapeAll s) = true.
Proof.
  induction s as [|c s IH]; [done|].
  cbn [escapeAll]. by rewrite plain_app, plain_escapeChar, IH.
Qed.

Lemma escapeAll_plain s : plain s = true -> escapeAll s = s.
Proof.
  unfold plain. induction s as [|c s IH]; [done|].
  cbn [string_forallb escapeAll]. intros [Hc Hs]%andb_true_iff.
  apply negb_true_iff in Hc. by rewrite (escapeChar_plain c Hc), IH.
Qed.

(** X14: the five replacements of [sanitizeString] do not meet: the
    result is the one of a single pass that puts the entity in the place
    of each of the five characters.  So the sanitiser goes through
    concatenation and never makes a string shorter. *)
Theorem sanitizeString_one_pass a b :
  sanitizeString a = escapeAll a /\
  sanitizeString (a +:+ b) = sanitizeString a +:+ sanitizeString b /\
  String.length a <= String.length (sanitizeString a).
Proof.
  split; [apply sanitizeString_escapeAll|]. split; [apply sanitizeString_app|].
  rewrite sanitizeString_escapeAll.
  induction a as [|c a IH]; [done|].
  cbn [escapeAll String.length]. rewrite length_append.
  pose proof (escapeChar_length c). lia.
Qed.

(** X15: the result of [sanitizeString] holds none of the five
    characters; sanitising it again changes nothing; and the strings the
    sanitiser leaves as they are are those that hold none of the five. *)
Theorem sanitizeString_idempotent s :
  plain (sanitizeString s) = true /\
  sanitizeString (sanitizeString s) = sanitizeString s /\
  (sanitizeString s = s <-> plain s = true).
Proof.
  assert (plain (sanitizeString s) = true) as Hplain
    by (rewrite sanitizeString_escapeAll; apply plain_escapeAll).
  split; [done|]. split.
  - rewrite (sanitizeString_escapeAll (sanitizeString s)). by apply escapeAll_plain.
  - split; [by intros <-|].
    intros Hs. rewrite sanitizeString_escapeAll. by apply escapeAll_plain.
Qed.

(** X16: the ampersand is not replaced, so a character and the text of
    its entity are sanitised to the same string: the sanitiser cannot be
    undone. *)
Theorem sanitizeString_confuses_entities a c b :
  isSpecial c = true ->
  sanitizeString (a +:+ String c b) = sanitizeString (a +:+ escapeChar c +:+ b) /\
  a +:+ String c b <> a +:+ escapeChar c +:+ b.
Proof.
  intros Hc. split.
  - change (String c b) with (String c "" +:+ b).
    rewrite !sanitizeString_app, sanitizeString_char.
    rewrite (sanitizeString_escapeAll (escapeChar c)).
    by rewrite (escapeAll_plain _ (plain_escapeChar c)).
  - intros Heq. apply (f_equal String.length) in Heq.
    rewrite !length_append in Heq. cbn [String.length] in Heq.
    pose proof (escapeChar_special c Hc). lia.
Qed.

Lemma sanitizeString_confuses_entities_witness :
  sanitizeString "a<b" = sanitizeString "a&lt;b" /\ "a<b" <> "a&lt;b".
Proof.
  apply (sanitizeString_confuses_entities "a" "<" "b"). reflexivity.
Defined.

(** ** The client *)

Lemma apiFetch_outcome data b :
  apiFetch data b =
    (outcomeAt (backend b) 0,
     {| backend := tail (backend b); posted := posted b ++ [data];
        waited := waited b |}).
Proof. unfold apiFetch, outcomeAt. by destruct (backend b). Qed.

Lemma outcomeAt_tail script i : outcomeAt (tail script) i = outcomeAt script (S i).
Proof. unfold outcomeAt. by destruct script. Qed.

Lemma drop_tail {A} (l : list A) n : drop n (tail l) = drop (S n) l.
Proof. destruct l; [by destruct n|done]. Qed.

Lemma fails_iff o : fails o <-> forall result, attemptResult o <> Resolved result.
Proof.
  unfold fails. destruct (attemptResult o) as [result|err].
  - split; [by intros [err ?]|]. intros H. by destruct (H result).
  - split; [done|]. intros _. by exists err.
Qed.

Lemma failedAttempts_spec n script :
  failedAttempts n script <= n /\
  (forall i, i < failedAttempts n script -> fails (outcomeAt script i)) /\
  (failedAttempts n script < n ->
     ~ fails (outcomeAt script (failedAttempts n script))).
Proof.
  revert script. induction n as [|n IH]; intros script.
  - simpl. split; [lia|]. split; intros; lia.
  - cbn [failedAttempts].
    destruct (attemptResult (outcomeAt script 0)) as [result|err] eqn:Hfirst.
    + split; [lia|]. split; [intros; lia|].
      intros _ [err Herr]. congruence.
    + destruct (IH (tail script)) as (Hle & Hlead & Hnext).
      split; [lia|]. split.
      * intros [|i] Hi; [by exists err|].
        rewrite <- outcomeAt_tail. apply Hlead. lia.
      * intros Hlt. rewrite <- outcomeAt_tail. apply Hnext. lia.
Qed.

Lemma attemptLoop_step remaining attempt maxRetries data b :
  attemptLoop (S remaining) attempt maxRetries data b =
    match attemptResult (outcomeAt (backend b) 0) with
    | Resolved result =>
        (Resolved (Some result),
         {| backend := tail (backend b); posted := posted b ++ [data];
            waited := waited b |})
    | RejectedWith err =>
        if bool_decide (attempt = maxRetries) then
          (RejectedWith err,
           {| backend := tail (backend b); posted := posted b ++ [data];
              waited := waited b |})
        else
          attemptLoop remaining (S attempt) maxRetries data
            (apiWait (waitTime attempt)
               {| backend := tail (backend b); posted := posted b ++ [data];
                  waited := waited b |})
    end.
Proof.
  change (attemptLoop (S remaining) attempt maxRetries data b) with
    (let '(o, b1) := apiFetch data b in
     match attemptResult o with
     | Resolved result => (Resolved (Some result), b1)
     | RejectedWith err =>
         if bool_decide (attempt = maxRetries) then (RejectedWith err, b1)
         else attemptLoop remaining (S attempt) maxRetries data
                (apiWait (waitTime attempt) b1)
     end).
  by rewrite apiFetch_outcome.
Qed.

(** The loop unrolled over the outcomes the backend has in store. *)
Lemma attemptLoop_unrolled n attempt maxRetries data b :
  attempt + n = maxRetries ->
  attemptLoop (S n) attempt maxRetries data b =
    (lastAttempt (outcomeAt (backend b) (failedAttempts n (backend b))),
     {| backend := drop (S (failedAttempts n (backend b))) (backend b);
        posted := posted b ++ replicate (S (failedAttempts n (backend b))) data;
        waited := waited b ++
                  (waitTime <$> seq attempt (failedAttempts n (backend b))) |}).
Proof.
  revert attempt b. induction n as [|n IH]; intros attempt b Hsum.
  - rewrite attemptLoop_step. cbn [failedAttempts]. unfold lastAttempt.
    rewrite <- drop_tail, drop_0. cbn [seq fmap list_fmap replicate].
    rewrite app_nil_r.
    destruct (attemptResult (outcomeAt (backend b) 0)) as [result|err]; [done|].
    by rewrite bool_decide_true by lia.
  - rewrite attemptLoop_step. cbn [failedAttempts].
    destruct (attemptResult (outcomeAt (backend b) 0)) as [result|err] eqn:Hfirst.
    + unfold lastAttempt. rewrite Hfirst.
      rewrite <- drop_tail, drop_0. cbn [seq fmap list_fmap replicate].
      by rewrite app_nil_r.
    + rewrite bool_decide_false by lia. rewrite IH by lia.
      cbn [apiWait backend posted waited].
      rewrite outcomeAt_tail, drop_tail. f_equal. f_equal.
      * by rewrite <- app_assoc.
      * by rewrite <- app_assoc.
Qed.

(** X17: [callWorkflowAPI] with [maxRetries] at least one posts the same
    body again after every failure, whatever the failure is (a rejected
    fetch, a status that is not a success, an [error] in the reply), until
    an attempt succeeds or [maxRetries] attempts are made; it waits
    [waitTime] of the attempt after each failure it retries, and it ends
    as its last attempt does.  With [maxRetries] zero it posts nothing and
    resolves to [undefined]. *)
Theorem callWorkflowAPI_closed_form data n b :
  callWorkflowAPI data 0 b = (Resolved None, b) /\
  exists k, k <= n /\
    (forall i, i < k -> fails (outcomeAt (backend b) i)) /\
    (k < n -> ~ fails (outcomeAt (backend b) k)) /\
    callWorkflowAPI data (S n) b =
      (lastAttempt (outcomeAt (backend b) k),
       {| backend := drop (S k) (backend b);
          posted := posted b ++ replicate (S k) data;
          waited := waited b ++ (waitTime <$> seq 1 k) |}).
Proof.
  split; [done|]. exists (failedAttempts n (backend b)).
  destruct (failedAttempts_spec n (backend b)) as (Hle & Hlead & Hnext).
  split; [done|]. split; [done|]. split; [done|].
  unfold callWorkflowAPI. by apply attemptLoop_unrolled.
Qed.

(** X18: the popup reports success exactly when one of the first three
    outcomes of the backend is a success.  When it reports a failure it
    has posted the body three times and waited one second and then two,
    and the message it shows is made from the error of the third attempt
    alone. *)
Theorem handleRun_reports ns es b :
  (popup_success (handleRun ns es b).1 = true <->
     exists i, i < 3 /\ ~ fails (outcomeAt (backend b) i)) /\
  (popup_success (handleRun ns es b).1 = true ->
     popup_error (handleRun ns es b).1 = None) /\
  (popup_success (handleRun ns es b).1 = false ->
     exists err,
       attemptResult (outcomeAt (backend b) 2) = RejectedWith err /\
       popup_error (handleRun ns es b).1 = Some (errorMessageOf err) /\
       posted (handleRun ns es b).2 = posted b ++ replicate 3 (workflowData ns es) /\
       waited (handleRun ns es b).2 = waited b ++ [1000; 2000]%Z).
Proof.
  unfold handleRun, callWorkflowAPI.
  rewrite (attemptLoop_unrolled 2 1 3) by done.
  destruct (failedAttempts_spec 2 (backend b)) as (Hle & Hlead & Hnext).
  set (k := failedAttempts 2 (backend b)) in *.
  unfold lastAttempt.
  destruct (attemptResult (outcomeAt (backend b) k)) as [result|err] eqn:Hlast;
    cbn [fst snd popup_success popup_error posted waited].
  - split; [|split; [done|done]]. split; [|done]. intros _.
    exists k. split; [lia|]. intros [err Herr]. congruence.
  - assert (k = 2) as Hk.
    { destruct (decide (k < 2)) as [Hlt|Hge]; [|lia].
      destruct (Hnext Hlt). by exists err. }
    split; [|split; [done|]].
    + split; [done|]. intros (i & Hi & Hok). destruct Hok.
      destruct (decide (i < k)) as [Hlt|Hge]; [by apply Hlead|].
      replace i with k by lia. by exists err.
    + intros _. exists err. rewrite Hk in *. done.
Qed.

Lemma ofType_nodes t (ns : list UiNode) :
  ofType t (node <$> ns) = node <$> uiOfType t ns.
Proof.
  unfold ofType, uiOfType. induction ns as [|n ns IH]; [done|].
  rewrite fmap_cons. cbn [List.filter].
  destruct (bool_decide (type (node n) = t)); [|done].
  rewrite fmap_cons. by rewrite IH.
Qed.

Lemma or_else_twice a b : or_else (Some (or_else a b)) b = or_else a b.
Proof. destruct a as [[|c s]|]; simpl; by destruct b. Qed.

Lemma or_else_empty a b : or_else (Some (or_else a "")) b = or_else a b.
Proof. by destruct a as [[|c s]|]. Qed.

(** X19: when [handleSubmit] opens the popup, the handler run on the body
    [handleRun] posts (the server without the validation middleware runs
    it on the body as posted) finds the input and output nodes it asks
    for, and it substitutes nothing, since the popup sends no inputs: the
    system prompt and the user prompt are those of the first LLM node, with
    their placeholders, the defaults of the server standing in for the
    empty ones; the key is the one of that node, or the one of the
    environment when the node has none. *)
Theorem popup_request_as_prepared ns es env :
  handleSubmit ns = None ->
  exists n rest, uiOfType "llm" ns = n :: rest /\
    prepare env (workflowData ns es) =
      match or_else (data_apiKey n) (or_else (GOOGLE_API_KEY env) "") with
      | "" => Throw NO_API_KEY_MESSAGE
      | key =>
          Return {| p_model := or_else (data_model n) DEFAULT_MODEL;
                    p_system := or_else (data_system n) DEFAULT_SYSTEM;
                    p_prompt := or_else (data_prompt n) "";
                    p_apiKey := key |}
      end.
Proof.
  unfold handleSubmit. repeat case_bool_decide; try done. intros _.
  destruct (uiOfType "llm" ns) as [|n rest] eqn:Hllm; [done|].
  exists n, rest. split; [done|].
  assert (llmConfig (workflowData ns es) =
            Some {| apiKey := Some (or_else (data_apiKey n) "");
                    model := Some (or_else (data_model n) DEFAULT_MODEL);
                    system := Some (or_else (data_system n) "");
                    prompt := Some (or_else (data_prompt n) "") |}) as Hcfg.
  { unfold workflowData. cbn [llmConfig]. by rewrite Hllm. }
  unfold prepare, resolveApiKey, cfg. rewrite Hcfg.
  change (nodes (workflowData ns es)) with (node <$> ns).
  change (inputs (workflowData ns es)) with (@Some (list (string * string)) []).
  rewrite !ofType_nodes, !length_fmap.
  rewrite !bool_decide_false by done.
  cbn [substituteInputs apiKey model system prompt].
  rewrite or_else_twice, !or_else_empty.
  by destruct (or_else (data_apiKey n) (or_else (GOOGLE_API_KEY env) "")).
Qed.

Lemma popup_request_as_prepared_witness :
  exists n rest,
    uiOfType "llm"
      [ {| node := mkInput "in-1" "topic"; data_model := None; data_system := None;
           data_prompt := None; data_apiKey := None |};
        {| node := mkNode "llm-1" "llm"; data_model := None; data_system := None;
           data_prompt := Some "Talk about {{topic}}"; data_apiKey := None |};
        {| node := mkNode "out-1" "customOutput"; data_model := None;
           data_system := None; data_prompt := None; data_apiKey := None |} ]
    = n :: rest /\
    prepare {| GOOGLE_API_KEY := Some "server-key" |}
      (workflowData
         [ {| node := mkInput "in-1" "topic"; data_model := None;
              data_system := None; data_prompt := None; data_apiKey := None |};
           {| node := mkNode "llm-1" "llm"; data_model := None; data_system := None;
              data_prompt := Some "Talk about {{topic}}"; data_apiKey := None |};
           {| node := mkNode "out-1" "customOutput"; data_model := None;
              data_system := None; data_prompt := None; data_apiKey := None |} ]
         []) =
      match or_else (data_apiKey n) (or_else (Some "server-key") "") with
      | "" => Throw NO_API_KEY_MESSAGE
      | key =>
          Return {| p_model := or_else (data_model n) DEFAULT_MODEL;
                    p_system := or_else (data_system n) DEFAULT_SYSTEM;
                    p_prompt := or_else (data_prompt n) "";
                    p_apiKey := key |}
      end.
Proof.
  apply (popup_request_as_prepared _ [] {| GOOGLE_API_KEY := Some "server-key" |}).
  reflexivity.
Defined.
